(** * thyme-backend: the photo store, the scanner, the linker, the
      thumbnail cache and the server's view of the store

    A shallow embedding of package [photos] ([decodeExif], [decode],
    [store], [isPhoto], [walkPath], [updatePhotoSiblings], [updateSets],
    [Scan]), of packages [thumb] and [thumbs] ([Basename],
    [generateThumb], [generateThumbs], the queries and the worker loop of
    [Generate]) and of the set and photo endpoints of [thyme-serve]
    ([thumbURL], [AspectRatio], [scanSet], [getSetById], [getSetHandler],
    [scanPhoto], [getPhotoById], [getPhotoHandler]), followed by the
    properties proved about them.

    The SQLite tables are lists of rows kept in rowid order; every SQL
    statement of the source is one definition named after the statement
    handle that runs it, and a row holds what its columns give back (a
    [decimal] column does not keep every [float64]).  Collaborators that
    live outside the repository (the file-system walk, the image and EXIF
    decoders, the path helpers, MD5, [strconv.Atoi] and the
    [vipsthumbnail] process) are fields of an environment class.  A
    run-time panic of [decodeExif] is an outcome of its own. *)

From stdpp Require Import base tactics option list strings gmap pretty.
From Stdlib Require Import ZArith Ascii Sorted OrderedTypeEx Floats.SpecFloat.

Open Scope Z_scope.

(** ** Package [photos] *)

Module Photos.

Definition error := string.

(** A Go [(T, error)] result. *)
Inductive result (A : Type) : Type :=
| Ok (a : A)
| Err (e : error).
Arguments Ok {A} a.
Arguments Err {A} e.

Definition float64 := spec_float.

(** [type Photo struct]; the [sql.Null*] fields are options. *)
Record Photo := mkPhoto {
  Aperture : option float64;
  Camera : option string;
  ExposureComp : option Z;
  ExposureTime : option float64;
  Flash : option string;
  FocalLength : option float64;
  FocalLength35 : option Z;
  Height : Z;
  ISO : option Z;
  Lat : option float64;
  Lens : option string;
  Lng : option float64;
  Path : string;
  Size : Z;
  TakenAt : option string;
  Width : Z
}.

Definition set_Path (path : string) (p : Photo) : Photo :=
  mkPhoto (Aperture p) (Camera p) (ExposureComp p) (ExposureTime p) (Flash p)
          (FocalLength p) (FocalLength35 p) (Height p) (ISO p) (Lat p)
          (Lens p) (Lng p) path (Size p) (TakenAt p) (Width p).

(** *** The schema of [createSchemaSQL]

    A row of [photos]: the key, the reference to the owning set, the two
    sibling links and the columns that [insertPhotoStmt] fills from the
    [Photo] value. *)
Record photo_row := mkPhotoRow {
  p_id : Z;
  p_set_id : Z;
  prev_photo_id : option Z;
  next_photo_id : option Z;
  p_cols : Photo
}.

(** A row of [sets]. *)
Record set_row := mkSetRow {
  s_id : Z;
  thumb_photo_id : option Z;
  s_name : string;
  photos_count : option Z;
  s_taken_at : option string
}.

Record DB := mkDB {
  sets : list set_row;
  photos : list photo_row
}.

Definition empty_db : DB := mkDB [] [].

Definition p_path (r : photo_row) : string := Path (p_cols r).
Definition p_taken_at (r : photo_row) : option string := TakenAt (p_cols r).

(** The rowid SQLite gives to a row inserted without a key: one more than
    the largest rowid of the table, 1 in an empty table. *)
Definition next_rowid (ids : list Z) : Z :=
  match ids with
  | [] => 1
  | i :: rest => fold_right Z.max i rest + 1
  end.

(** SELECT id FROM sets WHERE name = ? *)
Definition selectSetStmt (name : string) (db : DB) : option Z :=
  s_id <$> List.find (fun s => String.eqb (s_name s) name) (sets db).

(** SELECT id FROM photos WHERE path = ? *)
Definition selectPhotoStmt (path : string) (db : DB) : option Z :=
  p_id <$> List.find (fun r => String.eqb (p_path r) path) (photos db).

(** INSERT INTO sets (name) VALUES (?); [name] is UNIQUE. *)
Definition insertSetStmt (name : string) (db : DB) : result (Z * DB) :=
  if existsb (fun s => String.eqb (s_name s) name) (sets db)
  then Err "UNIQUE constraint failed: sets.name"
  else
    let id := next_rowid (map s_id (sets db)) in
    Ok (id, mkDB (sets db ++ [mkSetRow id None name None None]) (photos db)).

(** What a [decimal(p, s)] column (NUMERIC affinity) holds after a
    [float64] was bound to it, as a [sql.NullFloat64] reads it back: a
    NaN is stored as NULL; a number that is an integer is stored as that
    integer, which reads back as the same number except that the zero
    has lost its sign; every other number is stored as it is. *)
Definition numeric (v : option float64) : option float64 :=
  match v with
  | Some S754_nan => None
  | Some (S754_zero _) => Some (S754_zero false)
  | _ => v
  end.

(** The columns of a row as [insertPhotoStmt] leaves them: [aperture],
    [exposure_time], [focal_length], [lat] and [lng] are [decimal]
    columns, the others hold the text or the integer they are given. *)
Definition stored (p : Photo) : Photo :=
  mkPhoto (numeric (Aperture p)) (Camera p) (ExposureComp p) (numeric (ExposureTime p))
          (Flash p) (numeric (FocalLength p)) (FocalLength35 p) (Height p) (ISO p)
          (numeric (Lat p)) (Lens p) (numeric (Lng p)) (Path p) (Size p) (TakenAt p)
          (Width p).

(** INSERT INTO photos (..., path, set_id, ...) VALUES
    (...); [path] is UNIQUE, both links start out NULL. *)
Definition insertPhotoStmt (p : Photo) (setId : Z) (db : DB) : result (Z * DB) :=
  if existsb (fun r => String.eqb (p_path r) (Path p)) (photos db)
  then Err "UNIQUE constraint failed: photos.path"
  else
    let id := next_rowid (map p_id (photos db)) in
    Ok (id, mkDB (sets db) (photos db ++ [mkPhotoRow id setId None None (stored p)])).

(** *** Collaborators of the scanner *)

(** One call of the [filepath.WalkFunc]: the path, [info.IsDir()] and the
    error of the walk at that path. *)
Record walk_entry := mkWalkEntry {
  w_path : string;
  w_is_dir : bool;
  w_err : option error
}.

Class ScanEnv := {
  filepath_Walk : string -> list walk_entry;
  filepath_Dir : string -> string;
  filepath_Base : string -> string;
  filepath_Ext : string -> string;
  mime_TypeByExtension : string -> string;
  (** what [os.Open], [Stat], [image.DecodeConfig] and the EXIF decoder
      leave in the [Photo] for the file at a path, or the error of
      [decode] *)
  read_photo : string -> result Photo
}.

Section Scanner.
Context `{ScanEnv}.

(** [func (p *Photo) decode(path string) error] *)
Definition decode (path : string) : result Photo :=
  match read_photo path with
  | Ok p => Ok (set_Path path p)
  | Err e => Err e
  end.

Definition set_name_of (p : Photo) : string :=
  filepath_Base (filepath_Dir (Path p)).

(** [func (p *Photo) store() error]: the returned error and the store
    after the call. *)
Definition store (p : Photo) (db : DB) : option error * DB :=
  let setName := set_name_of p in
  let found :=
    match selectSetStmt setName db with
    | Some setId => Ok (setId, db)
    | None => insertSetStmt setName db
    end in
  match found with
  | Err e => (Some e, db)
  | Ok (setId, db1) =>
      match selectPhotoStmt (Path p) db1 with
      | Some _ => (None, db1)
      | None =>
          match insertPhotoStmt p setId db1 with
          | Err e => (Some e, db1)
          | Ok (_, db2) => (None, db2)
          end
      end
  end.

(** [func isPhoto(path string, info os.FileInfo) bool] *)
Definition isPhoto (path : string) (is_dir : bool) : bool :=
  if is_dir then false
  else if negb (String.eqb (mime_TypeByExtension (filepath_Ext path)) "image/jpeg")
  then false
  else true.

(** [func walkPath(path string, info os.FileInfo, err error) error]; it
    always returns nil, so only the store is kept. *)
Definition walkPath (e : walk_entry) (db : DB) : DB :=
  match w_err e with
  | Some _ => db
  | None =>
      if negb (isPhoto (w_path e) (w_is_dir e)) then db
      else
        match decode (w_path e) with
        | Ok photo => snd (store photo db)
        | Err _ => db
        end
  end.

(** The loop of [Scan] over its arguments: [filepath.Walk(path, walkPath)]
    for each of them. *)
Definition walk_all (paths : list string) (db : DB) : DB :=
  fold_left (fun db root => fold_left (fun db e => walkPath e db) (filepath_Walk root) db)
            paths db.

End Scanner.

(** *** The linker: sibling chains

    SQLite compares [taken_at] (text, [char(19)]) byte by byte and puts
    NULL before every value under ORDER BY ... ASC. *)
Definition taken_le (a b : option string) : bool :=
  match a, b with
  | None, _ => true
  | Some _, None => false
  | Some x, Some y => String.leb x y
  end.

(** ORDER BY set_id, taken_at *)
Definition siblings_le (a b : photo_row) : bool :=
  (p_set_id a <? p_set_id b)
  || ((p_set_id a =? p_set_id b) && taken_le (p_taken_at a) (p_taken_at b)).

(** Rows with equal sort keys come out in table (rowid) order: a stable
    insertion sort. *)
Fixpoint insert_row {A : Type} (le : A -> A -> bool) (x : A) (l : list A) : list A :=
  match l with
  | [] => [x]
  | y :: rest => if le x y then x :: l else y :: insert_row le x rest
  end.

Definition order_by {A : Type} (le : A -> A -> bool) (l : list A) : list A :=
  fold_right (insert_row le) [] l.

(** SELECT id, set_id FROM photos ORDER BY set_id, taken_at *)
Definition siblings_query (db : DB) : list photo_row :=
  order_by siblings_le (photos db).

Definition siblings_rows (db : DB) : list (Z * Z) :=
  map (fun r => (p_id r, p_set_id r)) (siblings_query db).

Definition is_val (o : option Z) (v : Z) : bool :=
  match o with
  | Some x => x =? v
  | None => false
  end.

Definition set_prev (v : option Z) (r : photo_row) : photo_row :=
  mkPhotoRow (p_id r) (p_set_id r) v (next_photo_id r) (p_cols r).

Definition set_next (v : option Z) (r : photo_row) : photo_row :=
  mkPhotoRow (p_id r) (p_set_id r) (prev_photo_id r) v (p_cols r).

(** A UNIQUE column refuses value [v] for row [id] when the row exists and
    another row already holds [v]. *)
Definition unique_conflict {R : Type} (key : R -> Z) (col : R -> option Z)
    (v id : Z) (rows : list R) : bool :=
  existsb (fun r => key r =? id) rows
  && existsb (fun r => negb (key r =? id) && is_val (col r) v) rows.

(** UPDATE photos SET prev_photo_id = ? WHERE id = ? *)
Definition updatePrevPhotoStmt (v id : Z) (db : DB) : result DB :=
  if unique_conflict p_id prev_photo_id v id (photos db)
  then Err "UNIQUE constraint failed: photos.prev_photo_id"
  else Ok (mkDB (sets db)
                (map (fun r => if p_id r =? id then set_prev (Some v) r else r)
                     (photos db))).

(** UPDATE photos SET next_photo_id = ? WHERE id = ? *)
Definition updateNextPhotoStmt (v id : Z) (db : DB) : result DB :=
  if unique_conflict p_id next_photo_id v id (photos db)
  then Err "UNIQUE constraint failed: photos.next_photo_id"
  else Ok (mkDB (sets db)
                (map (fun r => if p_id r =? id then set_next (Some v) r else r)
                     (photos db))).

(** An open transaction: the store as the statements run so far left it,
    and the result of every [Exec] so far, which the source throws away
    ([None] is a nil error). *)
Record tx := mkTx {
  tx_db : DB;
  tx_results : list (option error)
}.

(** [db.Begin()] *)
Definition begin (db : DB) : tx := mkTx db [].

(** [stmt.Exec(...)] with the result ignored: a failed statement changes
    nothing and the transaction goes on. *)
Definition exec_dropped (stmt : DB -> result DB) (t : tx) : tx :=
  match stmt (tx_db t) with
  | Ok db' => mkTx db' (tx_results t ++ [None])
  | Err e => mkTx (tx_db t) (tx_results t ++ [Some e])
  end.

(** The errors among the ignored results. *)
Definition failures (t : tx) : list error := omap id (tx_results t).

(** The [for rows.Next()] loop of [updatePhotoSiblings]. *)
Fixpoint siblings_loop (rows : list (Z * Z)) (prevId prevSetId : Z) (t : tx) : tx :=
  match rows with
  | [] => t
  | (id, setId) :: rest =>
      let t' :=
        if (setId =? prevSetId) && (0 <? prevId)
        then exec_dropped (updateNextPhotoStmt id prevId)
               (exec_dropped (updatePrevPhotoStmt prevId id) t)
        else t in
      siblings_loop rest id setId t'
  end.

Definition siblings_tx (db : DB) : tx :=
  siblings_loop (siblings_rows db) 0 0 (begin db).

(** [func updatePhotoSiblings() error]: the returned error and the store
    after [tx.Commit()].  [Begin], [Prepare], [Query] and [Commit] are
    taken to succeed; the only errors are those of the two UPDATEs. *)
Definition updatePhotoSiblings (db : DB) : option error * DB :=
  (None, tx_db (siblings_tx db)).

(** *** The linker: set aggregates *)

(** One row of a group under MIN(taken_at): a strictly smaller value
    replaces the minimum, a NULL is skipped once there is a minimum, and
    the bare column [id] is read from every row that is not skipped.  So
    [id] comes from the first row holding the minimum and, in a group
    without any capture time, from its last row. *)
Definition min_step (acc : option string * Z) (r : photo_row) : option string * Z :=
  match p_taken_at r, fst acc with
  | None, Some _ => acc
  | None, None => (None, p_id r)
  | Some t, None => (Some t, p_id r)
  | Some t, Some best => if String.ltb t best then (Some t, p_id r) else acc
  end.

Definition group_min (rows : list photo_row) : option string * Z :=
  fold_left min_step rows (None, 0).

Fixpoint insert_key (k : Z) (l : list Z) : list Z :=
  match l with
  | [] => [k]
  | x :: rest =>
      if k <? x then k :: l
      else if k =? x then l
      else x :: insert_key k rest
  end.

(** The groups of GROUP BY set_id, in ascending key order. *)
Definition group_keys (rows : list photo_row) : list Z :=
  fold_right insert_key [] (map p_set_id rows).

Definition in_set (setId : Z) (r : photo_row) : bool := p_set_id r =? setId.

(** SELECT id, set_id, MIN(taken_at) FROM photos GROUP BY set_id; the
    rows of a group are met in rowid order. *)
Definition sets_rows (db : DB) : list (Z * Z * option string) :=
  map (fun k =>
         let m := group_min (List.filter (in_set k) (photos db)) in
         (snd m, k, fst m))
      (group_keys (photos db)).

(** SELECT COUNT( * ) FROM photos WHERE set_id = ? *)
Definition photosCountStmt (setId : Z) (db : DB) : Z :=
  Z.of_nat (length (List.filter (in_set setId) (photos db))).

(** UPDATE sets SET photos_count = ?, taken_at = ?,
    thumb_photo_id = ? WHERE id = ?; [thumb_photo_id] is UNIQUE. *)
Definition updateSetStmt (photosCount : Z) (takenAt : option string) (thumb id : Z)
    (db : DB) : result DB :=
  if unique_conflict s_id thumb_photo_id thumb id (sets db)
  then Err "UNIQUE constraint failed: sets.thumb_photo_id"
  else Ok (mkDB (map (fun s => if s_id s =? id
                               then mkSetRow (s_id s) (Some thumb) (s_name s)
                                             (Some photosCount) takenAt
                               else s)
                     (sets db))
                (photos db)).

(** The [for rows.Next()] loop of [updateSets]. *)
Fixpoint sets_loop (rows : list (Z * Z * option string)) (t : tx) : tx :=
  match rows with
  | [] => t
  | (id, setId, takenAt) :: rest =>
      let photosCount := photosCountStmt setId (tx_db t) in
      sets_loop rest (exec_dropped (updateSetStmt photosCount takenAt id setId) t)
  end.

Definition sets_tx (db : DB) : tx := sets_loop (sets_rows db) (begin db).

(** [func updateSets() error] *)
Definition updateSets (db : DB) : option error * DB :=
  (None, tx_db (sets_tx db)).

(** The two phases as [Scan] runs them: both results are discarded. *)
Definition link (db : DB) : DB :=
  snd (updateSets (snd (updatePhotoSiblings db))).

(** *** Reading the store *)

Definition photo_by_id (id : Z) (db : DB) : option photo_row :=
  List.find (fun r => p_id r =? id) (photos db).

Definition set_by_id (id : Z) (db : DB) : option set_row :=
  List.find (fun s => s_id s =? id) (sets db).

(** Following one link column from photo [id] until it is NULL: the ids
    visited, or [None] when [fuel] rows were not enough or a link leaves
    the table. *)
Fixpoint follow (link : photo_row -> option Z) (db : DB) (fuel : nat) (id : Z)
    : option (list Z) :=
  match fuel with
  | O => None
  | S n =>
      match photo_by_id id db with
      | None => None
      | Some r =>
          match link r with
          | None => Some [id]
          | Some nx => cons id <$> follow link db n nx
          end
      end
  end.

Definition photos_of (setId : Z) (db : DB) : list photo_row :=
  List.filter (in_set setId) (photos db).

Definition has_taken_at (r : photo_row) : bool :=
  match p_taken_at r with
  | Some _ => true
  | None => false
  end.

(** *** Invariants of the store *)

(** Keys are positive and grow along the table. *)
Fixpoint ascending_from (lo : Z) (l : list Z) : bool :=
  match l with
  | [] => true
  | x :: rest => (lo <? x) && ascending_from x rest
  end.

Definition keys_ok (db : DB) : bool :=
  ascending_from 0 (map s_id (sets db)) && ascending_from 0 (map p_id (photos db)).

Definition no_links (db : DB) : bool :=
  forallb (fun r => match prev_photo_id r, next_photo_id r with
                    | None, None => true
                    | _, _ => false
                    end) (photos db).

(** A cover, when set, is a photo of the set. *)
Definition covers_ok (db : DB) : bool :=
  forallb (fun s => match thumb_photo_id s with
                    | None => true
                    | Some c => existsb (fun r => (p_id r =? c) && in_set (s_id s) r)
                                        (photos db)
                    end) (sets db).

(** Every set has a photo. *)
Definition sets_inhabited (db : DB) : bool :=
  forallb (fun s => existsb (in_set (s_id s)) (photos db)) (sets db).

Definition store_ok (db : DB) : bool :=
  keys_ok db && covers_ok db && sets_inhabited db.

Section Run.
Context `{ScanEnv}.

(** Photos sit in the set named after their directory. *)
Definition names_ok (db : DB) : bool :=
  forallb (fun r => existsb (fun s => (s_id s =? p_set_id r)
                                      && String.eqb (s_name s) (set_name_of (p_cols r)))
                            (sets db)) (photos db).

(** [func Scan(paths ...string)]: the store it leaves. *)
Definition Scan (paths : list string) (db : DB) : DB :=
  link (walk_all paths db).

End Run.

End Photos.

(** ** Packages [thumb] and [thumbs] *)

Module Thumbs.

Definition error := string.

Definition bigThumbSize : Z := 1000.
Definition smallThumbSize : Z := 200.
Definition thumbsDir : string := "public/thumbs".
Definition workers : nat := 4.

Class ThumbEnv := {
  (** [fmt.Sprintf("%x", md5.Sum([]byte(s)))] *)
  md5_hex : string -> string;
  path_Join : string -> string -> string;
  (** [exec.Command("vipsthumbnail", args...).Run()]: the error of the
      run and the files it leaves behind *)
  vipsthumbnail : list string -> gmap string string -> option error * gmap string string
}.

(** What a worker can see and change: the files on disk, the
    [vipsthumbnail] runs made so far (their arguments), the messages given
    to [log.Println] and the count of the progress bar. *)
Record world := mkWorld {
  files : gmap string string;
  runs : list (list string);
  log : list string;
  bar : Z
}.

Definition println (msg : string) (w : world) : world :=
  mkWorld (files w) (runs w) (log w ++ [msg]) (bar w).

(** [bar.Increment()] *)
Definition increment (w : world) : world :=
  mkWorld (files w) (runs w) (log w) (bar w + 1).

Section Cache.
Context `{ThumbEnv}.

(** [func Basename(photoPath, suffix string) string] of package [thumb] *)
Definition Basename (photoPath suffix : string) : string :=
  md5_hex photoPath +:+ "_" +:+ suffix +:+ ".jpg".

Definition cmdArgs (photoPath thumbPath : string) (thumbSize : Z) (crop : bool)
    : list string :=
  let vipsOpts :=
    ["--rotate"; "--size"; pretty thumbSize; "--interpolator"; "bicubic";
     "--output"; thumbPath +:+ "[Q=97,no_subsample,strip]"] in
  let vipsOpts := if crop then vipsOpts ++ ["--crop"] else vipsOpts in
  [photoPath] ++ vipsOpts.

(** [func generateThumb(photoPath, thumbPath string, thumbSize int, crop
    bool) error]; [os.Stat] succeeds when the file is there. *)
Definition generateThumb (photoPath thumbPath : string) (thumbSize : Z) (crop : bool)
    (w : world) : option error * world :=
  match files w !! thumbPath with
  | Some _ => (None, w)
  | None =>
      let args := cmdArgs photoPath thumbPath thumbSize crop in
      let r := vipsthumbnail args (files w) in
      (fst r, mkWorld (snd r) (runs w ++ [args]) (log w) (bar w))
  end.

(** The text [log.Println] is given (operands joined by spaces; the date
    prefix of the logger is left out). *)
Definition failed_to_create (thumbPath photoPath : string) (err : error) : string :=
  "Failed to create " +:+ thumbPath +:+ " for " +:+ photoPath
  +:+ " with error: " +:+ err.

Definition bigThumbPathOf (thumbsPath photoPath : string) : string :=
  path_Join thumbsPath (Basename photoPath "big").

Definition smallThumbPathOf (thumbsPath photoPath : string) : string :=
  path_Join thumbsPath (Basename photoPath "small").

(** [func generateThumbs(photoPath string) (err error)]; the package
    variable [thumbsPath] is the first argument. *)
Definition generateThumbs (thumbsPath photoPath : string) (w : world)
    : option error * world :=
  let bigThumbPath := bigThumbPathOf thumbsPath photoPath in
  let smallThumbPath := smallThumbPathOf thumbsPath photoPath in
  let big := generateThumb photoPath bigThumbPath bigThumbSize false w in
  let smallThumbPhotoPath :=
    match fst big with
    | None => bigThumbPath
    | Some _ => photoPath
    end in
  let w1 :=
    match fst big with
    | None => snd big
    | Some err => println (failed_to_create bigThumbPath photoPath err) (snd big)
    end in
  let small := generateThumb smallThumbPhotoPath smallThumbPath smallThumbSize true w1 in
  match fst small with
  | None => (None, snd small)
  | Some err => (Some err, println (failed_to_create smallThumbPath photoPath err) (snd small))
  end.

(** One worker of [Generate], on the paths it receives from the channel:
    [for photoPath := range ch { generateThumbs(photoPath); bar.Increment() }] *)
Definition worker_step (thumbsPath : string) (w : world) (photoPath : string) : world :=
  increment (snd (generateThumbs thumbsPath photoPath w)).

Definition worker (thumbsPath : string) (photoPaths : list string) (w : world) : world :=
  fold_left (worker_step thumbsPath) photoPaths w.

End Cache.

End Thumbs.

(** ** Package [photos]: decoding a file *)

Module Files.
Import Photos.

(** What a call leaves behind: its results, or a run-time panic.
    Nothing in the package recovers from a panic, so one in [decodeExif]
    unwinds through [decode], [walkPath] and [Scan] and ends the
    process. *)
Inductive outcome (A : Type) : Type :=
| Returns (a : A)
| Panics.
Arguments Returns {A} a.
Arguments Panics {A}.

#[global] Instance outcome_ret : MRet outcome := @Returns.

#[global] Instance outcome_bind : MBind outcome := fun A B f o =>
  match o with
  | Returns a => f a
  | Panics => Panics
  end.

(** What [decodeExif] reads from a [*exif.Exif]: the outcome of each
    accessor it calls, [None] where the accessor returns an error.  A
    value whose conversion error the source drops ([Int(0)],
    [StringVal()], [Int64(0)]) is the value the conversion returns;
    [x_DateTime] is the time as [UTC().Format("2006-01-02 15:04:05")]
    prints it.  For a tag read with [Rat(0)] the value is what
    [Float64()] makes of the rational, and [Some None] stands for a tag
    that [Rat(0)] does not turn into a rational: it returns nil beside
    the error that the source drops (the tag is of another type), or it
    panics itself (a zero denominator). *)
Record Exif := mkExif {
  x_DateTime : option string;
  x_LatLong : option (float64 * float64);
  x_Orientation : option Z;
  x_Make : option string;
  x_Model : option string;
  x_LensMake : option string;
  x_LensModel : option string;
  x_FocalLength : option (option float64);
  x_FocalLengthIn35mmFilm : option Z;
  x_FNumber : option (option float64);
  x_ExposureTime : option (option float64);
  x_ISOSpeedRatings : option Z;
  x_ExposureBiasValue : option Z;
  x_Flash : option string
}.

(** Assignments to the fields of a [Photo]. *)
Definition set_TakenAt (v : option string) (p : Photo) : Photo :=
  mkPhoto (Aperture p) (Camera p) (ExposureComp p) (ExposureTime p) (Flash p)
          (FocalLength p) (FocalLength35 p) (Height p) (ISO p) (Lat p)
          (Lens p) (Lng p) (Path p) (Size p) v (Width p).

Definition set_LatLng (lat lng : option float64) (p : Photo) : Photo :=
  mkPhoto (Aperture p) (Camera p) (ExposureComp p) (ExposureTime p) (Flash p)
          (FocalLength p) (FocalLength35 p) (Height p) (ISO p) lat
          (Lens p) lng (Path p) (Size p) (TakenAt p) (Width p).

Definition set_WidthHeight (w h : Z) (p : Photo) : Photo :=
  mkPhoto (Aperture p) (Camera p) (ExposureComp p) (ExposureTime p) (Flash p)
          (FocalLength p) (FocalLength35 p) h (ISO p) (Lat p)
          (Lens p) (Lng p) (Path p) (Size p) (TakenAt p) w.

Definition set_Camera (v : option string) (p : Photo) : Photo :=
  mkPhoto (Aperture p) v (ExposureComp p) (ExposureTime p) (Flash p)
          (FocalLength p) (FocalLength35 p) (Height p) (ISO p) (Lat p)
          (Lens p) (Lng p) (Path p) (Size p) (TakenAt p) (Width p).

Definition set_Lens (v : option string) (p : Photo) : Photo :=
  mkPhoto (Aperture p) (Camera p) (ExposureComp p) (ExposureTime p) (Flash p)
          (FocalLength p) (FocalLength35 p) (Height p) (ISO p) (Lat p)
          v (Lng p) (Path p) (Size p) (TakenAt p) (Width p).

Definition set_FocalLength (v : option float64) (p : Photo) : Photo :=
  mkPhoto (Aperture p) (Camera p) (ExposureComp p) (ExposureTime p) (Flash p)
          v (FocalLength35 p) (Height p) (ISO p) (Lat p)
          (Lens p) (Lng p) (Path p) (Size p) (TakenAt p) (Width p).

Definition set_FocalLength35 (v : option Z) (p : Photo) : Photo :=
  mkPhoto (Aperture p) (Camera p) (ExposureComp p) (ExposureTime p) (Flash p)
          (FocalLength p) v (Height p) (ISO p) (Lat p)
          (Lens p) (Lng p) (Path p) (Size p) (TakenAt p) (Width p).

Definition set_Aperture (v : option float64) (p : Photo) : Photo :=
  mkPhoto v (Camera p) (ExposureComp p) (ExposureTime p) (Flash p)
          (FocalLength p) (FocalLength35 p) (Height p) (ISO p) (Lat p)
          (Lens p) (Lng p) (Path p) (Size p) (TakenAt p) (Width p).

Definition set_ExposureTime (v : option float64) (p : Photo) : Photo :=
  mkPhoto (Aperture p) (Camera p) (ExposureComp p) v (Flash p)
          (FocalLength p) (FocalLength35 p) (Height p) (ISO p) (Lat p)
          (Lens p) (Lng p) (Path p) (Size p) (TakenAt p) (Width p).

Definition set_ISO (v : option Z) (p : Photo) : Photo :=
  mkPhoto (Aperture p) (Camera p) (ExposureComp p) (ExposureTime p) (Flash p)
          (FocalLength p) (FocalLength35 p) (Height p) v (Lat p)
          (Lens p) (Lng p) (Path p) (Size p) (TakenAt p) (Width p).

Definition set_ExposureComp (v : option Z) (p : Photo) : Photo :=
  mkPhoto (Aperture p) (Camera p) v (ExposureTime p) (Flash p)
          (FocalLength p) (FocalLength35 p) (Height p) (ISO p) (Lat p)
          (Lens p) (Lng p) (Path p) (Size p) (TakenAt p) (Width p).

Definition set_Flash (v : option string) (p : Photo) : Photo :=
  mkPhoto (Aperture p) (Camera p) (ExposureComp p) (ExposureTime p) v
          (FocalLength p) (FocalLength35 p) (Height p) (ISO p) (Lat p)
          (Lens p) (Lng p) (Path p) (Size p) (TakenAt p) (Width p).

Definition set_Size (v : Z) (p : Photo) : Photo :=
  mkPhoto (Aperture p) (Camera p) (ExposureComp p) (ExposureTime p) (Flash p)
          (FocalLength p) (FocalLength35 p) (Height p) (ISO p) (Lat p)
          (Lens p) (Lng p) (Path p) v (TakenAt p) (Width p).

(** [case 5, 6, 7, 8: // rotated] *)
Definition rotated (orient : Z) : bool :=
  (orient =? 5) || (orient =? 6) || (orient =? 7) || (orient =? 8).

(** An [if err == nil { ... }] block on the outcome of an accessor. *)
Definition when_ok {A : Type} (o : option A) (f : A -> Photo -> Photo) (p : Photo) : Photo :=
  match o with
  | Some v => f v p
  | None => p
  end.

(** [fmt.Sprint(make, " ", model)] when the make is valid, the model
    alone otherwise. *)
Definition with_model (make : option string) (model : string) : string :=
  match make with
  | Some s => s +:+ " " +:+ model
  | None => model
  end.

(** An [if err == nil { v, _ := tag.Rat(0); p.F.Float64, _ =
    v.Float64(); p.F.Valid = true }] block: [Float64()] on the nil that
    [Rat(0)] returned beside its error dereferences a nil pointer. *)
Definition when_rat (o : option (option float64)) (f : float64 -> Photo -> Photo) (p : Photo)
    : outcome Photo :=
  match o with
  | None => Returns p
  | Some None => Panics
  | Some (Some v) => Returns (f v p)
  end.

(** [func (p *Photo) decodeExif(x *exif.Exif)]: the blocks of the source
    in their order, the first applied first. *)
Definition decodeExif (x : Exif) (p : Photo) : outcome Photo :=
  let p := when_ok (x_DateTime x) (fun takenAt => set_TakenAt (Some takenAt)) p in
  let p := when_ok (x_LatLong x) (fun ll => set_LatLng (Some (fst ll)) (Some (snd ll))) p in
  let p := when_ok (x_Orientation x)
             (fun orient q => if rotated orient
                              then set_WidthHeight (Height q) (Width q) q else q) p in
  let p := when_ok (x_Make x) (fun s => set_Camera (Some s)) p in
  let p := when_ok (x_Model x)
             (fun cameraModel q => set_Camera (Some (with_model (Camera q) cameraModel)) q) p in
  let p := when_ok (x_LensMake x) (fun s => set_Lens (Some s)) p in
  let p := when_ok (x_LensModel x)
             (fun lensModel q => set_Lens (Some (with_model (Lens q) lensModel)) q) p in
  p ← when_rat (x_FocalLength x) (fun v => set_FocalLength (Some v)) p;
  let p := when_ok (x_FocalLengthIn35mmFilm x) (fun v => set_FocalLength35 (Some v)) p in
  p ← when_rat (x_FNumber x) (fun v => set_Aperture (Some v)) p;
  p ← when_rat (x_ExposureTime x) (fun v => set_ExposureTime (Some v)) p;
  let p := when_ok (x_ISOSpeedRatings x) (fun v => set_ISO (Some v)) p in
  let p := when_ok (x_ExposureBiasValue x) (fun v => set_ExposureComp (Some v)) p in
  mret (when_ok (x_Flash x) (fun flash => set_Flash (Some flash)) p).

(** The files as [decode] meets them, and the helpers of the walk. *)
Class FileEnv := {
  fs_Walk : string -> list walk_entry;
  fs_Dir : string -> string;
  fs_Base : string -> string;
  fs_Ext : string -> string;
  fs_TypeByExtension : string -> string;
  (** the error of [os.Open] *)
  os_Open : string -> option error;
  (** [f.Stat()] and [fi.Size()] *)
  f_Stat : string -> result Z;
  (** [image.DecodeConfig(f)]: width and height *)
  image_DecodeConfig : string -> result (Z * Z);
  (** [exif.Decode(f)] *)
  exif_Decode : string -> result Exif
}.

(** [&Photo{}] *)
Definition new_Photo : Photo :=
  mkPhoto None None None None None None None 0 None None None None "" 0 None 0.

Section Decode.
Context `{FileEnv}.

(** [func (p *Photo) decode(path string) error]: the error and the
    photo as the call leaves it, unless [decodeExif] panics. *)
Definition decode (path : string) (p : Photo) : outcome (option error * Photo) :=
  let p := set_Path path p in
  match os_Open path with
  | Some err => mret (Some err, p)
  | None =>
      match f_Stat path with
      | Err err => mret (Some err, p)
      | Ok size =>
          let p := set_Size size p in
          match image_DecodeConfig path with
          | Err err => mret (Some err, p)
          | Ok (w, h) =>
              let p := set_WidthHeight w h p in
              match exif_Decode path with
              | Ok x => p ← decodeExif x p; mret (None, p)
              | Err _ => mret (None, p)
              end
          end
      end
  end.

End Decode.

Section Walked.
Context `{FileEnv}.

(** No file makes [decode] panic. *)
Hypothesis never_panics : forall path, decode path new_Photo <> Panics.

(** What [photo := &Photo{}; photo.decode(path)] gives [walkPath]. *)
Definition decoded (path : string) : result Photo :=
  match decode path new_Photo as o return o <> Panics -> result Photo with
  | Returns (None, p) => fun _ => Ok p
  | Returns (Some err, _) => fun _ => Err err
  | Panics => fun no => match no eq_refl with end
  end (never_panics path).

(** The scanner over files none of which makes [decode] panic. *)
Definition scanner : ScanEnv := {|
  filepath_Walk := fs_Walk;
  filepath_Dir := fs_Dir;
  filepath_Base := fs_Base;
  filepath_Ext := fs_Ext;
  mime_TypeByExtension := fs_TypeByExtension;
  read_photo := decoded
|}.

End Walked.

End Files.

(** ** Package [thumbs]: the feed of [Generate] *)

Module Feed.
Import Photos.

(** FROM photos JOIN sets ON photos.set_id = sets.id: the photos in
    rowid order, each with the set its [set_id] is the key of; a photo
    whose set is missing yields no row. *)
Definition photos_join_sets (db : DB) : list (set_row * photo_row) :=
  omap (fun r => (fun s => (s, r)) <$> set_by_id (p_set_id r) db) (photos db).

(** ORDER BY sets.taken_at DESC, photos.taken_at ASC; under DESC the
    NULLs come last. *)
Definition feed_le (a b : set_row * photo_row) : bool :=
  negb (taken_le (s_taken_at (fst a)) (s_taken_at (fst b)))
  || (taken_le (s_taken_at (fst b)) (s_taken_at (fst a))
      && taken_le (p_taken_at (snd a)) (p_taken_at (snd b))).

(** SELECT path FROM photos JOIN sets ON photos.set_id = sets.id
    ORDER BY sets.taken_at DESC, photos.taken_at ASC *)
Definition feed_query (db : DB) : list (set_row * photo_row) :=
  order_by feed_le (photos_join_sets db).

Definition feed_rows (db : DB) : list string :=
  map (fun x => p_path (snd x)) (feed_query db).

(** SELECT COUNT( * ) FROM photos *)
Definition photosCount (db : DB) : Z := Z.of_nat (length (photos db)).

End Feed.

(** ** The server ([thyme-serve]) *)

Module Server.
Import Photos.

(** [type Set struct] *)
Record PhotoSet := mkPhotoSet {
  Id : Z;
  Name : string;
  PhotosCount : Z;
  TakenAt : option string;
  ThumbPhotoId : Z;
  ThumbPhotoPath : string
}.

(** [type Photo struct] of the server; its [Id] and [TakenAt] are
    [PhotoId] and [PhotoTakenAt] here. *)
Record Photo := mkPhoto {
  Aperture : option float64;
  Camera : option string;
  ExposureComp : option Z;
  ExposureTime : option float64;
  Flash : option string;
  FocalLength : option float64;
  FocalLength35 : option Z;
  Height : Z;
  ISO : option Z;
  PhotoId : Z;
  Lat : option float64;
  Lens : option string;
  Lng : option float64;
  NextPhotoId : option Z;
  Path : string;
  PrevPhotoId : option Z;
  SetId : Z;
  Size : Z;
  PhotoTakenAt : option string;
  Width : Z
}.

(** The outcome of [QueryRow(...)] followed by [Scan(...)]. *)
Inductive row_result (A : Type) : Type :=
| Row (a : A)
| ErrNoRows
| ScanError (e : error).
Arguments Row {A} a.
Arguments ErrNoRows {A}.
Arguments ScanError {A} e.

(** SELECT sets.id, name, photos_count, sets.taken_at, thumb_photo_id,
    photos.path FROM sets JOIN photos ON sets.thumb_photo_id = photos.id
    WHERE sets.id = ? *)
Definition getSetStmt (setId : Z) (db : DB) : list (set_row * photo_row) :=
  flat_map (fun s => map (fun r => (s, r))
                         (List.filter (fun r => is_val (thumb_photo_id s) (p_id r))
                                      (photos db)))
           (List.filter (fun s => s_id s =? setId) (sets db)).

(** SELECT aperture, ..., width FROM photos WHERE id = ? *)
Definition getPhotoStmt (photoId : Z) (db : DB) : list photo_row :=
  List.filter (fun r => p_id r =? photoId) (photos db).

(** [func scanSet(row RowScanner, set *Set) error]: the columns are
    converted in order; a NULL does not convert to an [int]. *)
Definition scanSet (row : set_row * photo_row) : row_result PhotoSet :=
  match photos_count (fst row) with
  | None => ScanError "converting NULL to int is unsupported"
  | Some photosCount =>
      match thumb_photo_id (fst row) with
      | None => ScanError "converting NULL to int is unsupported"
      | Some thumb =>
          Row (mkPhotoSet (s_id (fst row)) (s_name (fst row)) photosCount
                          (s_taken_at (fst row)) thumb (p_path (snd row)))
      end
  end.

(** [func getSetById(setId int) (set *Set, err error)] *)
Definition getSetById (setId : Z) (db : DB) : row_result PhotoSet :=
  match getSetStmt setId db with
  | [] => ErrNoRows
  | row :: _ => scanSet row
  end.

(** [func scanPhoto(row RowScanner, photo *Photo) error]; the columns
    that are read into plain integers and strings hold a value in every
    row that [insertPhotoStmt] wrote. *)
Definition scanPhoto (r : photo_row) : Photo :=
  mkPhoto (Photos.Aperture (p_cols r)) (Photos.Camera (p_cols r))
          (Photos.ExposureComp (p_cols r)) (Photos.ExposureTime (p_cols r))
          (Photos.Flash (p_cols r)) (Photos.FocalLength (p_cols r))
          (Photos.FocalLength35 (p_cols r)) (Photos.Height (p_cols r))
          (Photos.ISO (p_cols r)) (p_id r) (Photos.Lat (p_cols r))
          (Photos.Lens (p_cols r)) (Photos.Lng (p_cols r)) (next_photo_id r)
          (p_path r) (prev_photo_id r) (p_set_id r) (Photos.Size (p_cols r))
          (p_taken_at r) (Photos.Width (p_cols r)).

(** [func getPhotoById(photoId int) (photo *Photo, err error)] *)
Definition getPhotoById (photoId : Z) (db : DB) : row_result Photo :=
  match getPhotoStmt photoId db with
  | [] => ErrNoRows
  | r :: _ => Row (scanPhoto r)
  end.

Class HttpEnv := {
  strconv_Atoi : string -> option Z
}.

(** What a handler leaves in the response, or the exit of the process
    under [log.Fatalln]. *)
Inductive response : Type :=
| BadRequest
| NotFound
| InternalServerError
| OkSet (set : PhotoSet)
| OkPhoto (photo : Photo)
| Fatal.

(** [func requireParam(param string, w http.ResponseWriter, r
    *http.Request) error]; [query] is [r.URL.Query()]. *)
Definition requireParam (param : string) (query : string -> list string) : option error :=
  if Nat.eqb (length (query param)) 0
  then Some ("missing " +:+ param +:+ " parameter")
  else None.

Section Handlers.
Context `{HttpEnv}.

(** [func getSetHandler(w http.ResponseWriter, r *http.Request)] *)
Definition getSetHandler (query : string -> list string) (db : DB) : response :=
  match requireParam "id" query with
  | Some _ => BadRequest
  | None =>
      match strconv_Atoi (List.hd "" (query "id")) with
      | None => Fatal
      | Some setId =>
          match getSetById setId db with
          | ErrNoRows => NotFound
          | ScanError _ => InternalServerError
          | Row set => OkSet set
          end
      end
  end.

(** [func getPhotoHandler(w http.ResponseWriter, r *http.Request)] *)
Definition getPhotoHandler (query : string -> list string) (db : DB) : response :=
  match requireParam "id" query with
  | Some _ => BadRequest
  | None =>
      match strconv_Atoi (List.hd "" (query "id")) with
      | None => Fatal
      | Some photoId =>
          match getPhotoById photoId db with
          | ErrNoRows => NotFound
          | ScanError _ => InternalServerError
          | Row photo => OkPhoto photo
          end
      end
  end.

End Handlers.

Section Thumbs.
Context `{Thumbs.ThumbEnv}.

(** [func thumbURL(photoPath, suffix string) string] *)
Definition thumbURL (photoPath suffix : string) : string :=
  "/thumbs/" +:+ Thumbs.md5_hex photoPath +:+ "_" +:+ suffix +:+ ".jpg".

(** [func (s *Set) ThumbURL() string] *)
Definition ThumbURL (s : PhotoSet) : string := thumbURL (ThumbPhotoPath s) "small".

End Thumbs.

(** [func (p *Photo) AspectRatio() [2]int64]; [None] is the run-time
    panic of the integer division by a zero [gcd].  [big.Int.GCD] of two
    positive numbers is their greatest common divisor, and 0 when both
    are 0; [/] truncates. *)
Definition AspectRatio (p : Photo) : option (Z * Z) :=
  let gcd := Z.gcd (Width p) (Height p) in
  if gcd =? 0 then None else Some (Z.quot (Width p) gcd, Z.quot (Height p) gcd).

End Server.

(** * The terms of the statements

    Everything below this point is about the two packages above: first
    the vocabulary of the statements and the example stores, then the
    proofs. *)

Section ScannerTerms.
Import Photos.
Context `{ScanEnv}.

Definition has_set (name : string) (db : DB) : bool :=
  existsb (fun s => String.eqb (s_name s) name) (sets db).

Definition has_photo (path : string) (db : DB) : bool :=
  existsb (fun r => String.eqb (p_path r) path) (photos db).

(** The set a photo is filed under: the one [selectSetStmt] finds, else
    the one [insertSetStmt] creates. *)
Definition set_id_for (name : string) (db : DB) : Z :=
  match selectSetStmt name db with
  | Some i => i
  | None => next_rowid (map s_id (sets db))
  end.

(** An entry of the walk is known to a store when [walkPath] has nothing
    left to add for it. *)
Definition entry_known (e : walk_entry) (db : DB) : bool :=
  match w_err e with
  | Some _ => true
  | None =>
      if negb (isPhoto (w_path e) (w_is_dir e)) then true
      else
        match decode (w_path e) with
        | Ok photo => has_set (set_name_of photo) db && has_photo (Path photo) db
        | Err _ => true
        end
  end.

Definition walk_entries (es : list walk_entry) (db : DB) : DB :=
  fold_left (fun db e => walkPath e db) es db.

End ScannerTerms.

Section FrameTerms.
Import Photos.

(** What the sibling phase may do to a row: key, set and photo columns
    stay, and a link either stays or becomes one of [ids]. *)
Definition link_kept (ids : list Z) (o o' : option Z) : Prop :=
  o' = o \/ exists v, In v ids /\ o' = Some v.

Definition row_kept (ids : list Z) (r r' : photo_row) : Prop :=
  p_id r' = p_id r /\ p_set_id r' = p_set_id r /\ p_cols r' = p_cols r
  /\ link_kept ids (prev_photo_id r) (prev_photo_id r')
  /\ link_kept ids (next_photo_id r) (next_photo_id r').

Definition db_kept (ids : list Z) (db db' : DB) : Prop :=
  sets db' = sets db /\ Forall2 (row_kept ids) (photos db) (photos db').

End FrameTerms.

Section OrderTerms.
Context {A : Type} (le : A -> A -> bool).

Definition le_prop (a b : A) : Prop := le a b = true.

End OrderTerms.

Section SiblingTerms.
Import Photos.

Definition prev_of (db : DB) (x : Z) : option Z := photo_by_id x db ≫= prev_photo_id.

Definition next_of (db : DB) (x : Z) : option Z := photo_by_id x db ≫= next_photo_id.

Definition upd (f : Z -> option Z) (k v : Z) : Z -> option Z :=
  fun x => if x =? k then Some v else f x.

(** The links the loop means to write, as maps from photo id to link. *)
Fixpoint abs_prev (rows : list (Z * Z)) (prevId prevSetId : Z) (P : Z -> option Z)
    : Z -> option Z :=
  match rows with
  | [] => P
  | (id, setId) :: rest =>
      abs_prev rest id setId
        (if (setId =? prevSetId) && (0 <? prevId) then upd P id prevId else P)
  end.

Fixpoint abs_next (rows : list (Z * Z)) (prevId prevSetId : Z) (N : Z -> option Z)
    : Z -> option Z :=
  match rows with
  | [] => N
  | (id, setId) :: rest =>
      abs_next rest id setId
        (if (setId =? prevSetId) && (0 <? prevId) then upd N prevId id else N)
  end.

(** The effect of one UPDATE that meets no conflict. *)
Definition put_prev (v id : Z) (r : photo_row) : photo_row :=
  if p_id r =? id then set_prev (Some v) r else r.

Definition put_next (v id : Z) (r : photo_row) : photo_row :=
  if p_id r =? id then set_next (Some v) r else r.

End SiblingTerms.

Section ChainTerms.
Import Photos.

(** [linked N P before l]: along [l] every photo points forward to the
    one after it and back to the one before it; the first points back to
    [before] and the last points forward to nothing. *)
Fixpoint linked (N P : Z -> option Z) (before : option Z) (l : list Z) : Prop :=
  match l with
  | [] => True
  | x :: tl => P x = before /\ N x = head tl /\ linked N P (Some x) tl
  end.

End ChainTerms.

Section ReadingTerms.
Import Photos.

Definition row_key (r : photo_row) : Z * Z := (p_id r, p_set_id r).

(** The photos of set [k] in the order the phase reads them. *)
Definition chain_of (k : Z) (db : DB) : list photo_row :=
  List.filter (in_set k) (siblings_query db).

Definition timed_of (k : Z) (db : DB) : list photo_row :=
  List.filter has_taken_at (chain_of k db).

End ReadingTerms.

Section MinTerms.
Import Photos.

Definition ids_ascend (l : list photo_row) : Prop :=
  StronglySorted (fun a b => p_id a < p_id b) l.

(** What the accumulator [(m, c)] knows after the rows [pre]. *)
Definition min_inv (pre : list photo_row) (acc : option string * Z) : Prop :=
  (pre = [] -> fst acc = None)
  /\ (pre <> [] -> exists r, In r pre /\ p_id r = snd acc /\ p_taken_at r = fst acc)
  /\ (forall r t, In r pre -> p_taken_at r = Some t ->
        exists b, fst acc = Some b /\ String.leb b t = true
                  /\ (t = b -> snd acc <= p_id r)).

End MinTerms.

Section AggregateTerms.
Import Photos.

(** The aggregate row the query yields for group [k]. *)
Definition agg_row (db : DB) (k : Z) : Z * Z * option string :=
  (snd (group_min (photos_of k db)), k, fst (group_min (photos_of k db))).

(** The [sets] row for set [s] once its aggregates are written. *)
Definition agg_set (db : DB) (s : set_row) : set_row :=
  mkSetRow (s_id s) (Some (snd (group_min (photos_of (s_id s) db)))) (s_name s)
           (Some (photosCountStmt (s_id s) db)) (fst (group_min (photos_of (s_id s) db))).

Definition agg_keys (db : DB) (keys : list Z) (s : set_row) : set_row :=
  if existsb (Z.eqb (s_id s)) keys then agg_set db s else s.

End AggregateTerms.

Section InvariantTerms.
Import Photos.
Context `{ScanEnv}.

Definition sound (db : DB) : Prop := store_ok db = true /\ names_ok db = true.

End InvariantTerms.

Section ThumbTerms.
Import Thumbs.
Context `{ThumbEnv}.

(** The source the small thumb is made from. *)
Definition small_source (thumbsPath photoPath : string) (w : world) : string :=
  match fst (generateThumb photoPath (bigThumbPathOf thumbsPath photoPath)
                           bigThumbSize false w) with
  | None => bigThumbPathOf thumbsPath photoPath
  | Some _ => photoPath
  end.

Definition after_big (thumbsPath photoPath : string) (w : world) : world :=
  let big := generateThumb photoPath (bigThumbPathOf thumbsPath photoPath)
                           bigThumbSize false w in
  match fst big with
  | None => snd big
  | Some err => println (failed_to_create (bigThumbPathOf thumbsPath photoPath) photoPath err)
                        (snd big)
  end.

(** The two steps of [generateThumbs] for a photo: the big one on the
    world the photo is met in, the small one on the world the big one
    left. *)
Definition big_step (thumbsPath photoPath : string) (w : world) : option error * world :=
  generateThumb photoPath (bigThumbPathOf thumbsPath photoPath) bigThumbSize false w.

Definition small_step (thumbsPath photoPath : string) (w : world) : option error * world :=
  generateThumb (if fst (big_step thumbsPath photoPath w) is None
                 then bigThumbPathOf thumbsPath photoPath else photoPath)
                (smallThumbPathOf thumbsPath photoPath) smallThumbSize true
                (snd (big_step thumbsPath photoPath w)).

End ThumbTerms.

Section RunTerms.
Import Photos.
Context `{ScanEnv}.

Definition set_key (s : set_row) : Z * string := (s_id s, s_name s).

End RunTerms.

Section LinkerTerms.
Import Photos.

(** An UPDATE of the linker with the values bound to it:
    [updatePrevPhotoStmt.Exec(prevId, id)],
    [updateNextPhotoStmt.Exec(id, prevId)] and
    [updateSetStmt.Exec(photosCount, takenAt, id, setId)]. *)
Inductive update : Type :=
| SetPrev (prevId id : Z)
| SetNext (id prevId : Z)
| SetAggregates (photosCount : Z) (takenAt : option string) (id setId : Z).

Definition run_update (u : update) : DB -> result DB :=
  match u with
  | SetPrev prevId id => updatePrevPhotoStmt prevId id
  | SetNext id prevId => updateNextPhotoStmt id prevId
  | SetAggregates photosCount takenAt id setId => updateSetStmt photosCount takenAt id setId
  end.

(** The UPDATEs the sibling loop issues for the rows it reads, in the
    order of the source: two for every row that follows a row of the
    same set. *)
Fixpoint siblings_updates (rows : list (Z * Z)) (prevId prevSetId : Z) : list update :=
  match rows with
  | [] => []
  | (id, setId) :: rest =>
      (if (setId =? prevSetId) && (0 <? prevId)
       then [SetPrev prevId id; SetNext id prevId] else [])
      ++ siblings_updates rest id setId
  end.

(** The UPDATEs the aggregate loop issues: one for every row of its
    query, with the count of the photos of that set. *)
Definition sets_updates (db : DB) : list update :=
  map (fun row => SetAggregates (photosCountStmt (snd (fst row)) db) (snd row)
                                (fst (fst row)) (snd (fst row)))
      (sets_rows db).

(** Statements run one after the other with nobody looking at their
    errors: one that fails leaves the store as it found it, and the next
    one runs on the store that its predecessor left. *)
Fixpoint run_all (us : list update) (db : DB) : DB :=
  match us with
  | [] => db
  | u :: rest =>
      match run_update u db with
      | Ok db' => run_all rest db'
      | Err _ => run_all rest db
      end
  end.

(** The errors met on that way. *)
Fixpoint errors_of (us : list update) (db : DB) : list error :=
  match us with
  | [] => []
  | u :: rest =>
      match run_update u db with
      | Ok db' => errors_of rest db'
      | Err e => e :: errors_of rest db
      end
  end.

(** The order in which the sibling phase reads the photos. *)
Definition read_before (a b : photo_row) : Prop :=
  p_set_id a < p_set_id b
  \/ (p_set_id a = p_set_id b
      /\ match p_taken_at a, p_taken_at b with
         | None, _ => True
         | Some _, None => False
         | Some x, Some y => String.leb x y = true
         end).

Definition same_key (r x : photo_row) : bool := siblings_le r x && siblings_le x r.

End LinkerTerms.

Section CatalogueTerms.
Import Photos.
Context `{ScanEnv}.

(** What the catalogue records about a photo for good: key, set and the
    columns read from the file. *)
Definition photo_key (r : photo_row) : Z * Z * Photo := (p_id r, p_set_id r, p_cols r).

(** Rows a walk adds: each comes from an entry of the walk that carries
    no error, is no directory, has a JPEG extension and decodes. *)
Definition from_entry (es : list walk_entry) (r : photo_row) : Prop :=
  exists e,
    In e es /\ w_err e = None /\ w_is_dir e = false
    /\ mime_TypeByExtension (filepath_Ext (w_path e)) = "image/jpeg"
    /\ (exists photo, decode (w_path e) = Ok photo /\ p_cols r = stored photo)
    /\ p_path r = w_path e
    /\ prev_photo_id r = None /\ next_photo_id r = None.

(** A [float64] that a [decimal] column gives back as it was bound:
    anything but a NaN and the negative zero. *)
Definition plain_float (v : option float64) : bool :=
  match v with
  | Some S754_nan => false
  | Some (S754_zero true) => false
  | _ => true
  end.

Definition plain (p : Photo) : bool :=
  plain_float (Aperture p) && plain_float (ExposureTime p) && plain_float (FocalLength p)
  && plain_float (Lat p) && plain_float (Lng p).

(** Set names and photo paths are unique. *)
Definition unique_names (db : DB) : Prop :=
  List.NoDup (map s_name (sets db)) /\ List.NoDup (map p_path (photos db)).

(** The sum of the [photos_count] column, NULL counting as nothing. *)
Definition counted (ss : list set_row) : Z :=
  fold_right Z.add 0 (map (fun s => default 0 (photos_count s)) ss).

End CatalogueTerms.

Section RelinkTerms.
Import Photos.

(** The links the sibling loop is about to write along [rows] are in
    the maps already. *)
Fixpoint written (rows : list (Z * Z)) (prevId prevSetId : Z) (P N : Z -> option Z) : Prop :=
  match rows with
  | [] => True
  | (id, setId) :: rest =>
      (if (setId =? prevSetId) && (0 <? prevId)
       then P id = Some prevId /\ N prevId = Some id else True)
      /\ written rest id setId P N
  end.

End RelinkTerms.

Section NeighbourTerms.
Import Photos.

(** [a] is read immediately before [b], and both are of one set. *)
Definition neighbours (rows : list (Z * Z)) (a b : Z) : Prop :=
  exists l1 s l2, rows = l1 ++ (a, s) :: (b, s) :: l2.

(** Every link of the store joins two photos that the sibling phase
    reads one after the other in one set. *)
Definition links_in_order (db : DB) : Prop :=
  forall r v, In r (photos db) ->
    (prev_photo_id r = Some v -> neighbours (siblings_rows db) v (p_id r))
    /\ (next_photo_id r = Some v -> neighbours (siblings_rows db) (p_id r) v).

End NeighbourTerms.

Section ClosedTerms.
Import Photos.

(** Every link names a photo of the table. *)
Definition links_closed (db : DB) : Prop :=
  forall r v, In r (photos db) ->
    prev_photo_id r = Some v \/ next_photo_id r = Some v ->
    exists q, In q (photos db) /\ p_id q = v.

End ClosedTerms.

Section FeedTerms.
Import Photos Feed.



Definition has_set_row (db : DB) (r : photo_row) : bool :=
  match set_by_id (p_set_id r) db with
  | Some _ => true
  | None => false
  end.

End FeedTerms.

Section DecodeTerms.
Import Photos Files.

(** Latitude and longitude are both NULL or both set. *)
Definition coords_paired (p : Photo) : Prop := is_Some (Lat p) <-> is_Some (Lng p).

Definition dims (p : Photo) : Z * Z := (Width p, Height p).

Definition coords (p : Photo) : option float64 * option float64 := (Lat p, Lng p).

(** A tag that [Rat(0)] does not turn into a rational. *)
Definition no_rational (o : option (option float64)) : bool :=
  match o with
  | Some None => true
  | _ => false
  end.

(** EXIF data with such a tag among the three that [decodeExif] reads
    with [Rat(0)]. *)
Definition exif_broken (x : Exif) : bool :=
  no_rational (x_FocalLength x) || no_rational (x_FNumber x)
  || no_rational (x_ExposureTime x).

(** The file opens, reports its size and has an image header. *)
Definition readable `{FileEnv} (path : string) : Prop :=
  os_Open path = None
  /\ (exists size, f_Stat path = Ok size)
  /\ (exists wh, image_DecodeConfig path = Ok wh).

(** Neither coordinate of a position is a NaN. *)
Definition no_nan (ll : float64 * float64) : Prop :=
  fst ll <> S754_nan /\ snd ll <> S754_nan.

End DecodeTerms.

(** ** Example trees, stores and tools *)

Module Examples.
Import Photos.

Definition shot (path : string) (taken : option string) : Photo :=
  mkPhoto None None None None None None None 3000 None None None None
          path 2048 taken 4000.

(** A path cut at its last slash. *)
Fixpoint cut_last_slash (s : string) : option (string * string) :=
  match s with
  | EmptyString => None
  | String c rest =>
      match cut_last_slash rest with
      | Some (d, b) => Some (String c d, b)
      | None => if Ascii.eqb c "/"%char then Some (EmptyString, rest) else None
      end
  end.

Definition dir_of (s : string) : string :=
  match cut_last_slash s with
  | Some (d, _) => d
  | None => "."
  end.

Definition base_of (s : string) : string :=
  match cut_last_slash s with
  | Some (_, b) => b
  | None => s
  end.

(** A file tree: one directory [/pics/vacation] holding the given JPEG
    files, each with the capture time its EXIF data gives. *)
Definition tree (files : list (string * option string)) : ScanEnv := {|
  filepath_Walk := fun root =>
    mkWalkEntry root true None
    :: mkWalkEntry "/pics/vacation" true None
    :: map (fun f => mkWalkEntry (fst f) false None) files;
  filepath_Dir := dir_of;
  filepath_Base := base_of;
  filepath_Ext := fun _ => ".jpg";
  mime_TypeByExtension := fun e => if String.eqb e ".jpg" then "image/jpeg" else "";
  read_photo := fun path =>
    match List.find (fun f => String.eqb (fst f) path) files with
    | Some f => Ok (shot "" (snd f))
    | None => Err "open: no such file or directory"
    end
|}.

Definition a_jpg : string := "/pics/vacation/a.jpg".

Definition b_jpg : string := "/pics/vacation/b.jpg".

Definition c_jpg : string := "/pics/vacation/c.jpg".

Definition n_jpg : string := "/pics/vacation/n.jpg".

Definition T1 : string := "2020-01-01 10:00:01".

Definition T2 : string := "2020-01-01 10:00:02".

Definition T3 : string := "2020-01-01 10:00:03".

(** First run over two photos, then a walk after a third one, taken
    between them, was added: the store the linker meets on the second
    run. *)
Definition db_first : DB :=
  @Scan (tree [(a_jpg, Some T1); (c_jpg, Some T3)]) ["/pics"] empty_db.

Definition db_grown : DB :=
  @walk_all (tree [(a_jpg, Some T1); (b_jpg, Some T2); (c_jpg, Some T3)]) ["/pics"] db_first.

(** A first walk over two dated photos and one without a capture time. *)
Definition db_untimed : DB :=
  @walk_all (tree [(a_jpg, Some T1); (c_jpg, Some T3); (n_jpg, None)]) ["/pics"] empty_db.

End Examples.

Module ThumbExamples.
Import Thumbs.

(** A stand-in for the resizing tool: it copies the source, when there is
    one, to the path given after [--output] (without the 25 characters of
    save options), and fails otherwise. *)
Definition copy_tool (args : list string) (fs : gmap string string)
    : option error * gmap string string :=
  match args with
  | src :: _ :: _ :: _ :: _ :: _ :: _ :: out :: _ =>
      match fs !! src with
      | Some img => (None, <[String.substring 0 (String.length out - 25) out := img]> fs)
      | None => (Some "exit status 1", fs)
      end
  | _ => (Some "exit status 2", fs)
  end.

Definition studio : ThumbEnv := {|
  md5_hex := fun s => pretty (Z.of_nat (String.length s));
  path_Join := fun a b => a +:+ "/" +:+ b;
  vipsthumbnail := copy_tool
|}.

Definition disk : world := mkWorld {[ Examples.a_jpg := "raw" ]} [] [] 0.

End ThumbExamples.

Section ClaimTerms.
Import Photos Examples.

(** C2 as the specification words it. *)
Definition chain_claim (db : DB) (k : Z) : Prop :=
  let db' := snd (updatePhotoSiblings db) in
  let timed := List.filter has_taken_at (photos_of k db) in
  (2 <= length timed)%nat ->
  exists seq first lst fuel,
    Permutation seq timed
    /\ StronglySorted (fun a b => taken_le (p_taken_at a) (p_taken_at b) = true) seq
    /\ head seq = Some first /\ last seq = Some lst
    /\ follow next_photo_id db' fuel (p_id first) = Some (map p_id seq)
    /\ follow prev_photo_id db' fuel (p_id lst) = Some (rev (map p_id seq)).

(** C3 as the specification words it, for the sibling phase. *)
Definition abort_claim (db : DB) : Prop :=
  failures (siblings_tx db) <> [] ->
  fst (updatePhotoSiblings db) <> None /\ snd (updatePhotoSiblings db) = db.

(** C7 as the specification words it: NULL after every capture time. *)
Definition taken_le_nulls_last (a b : option string) : bool :=
  match a, b with
  | _, None => true
  | None, Some _ => false
  | Some x, Some y => String.leb x y
  end.

Definition claimed_le (a b : photo_row) : bool :=
  (p_set_id a <? p_set_id b)
  || ((p_set_id a =? p_set_id b) && taken_le_nulls_last (p_taken_at a) (p_taken_at b)).

(** The row of the set on [db_untimed] after the aggregate phase. *)
Definition vacation : set_row := mkSetRow 1 (Some 1) "vacation" (Some 3) (Some T1).

End ClaimTerms.

Module FileExamples.
Import Photos Files Examples.

(** A camera file: 4000 by 3000 pixels on the sensor, held upright
    (orientation 6), with make, model and a position. *)
Definition upright : Exif :=
  mkExif (Some T1) (Some (S754_zero false, S754_zero false)) (Some 6)
         (Some "ACME") (Some "One") None None None None None None None None None.

Definition camera_card : FileEnv := {|
  fs_Walk := fun root => [mkWalkEntry a_jpg false None; mkWalkEntry b_jpg false None];
  fs_Dir := dir_of;
  fs_Base := base_of;
  fs_Ext := fun _ => ".jpg";
  fs_TypeByExtension := fun e => if String.eqb e ".jpg" then "image/jpeg" else "";
  os_Open := fun _ => None;
  f_Stat := fun _ => Ok 2048;
  image_DecodeConfig := fun _ => Ok (4000, 3000);
  exif_Decode := fun path =>
    if String.eqb path a_jpg then Ok upright else Err "exif: failed to find exif intro marker"
|}.

End FileExamples.

Module ServerExamples.
Import Server.

(** Decimal digits only. *)
Definition digits : HttpEnv := {|
  strconv_Atoi := fun s =>
    if String.eqb s "1" then Some 1 else if String.eqb s "2" then Some 2 else None
|}.

Definition ask (v : string) : string -> list string :=
  fun param => if String.eqb param "id" then [v] else [].

End ServerExamples.

Module Albums.
Import Photos Examples.

(** The tree behind [db_untimed]. *)
Definition album : ScanEnv := tree [(a_jpg, Some T1); (c_jpg, Some T3); (n_jpg, None)].

(** The row of [c.jpg] once the sibling phase has run on [db_untimed]. *)
Definition linked_c : photo_row := mkPhotoRow 2 1 (Some 1) None (shot c_jpg (Some T3)).

(** [a.jpg] as the server reads it. *)
Definition served_a : Server.Photo :=
  Server.mkPhoto None None None None None None None 3000 None 1 None None None (Some 2)
                 a_jpg (Some 3) 1 2048 (Some T1) 4000.

End Albums.

Module Positions.
Import Photos Examples.

(** A photo as [decode] can leave it: the position read from its EXIF
    data has a NaN for the latitude beside the longitude -0. *)
Definition adrift : Photo :=
  mkPhoto None None None None None None None 3000 None (Some S754_nan) None
          (Some (S754_zero true)) a_jpg 2048 (Some T1) 4000.

End Positions.

Module Twins.
Import Photos Examples.

(** Two directories called [vacation] under different parents. *)
Definition north : string := "/north/vacation/a.jpg".

Definition south : string := "/south/vacation/a.jpg".

End Twins.

Module GrownAlbums.
Import Photos Examples.

Definition d_jpg : string := "/pics/vacation/d.jpg".

Definition T4 : string := "2020-01-01 10:00:04".

(** The store of [db_first] after a walk that found a third photo,
    taken after the two that are linked already. *)
Definition db_later : DB :=
  @walk_all (tree [(a_jpg, Some T1); (c_jpg, Some T3); (d_jpg, Some T4)]) ["/pics"] db_first.

(** The store of [db_first] after a walk that found two more photos:
    one taken after the two that are linked already, and one without a
    capture time. *)
Definition db_mixed : DB :=
  @walk_all (tree [(a_jpg, Some T1); (c_jpg, Some T3); (d_jpg, Some T4); (n_jpg, None)])
            ["/pics"] db_first.

End GrownAlbums.

Module Caches.
Import Thumbs ThumbExamples.

(** A disk that holds both thumbs of [a.jpg] under [/t]. *)
Definition cached : world :=
  mkWorld {[ "/t/20_big.jpg" := "big"; "/t/20_small.jpg" := "small" ]} [] [] 0.

End Caches.

(** * Properties of the scanner *)

Section ScannerFacts.
Import Photos.
Context `{ScanEnv}.

Lemma find_none_existsb {A : Type} (f : A -> bool) (l : list A) :
  List.find f l = None <-> existsb f l = false.
Proof.
  induction l as [|x l IH]; simpl; [tauto|].
  destruct (f x); simpl; [split; discriminate | exact IH].
Qed.

Lemma selectSet_none name db : selectSetStmt name db = None <-> has_set name db = false.
Proof.
  unfold selectSetStmt, has_set. rewrite <- find_none_existsb.
  destruct (List.find _ _); simpl; split; congruence.
Qed.

Lemma selectPhoto_none path db : selectPhotoStmt path db = None <-> has_photo path db = false.
Proof.
  unfold selectPhotoStmt, has_photo. rewrite <- find_none_existsb.
  destruct (List.find _ _); simpl; split; congruence.
Qed.

Lemma selectSet_some name db : has_set name db = true -> exists i, selectSetStmt name db = Some i.
Proof.
  intros Hs. destruct (selectSetStmt name db) as [i|] eqn:E; [eauto|].
  apply selectSet_none in E. congruence.
Qed.

Lemma selectPhoto_some path db :
  has_photo path db = true -> exists i, selectPhotoStmt path db = Some i.
Proof.
  intros Hs. destruct (selectPhotoStmt path db) as [i|] eqn:E; [eauto|].
  apply selectPhoto_none in E. congruence.
Qed.

(** What [store] does to each table: it never fails, and it appends a row
    only for a name or a path that is not there yet. *)
Lemma store_eq p db :
  store p db =
  (None,
   mkDB (if has_set (set_name_of p) db then sets db
         else sets db ++ [mkSetRow (next_rowid (map s_id (sets db))) None
                                   (set_name_of p) None None])
        (if has_photo (Path p) db then photos db
         else photos db ++ [mkPhotoRow (next_rowid (map p_id (photos db)))
                                       (set_id_for (set_name_of p) db) None None
                                       (stored p)])).
Proof.
  unfold store, set_id_for.
  destruct (has_set (set_name_of p) db) eqn:Hs.
  - destruct (selectSet_some _ _ Hs) as [i ->].
    destruct (has_photo (Path p) db) eqn:Hp.
    + destruct (selectPhoto_some _ _ Hp) as [j ->]. by destruct db.
    + rewrite (proj2 (selectPhoto_none _ _) Hp).
      unfold insertPhotoStmt. fold (has_photo (Path p) db). by rewrite Hp.
  - rewrite (proj2 (selectSet_none _ _) Hs).
    unfold insertSetStmt. fold (has_set (set_name_of p) db). rewrite Hs.
    set (db1 := mkDB _ _).
    assert (Hsame : has_photo (Path p) db1 = has_photo (Path p) db) by reflexivity.
    destruct (has_photo (Path p) db) eqn:Hp.
    + destruct (selectPhoto_some _ _ Hsame) as [j ->]. reflexivity.
    + rewrite (proj2 (selectPhoto_none _ _) Hsame).
      unfold insertPhotoStmt. fold (has_photo (Path p) db1). by rewrite Hsame.
Qed.

Lemma store_known p db :
  has_set (set_name_of p) db = true -> has_photo (Path p) db = true ->
  store p db = (None, db).
Proof.
  intros Hs Hp. rewrite store_eq, Hs, Hp. by destruct db.
Qed.

Lemma has_photo_app x ss rows row :
  has_photo x (mkDB ss (rows ++ [row])) =
  has_photo x (mkDB ss rows) || String.eqb (p_path row) x.
Proof. unfold has_photo. simpl. rewrite existsb_app. simpl. by rewrite orb_false_r. Qed.

Lemma store_has p db :
  has_set (set_name_of p) (snd (store p db)) = true
  /\ has_photo (Path p) (snd (store p db)) = true.
Proof.
  rewrite store_eq. simpl. split.
  - destruct (has_set (set_name_of p) db) eqn:Hs; [exact Hs|].
    unfold has_set. simpl. rewrite existsb_app. simpl.
    rewrite String.eqb_refl. by rewrite orb_true_r.
  - destruct (has_photo (Path p) db) eqn:Hp; [exact Hp|].
    rewrite has_photo_app. unfold p_path. simpl.
    rewrite String.eqb_refl. by rewrite orb_true_r.
Qed.

Lemma store_keeps p db :
  (forall n, has_set n db = true -> has_set n (snd (store p db)) = true)
  /\ (forall x, has_photo x db = true -> has_photo x (snd (store p db)) = true).
Proof.
  rewrite store_eq. simpl. split.
  - intros n Hn. destruct (has_set (set_name_of p) db); [exact Hn|].
    unfold has_set in *. simpl. by rewrite existsb_app, Hn.
  - intros x Hx. destruct (has_photo (Path p) db); [exact Hx|].
    rewrite has_photo_app. unfold has_photo in *. simpl. by rewrite Hx.
Qed.

Lemma walkPath_known e db : entry_known e (walkPath e db) = true.
Proof.
  unfold entry_known, walkPath. destruct (w_err e); [reflexivity|].
  destruct (negb _); [reflexivity|].
  destruct (decode _) as [p|]; [|reflexivity].
  destruct (store_has p db) as [-> ->]. reflexivity.
Qed.

Lemma walkPath_keeps e e' db :
  entry_known e db = true -> entry_known e (walkPath e' db) = true.
Proof.
  unfold entry_known at 1 2. destruct (w_err e); [reflexivity|].
  destruct (negb _); [reflexivity|].
  destruct (decode (w_path e)) as [p|]; [|reflexivity].
  intros [Hs Hp]%andb_true_iff.
  unfold walkPath. destruct (w_err e'); [by rewrite Hs, Hp|].
  destruct (negb _); [by rewrite Hs, Hp|].
  destruct (decode (w_path e')) as [q|]; [|by rewrite Hs, Hp].
  destruct (store_keeps q db) as [Ks Kp]. by rewrite Ks, Kp.
Qed.

Lemma walkPath_noop e db : entry_known e db = true -> walkPath e db = db.
Proof.
  unfold entry_known, walkPath. destruct (w_err e); [reflexivity|].
  destruct (negb _); [reflexivity|].
  destruct (decode _) as [p|]; [|reflexivity].
  intros [Hs Hp]%andb_true_iff. by rewrite store_known.
Qed.

Lemma walk_all_flat paths db :
  walk_all paths db = walk_entries (concat (map filepath_Walk paths)) db.
Proof.
  unfold walk_all, walk_entries. revert db.
  induction paths as [|r paths IH]; intros db; simpl; [reflexivity|].
  by rewrite fold_left_app, IH.
Qed.

Lemma walk_entries_keeps e es db :
  entry_known e db = true -> entry_known e (walk_entries es db) = true.
Proof.
  revert db. induction es as [|x es IH]; intros db Hk; simpl; [exact Hk|].
  apply IH. by apply walkPath_keeps.
Qed.

Lemma walk_entries_known es db :
  forallb (fun e => entry_known e (walk_entries es db)) es = true.
Proof.
  revert db. induction es as [|x es IH]; intros db; simpl; [reflexivity|].
  rewrite IH, andb_true_r. apply walk_entries_keeps, walkPath_known.
Qed.

Lemma walk_entries_noop es db :
  forallb (fun e => entry_known e db) es = true -> walk_entries es db = db.
Proof.
  induction es as [|x es IH]; simpl; [reflexivity|].
  intros [Hx Hes]%andb_true_iff. rewrite walkPath_noop by exact Hx. by apply IH.
Qed.

End ScannerFacts.

(** * Frame of the linker *)

Section LinkerFrame.
Import Photos.

Lemma link_kept_refl ids o : link_kept ids o o.
Proof. by left. Qed.

Lemma link_kept_trans ids a b c :
  link_kept ids a b -> link_kept ids b c -> link_kept ids a c.
Proof.
  intros [->|(v & Hv & ->)] [->|(u & Hu & ->)]; unfold link_kept; eauto.
Qed.

Lemma row_kept_refl ids r : row_kept ids r r.
Proof. repeat split; apply link_kept_refl. Qed.

Lemma row_kept_trans ids a b c :
  row_kept ids a b -> row_kept ids b c -> row_kept ids a c.
Proof.
  intros (A1 & A2 & A3 & A4 & A5) (B1 & B2 & B3 & B4 & B5).
  repeat split; try congruence; eapply link_kept_trans; eauto.
Qed.

Lemma db_kept_refl ids db : db_kept ids db db.
Proof.
  split; [reflexivity|]. induction (photos db); constructor; auto using row_kept_refl.
Qed.

Lemma Forall2_row_kept_trans ids l1 l2 l3 :
  Forall2 (row_kept ids) l1 l2 -> Forall2 (row_kept ids) l2 l3 ->
  Forall2 (row_kept ids) l1 l3.
Proof.
  intros H12. revert l3. induction H12; intros l3 H23; inversion H23; subst;
    constructor; eauto using row_kept_trans.
Qed.

Lemma db_kept_trans ids a b c : db_kept ids a b -> db_kept ids b c -> db_kept ids a c.
Proof.
  intros [A1 A2] [B1 B2]. split; [congruence|].
  eapply Forall2_row_kept_trans; eauto.
Qed.

Lemma updatePrevPhoto_kept ids v id db db' :
  In v ids -> updatePrevPhotoStmt v id db = Ok db' -> db_kept ids db db'.
Proof.
  intros Hv. unfold updatePrevPhotoStmt. destruct (unique_conflict _ _ _ _ _); [discriminate|].
  intros [= <-]. split; [reflexivity|]. simpl.
  induction (photos db) as [|r l IH]; simpl; constructor; [|exact IH].
  destruct (p_id r =? id); [|apply row_kept_refl].
  repeat split; simpl; [right; eauto | apply link_kept_refl].
Qed.

Lemma updateNextPhoto_kept ids v id db db' :
  In v ids -> updateNextPhotoStmt v id db = Ok db' -> db_kept ids db db'.
Proof.
  intros Hv. unfold updateNextPhotoStmt. destruct (unique_conflict _ _ _ _ _); [discriminate|].
  intros [= <-]. split; [reflexivity|]. simpl.
  induction (photos db) as [|r l IH]; simpl; constructor; [|exact IH].
  destruct (p_id r =? id); [|apply row_kept_refl].
  repeat split; simpl; [apply link_kept_refl | right; eauto].
Qed.

Lemma exec_dropped_kept ids stmt t :
  (forall db', stmt (tx_db t) = Ok db' -> db_kept ids (tx_db t) db') ->
  db_kept ids (tx_db t) (tx_db (exec_dropped stmt t)).
Proof.
  intros Hs. unfold exec_dropped. destruct (stmt (tx_db t)) as [db'|e]; simpl.
  - by apply Hs.
  - apply db_kept_refl.
Qed.

Lemma siblings_loop_kept ids rows prevId prevSetId t :
  (0 < prevId -> In prevId ids) ->
  (forall x, In x rows -> In (fst x) ids) ->
  db_kept ids (tx_db t) (tx_db (siblings_loop rows prevId prevSetId t)).
Proof.
  revert prevId prevSetId t.
  induction rows as [|[id setId] rows IH]; intros prevId prevSetId t Hp Hr; simpl.
  - apply db_kept_refl.
  - assert (Hid : In id ids) by (apply (Hr (id, setId)); by left).
    eapply db_kept_trans; [|apply IH; [by intros _ | intros x Hx; apply Hr; by right]].
    destruct (setId =? prevSetId); simpl; [|apply db_kept_refl].
    destruct (0 <? prevId) eqn:Hpos; [|apply db_kept_refl].
    apply Z.ltb_lt in Hpos.
    eapply db_kept_trans.
    + apply exec_dropped_kept. intros db'. apply updatePrevPhoto_kept. auto.
    + apply exec_dropped_kept. intros db'. by apply updateNextPhoto_kept.
Qed.

End LinkerFrame.

(** * Order of timestamps *)

Section TakenOrder.
Import Photos.

Lemma string_leb_refl s : String.leb s s = true.
Proof. destruct (String.leb_total s s); assumption. Qed.

Lemma string_compare_refl s : String.compare s s = Eq.
Proof.
  assert (E := String.compare_antisym s s).
  destruct (String.compare s s); [reflexivity | discriminate | discriminate].
Qed.

Lemma string_compare_lt_trans a b c :
  String.compare a b = Lt -> String.compare b c = Lt -> String.compare a c = Lt.
Proof.
  intros H1%String_as_OT.cmp_lt H2%String_as_OT.cmp_lt.
  apply String_as_OT.cmp_lt. eapply String_as_OT.lt_trans; eauto.
Qed.

Lemma string_leb_trans a b c :
  String.leb a b = true -> String.leb b c = true -> String.leb a c = true.
Proof.
  unfold String.leb.
  destruct (String.compare a b) eqn:Hab; [|  |discriminate]; intros _;
  destruct (String.compare b c) eqn:Hbc; try discriminate; intros _.
  - apply String.compare_eq_iff in Hab, Hbc. subst. by rewrite string_compare_refl.
  - apply String.compare_eq_iff in Hab. subst. by rewrite Hbc.
  - apply String.compare_eq_iff in Hbc. subst. by rewrite Hab.
  - by rewrite (string_compare_lt_trans _ _ _ Hab Hbc).
Qed.

Lemma string_ltb_leb a b : String.ltb a b = negb (String.leb b a).
Proof.
  unfold String.ltb, String.leb. rewrite (String.compare_antisym b a).
  by destruct (String.compare a b).
Qed.

Lemma taken_le_refl a : taken_le a a = true.
Proof. destruct a; simpl; [apply string_leb_refl | reflexivity]. Qed.

Lemma taken_le_total a b : taken_le a b = true \/ taken_le b a = true.
Proof. destruct a, b; simpl; auto using String.leb_total. Qed.

Lemma taken_le_trans a b c :
  taken_le a b = true -> taken_le b c = true -> taken_le a c = true.
Proof. destruct a, b, c; simpl; try done. apply string_leb_trans. Qed.

Lemma siblings_le_total a b : siblings_le a b = true \/ siblings_le b a = true.
Proof.
  unfold siblings_le.
  destruct (Z.ltb_spec (p_set_id a) (p_set_id b)); [by left|].
  destruct (Z.ltb_spec (p_set_id b) (p_set_id a)); [by right|].
  assert (E : p_set_id a = p_set_id b) by lia. rewrite E, Z.eqb_refl. simpl.
  apply taken_le_total.
Qed.

Lemma siblings_le_spec a b :
  siblings_le a b = true <->
  p_set_id a < p_set_id b
  \/ (p_set_id a = p_set_id b /\ taken_le (p_taken_at a) (p_taken_at b) = true).
Proof.
  unfold siblings_le. rewrite orb_true_iff, andb_true_iff, Z.ltb_lt, Z.eqb_eq. tauto.
Qed.

Lemma siblings_le_trans a b c :
  siblings_le a b = true -> siblings_le b c = true -> siblings_le a c = true.
Proof.
  rewrite !siblings_le_spec. intros [H1|[H1 T1]] [H2|[H2 T2]]; try (left; lia).
  right. split; [lia|]. eapply taken_le_trans; eauto.
Qed.

End TakenOrder.

(** * The stable sort behind ORDER BY *)

Section OrderBy.
Context {A : Type} (le : A -> A -> bool).

Lemma insert_row_perm x l : Permutation (Photos.insert_row le x l) (x :: l).
Proof.
  induction l as [|y l IH]; simpl; [reflexivity|].
  destruct (le x y); [reflexivity|].
  rewrite IH. apply perm_swap.
Qed.

Lemma order_by_perm l : Permutation (Photos.order_by le l) l.
Proof.
  induction l as [|x l IH]; simpl; [reflexivity|].
  rewrite insert_row_perm. by constructor.
Qed.

Hypothesis le_total : forall a b, le a b = true \/ le b a = true.

Hypothesis le_trans : forall a b c, le a b = true -> le b c = true -> le a c = true.

Lemma insert_row_sorted x l :
  StronglySorted (le_prop le) l -> StronglySorted (le_prop le) (Photos.insert_row le x l).
Proof.
  induction 1 as [|y l Hl IH Hy]; simpl; [repeat constructor|].
  destruct (le x y) eqn:Hxy.
  - constructor; [by constructor|]. constructor; [exact Hxy|].
    eapply Forall_impl; [exact Hy|]. intros z Hz. eapply le_trans; eauto.
  - constructor; [exact IH|].
    eapply Permutation_Forall; [symmetry; apply insert_row_perm|].
    constructor; [|exact Hy].
    destruct (le_total x y) as [C|C]; [congruence | exact C].
Qed.

Lemma order_by_sorted l : StronglySorted (le_prop le) (Photos.order_by le l).
Proof.
  induction l as [|x l IH]; simpl; [constructor | by apply insert_row_sorted].
Qed.

(** Sorting and selecting commute: the rows a filter keeps come out in
    the order the sort alone would give them. *)
Lemma insert_row_filter (f : A -> bool) x l :
  StronglySorted (le_prop le) l ->
  List.filter f (Photos.insert_row le x l) =
  if f x then Photos.insert_row le x (List.filter f l) else List.filter f l.
Proof.
  induction 1 as [|y l Hl IH Hy]; simpl.
  - by destruct (f x).
  - destruct (le x y) eqn:Hxy; simpl.
    + destruct (f x), (f y) eqn:Hfy; simpl; rewrite ?Hxy; try reflexivity.
      assert (Hall : Forall (le_prop le x) (List.filter f l)).
      { apply List.Forall_forall. intros z [Hz _]%filter_In.
        eapply le_trans; [exact Hxy|]. by eapply List.Forall_forall in Hy. }
      destruct (List.filter f l) as [|z zs]; [reflexivity|]. simpl.
      apply Forall_inv in Hall. unfold le_prop in Hall. by rewrite Hall.
    + rewrite IH. destruct (f x), (f y); simpl; rewrite ?Hxy; reflexivity.
Qed.

Lemma order_by_filter (f : A -> bool) l :
  List.filter f (Photos.order_by le l) = Photos.order_by le (List.filter f l).
Proof.
  induction l as [|x l IH]; simpl; [reflexivity|].
  rewrite insert_row_filter by apply order_by_sorted.
  rewrite IH. by destruct (f x).
Qed.

(** Stability: rows that compare equal keep the order of the table. *)
Lemma insert_row_first x l :
  Forall (fun y => le x y = true) l -> Photos.insert_row le x l = x :: l.
Proof. destruct 1 as [|y l Hy _]; simpl; [reflexivity | by rewrite Hy]. Qed.

Lemma order_by_ties l :
  (forall a b, In a l -> In b l -> le a b = true) -> Photos.order_by le l = l.
Proof.
  induction l as [|x l IH]; intros Hall; simpl; [reflexivity|].
  rewrite IH by (intros; apply Hall; by right).
  apply insert_row_first, List.Forall_forall. intros y Hy. apply Hall; [by left | by right].
Qed.

Lemma order_by_stable (same : A -> bool) l :
  (forall a b, same a = true -> same b = true -> le a b = true) ->
  List.filter same (Photos.order_by le l) = List.filter same l.
Proof.
  intros Hsame. rewrite order_by_filter. apply order_by_ties.
  intros a b [_ Ha]%filter_In [_ Hb]%filter_In. by apply Hsame.
Qed.

End OrderBy.

(** * The sibling phase on a store without links *)

Section Siblings.
Import Photos.

Lemma abs_prev_ext rows : forall pid ps P P',
  (forall x, P x = P' x) -> forall x, abs_prev rows pid ps P x = abs_prev rows pid ps P' x.
Proof.
  induction rows as [|[id s] rows IH]; intros pid ps P P' HP x; simpl; [apply HP|].
  apply IH. intros y. destruct (_ && _); [|apply HP].
  unfold upd. destruct (y =? id); [reflexivity | apply HP].
Qed.

Lemma abs_next_ext rows : forall pid ps N N',
  (forall x, N x = N' x) -> forall x, abs_next rows pid ps N x = abs_next rows pid ps N' x.
Proof.
  induction rows as [|[id s] rows IH]; intros pid ps N N' HN x; simpl; [apply HN|].
  apply IH. intros y. destruct (_ && _); [|apply HN].
  unfold upd. destruct (y =? pid); [reflexivity | apply HN].
Qed.

Lemma find_key_map (f : photo_row -> photo_row) x l :
  (forall r, p_id (f r) = p_id r) ->
  List.find (fun r => p_id r =? x) (map f l) = f <$> List.find (fun r => p_id r =? x) l.
Proof.
  intros Hf. induction l as [|r l IH]; simpl; [reflexivity|].
  rewrite Hf. destruct (p_id r =? x); [reflexivity | exact IH].
Qed.

Lemma photo_by_id_key x db r : photo_by_id x db = Some r -> p_id r = x /\ In r (photos db).
Proof.
  unfold photo_by_id. intros [Hin Hk]%List.find_some. split; [lia | exact Hin].
Qed.

Lemma photo_by_id_in r db : In r (photos db) -> exists r', photo_by_id (p_id r) db = Some r'.
Proof.
  intros Hin. unfold photo_by_id.
  destruct (List.find _ _) as [r'|] eqn:E; [eauto|].
  eapply List.find_none in E; [|exact Hin]. simpl in E. lia.
Qed.

Lemma unique_conflict_other {R : Type} (key : R -> Z) (col : R -> option Z) v id rows :
  (forall r, In r rows -> key r <> id -> col r <> Some v) ->
  unique_conflict key col v id rows = false.
Proof.
  intros Hfree. unfold unique_conflict. apply andb_false_iff. right.
  apply not_true_is_false. intros (r & Hin & Hr)%existsb_exists.
  apply andb_true_iff in Hr as [Hk Hv]. apply (Hfree r Hin).
  - apply negb_true_iff in Hk. lia.
  - unfold is_val in Hv. destruct (col r); [|discriminate]. f_equal. lia.
Qed.

Lemma put_prev_id v id r : p_id (put_prev v id r) = p_id r.
Proof. unfold put_prev. by destruct (_ =? _). Qed.

Lemma put_next_id v id r : p_id (put_next v id r) = p_id r.
Proof. unfold put_next. by destruct (_ =? _). Qed.

Definition with_photos (db : DB) (f : photo_row -> photo_row) : DB :=
  mkDB (sets db) (map f (photos db)).

Lemma updatePrevPhoto_free v id db :
  (forall r, In r (photos db) -> prev_photo_id r <> Some v) ->
  updatePrevPhotoStmt v id db = Ok (with_photos db (put_prev v id)).
Proof.
  intros Hfree. unfold updatePrevPhotoStmt.
  rewrite unique_conflict_other; [reflexivity|]. intros r Hr _. by apply Hfree.
Qed.

Lemma updateNextPhoto_free v id db :
  (forall r, In r (photos db) -> next_photo_id r <> Some v) ->
  updateNextPhotoStmt v id db = Ok (with_photos db (put_next v id)).
Proof.
  intros Hfree. unfold updateNextPhotoStmt.
  rewrite unique_conflict_other; [reflexivity|]. intros r Hr _. by apply Hfree.
Qed.

Lemma with_photos_lookup f db x :
  (forall r, p_id (f r) = p_id r) ->
  photo_by_id x (with_photos db f) = f <$> photo_by_id x db.
Proof. apply find_key_map. Qed.

Lemma put_prev_links v id db x :
  is_Some (photo_by_id id db) ->
  prev_of (with_photos db (put_prev v id)) x = upd (prev_of db) id v x
  /\ next_of (with_photos db (put_prev v id)) x = next_of db x.
Proof.
  intros [r0 H0]. unfold prev_of, next_of, upd.
  rewrite with_photos_lookup by apply put_prev_id.
  destruct (photo_by_id x db) as [r|] eqn:E; simpl.
  - apply photo_by_id_key in E as [Hk _]. unfold put_prev. rewrite Hk.
    destruct (x =? id); by simpl.
  - destruct (Z.eqb_spec x id); [congruence | done].
Qed.

Lemma put_next_links v id db x :
  is_Some (photo_by_id id db) ->
  next_of (with_photos db (put_next v id)) x = upd (next_of db) id v x
  /\ prev_of (with_photos db (put_next v id)) x = prev_of db x.
Proof.
  intros [r0 H0]. unfold prev_of, next_of, upd.
  rewrite with_photos_lookup by apply put_next_id.
  destruct (photo_by_id x db) as [r|] eqn:E; simpl.
  - apply photo_by_id_key in E as [Hk _]. unfold put_next. rewrite Hk.
    destruct (x =? id); by simpl.
  - destruct (Z.eqb_spec x id); [congruence | done].
Qed.

Lemma exec_dropped_ok stmt t db' :
  stmt (tx_db t) = Ok db' -> exec_dropped stmt t = mkTx db' (tx_results t ++ [None]).
Proof. intros E. unfold exec_dropped. by rewrite E. Qed.

Lemma failures_ok t db' : failures (mkTx db' (tx_results t ++ [None])) = failures t.
Proof. unfold failures. simpl. rewrite omap_app. simpl. by rewrite app_nil_r. Qed.

(** The loop on a transaction whose store holds none of the values it is
    going to write: no statement fails, and the links are the intended
    ones. *)
Lemma siblings_loop_free rows : forall pid ps t,
  (forall x, In x (map fst rows) -> is_Some (photo_by_id x (tx_db t))) ->
  (0 < pid -> is_Some (photo_by_id pid (tx_db t))) ->
  List.NoDup (pid :: map fst rows) ->
  (forall r v, In r (photos (tx_db t)) -> prev_photo_id r = Some v ->
               ~ In v (pid :: map fst rows)) ->
  (forall r v, In r (photos (tx_db t)) -> next_photo_id r = Some v ->
               ~ In v (map fst rows)) ->
  failures (siblings_loop rows pid ps t) = failures t
  /\ sets (tx_db (siblings_loop rows pid ps t)) = sets (tx_db t)
  /\ (forall x, is_Some (photo_by_id x (tx_db (siblings_loop rows pid ps t)))
                <-> is_Some (photo_by_id x (tx_db t)))
  /\ (forall x, prev_of (tx_db (siblings_loop rows pid ps t)) x
                = abs_prev rows pid ps (prev_of (tx_db t)) x)
  /\ (forall x, next_of (tx_db (siblings_loop rows pid ps t)) x
                = abs_next rows pid ps (next_of (tx_db t)) x).
Proof.
  induction rows as [|[id s] rows IH]; intros pid ps t Hex Hpid Hnd Hprev Hnext.
  { simpl. repeat split; auto. }
  cbn [siblings_loop abs_prev abs_next].
  apply (proj1 (List.NoDup_cons_iff _ _)) in Hnd as [Hpn Hnd].
  destruct ((s =? ps) && (0 <? pid)) eqn:Hguard.
  - apply andb_true_iff in Hguard as [_ Hpos%Z.ltb_lt].
    assert (F1 : forall r, In r (photos (tx_db t)) -> prev_photo_id r <> Some pid).
    { intros r Hr E. apply (Hprev r pid Hr E). by left. }
    rewrite (exec_dropped_ok _ t _ (updatePrevPhoto_free pid id (tx_db t) F1)).
    set (db1 := with_photos (tx_db t) (put_prev pid id)).
    set (t1 := mkTx db1 _).
    assert (F2 : forall r, In r (photos (tx_db t1)) -> next_photo_id r <> Some id).
    { intros r (r0 & <- & Hr0)%in_map_iff E. apply (Hnext r0 id Hr0); [|by left].
      unfold put_prev in E. by destruct (_ =? _). }
    rewrite (exec_dropped_ok _ t1 _ (updateNextPhoto_free id pid (tx_db t1) F2)).
    change (tx_db t1) with db1.
    set (db2 := with_photos db1 (put_next id pid)).
    set (t2 := mkTx db2 _).
    assert (Hid : is_Some (photo_by_id id (tx_db t))) by (apply Hex; by left).
    assert (Hsome1 : forall x, is_Some (photo_by_id x db1) <->
                               is_Some (photo_by_id x (tx_db t))).
    { intros x. unfold db1.
      by rewrite with_photos_lookup, fmap_is_Some by apply put_prev_id. }
    assert (Hsome : forall x, is_Some (photo_by_id x db2) <->
                              is_Some (photo_by_id x (tx_db t))).
    { intros x. unfold db2.
      rewrite with_photos_lookup, fmap_is_Some by apply put_next_id. apply Hsome1. }
    assert (Hpid' : is_Some (photo_by_id pid db1)) by (apply Hsome1; auto).
    assert (Hrows2 : forall r, In r (photos db2) ->
              exists r0, In r0 (photos (tx_db t))
                         /\ r = put_next id pid (put_prev pid id r0)).
    { intros r (r1 & <- & (r0 & <- & Hr0)%in_map_iff)%in_map_iff. eauto. }
    destruct (IH id s t2) as (I1 & I2 & I3 & I4 & I5).
    + intros x Hx. apply Hsome, Hex. by right.
    + intros _. by apply Hsome.
    + exact Hnd.
    + intros r v (r0 & Hr0 & ->)%Hrows2 E Hin.
      unfold put_next, put_prev in E.
      destruct (p_id (if p_id r0 =? id then _ else _) =? pid); simpl in E;
        destruct (p_id r0 =? id); simpl in E.
      * injection E as <-. apply Hpn. exact Hin.
      * apply (Hprev r0 v Hr0 E). by right.
      * injection E as <-. apply Hpn. exact Hin.
      * apply (Hprev r0 v Hr0 E). by right.
    + intros r v (r0 & Hr0 & ->)%Hrows2 E Hin.
      apply (proj1 (List.NoDup_cons_iff _ _)) in Hnd as [Hidn _].
      unfold put_next, put_prev in E.
      destruct (p_id (if p_id r0 =? id then _ else _) =? pid); simpl in E;
        destruct (p_id r0 =? id); simpl in E.
      * injection E as <-. by apply Hidn.
      * injection E as <-. by apply Hidn.
      * apply (Hnext r0 v Hr0 E). by right.
      * apply (Hnext r0 v Hr0 E). by right.
    + split; [|split; [|split; [|split]]].
      * rewrite I1. unfold t2. rewrite failures_ok. unfold t1. by rewrite failures_ok.
      * rewrite I2. reflexivity.
      * intros x. rewrite I3. apply Hsome.
      * intros x. rewrite I4. apply abs_prev_ext. intros y.
        change (tx_db t2) with db2. unfold db2.
        destruct (put_next_links id pid db1 y Hpid') as [_ ->]. unfold db1.
        by destruct (put_prev_links pid id (tx_db t) y Hid) as [-> _].
      * intros x. rewrite I5. apply abs_next_ext. intros y.
        change (tx_db t2) with db2. unfold db2.
        destruct (put_next_links id pid db1 y Hpid') as [-> _].
        unfold upd. destruct (y =? pid); [reflexivity|]. unfold db1.
        by destruct (put_prev_links pid id (tx_db t) y Hid) as [_ ->].
  - apply (IH id s t).
    + intros x Hx. apply Hex. by right.
    + intros _. apply Hex. by left.
    + exact Hnd.
    + intros r v Hr E Hin. apply (Hprev r v Hr E). by right.
    + intros r v Hr E Hin. apply (Hnext r v Hr E). by right.
Qed.

End Siblings.

Section Chains.
Import Photos.

(** ** The intended links along the rows read *)

Lemma abs_next_frame rows : forall pid ps N x,
  x <> pid -> ~ In x (map fst rows) -> abs_next rows pid ps N x = N x.
Proof.
  induction rows as [|[id s] rows IH]; intros pid ps N x Hx Hin; simpl; [reflexivity|].
  simpl in Hin.
  rewrite IH; [|intros ->; apply Hin; by left|intros Hr; apply Hin; by right].
  destruct (_ && _); [|reflexivity]. unfold upd.
  destruct (Z.eqb_spec x pid); [contradiction | reflexivity].
Qed.

Lemma abs_prev_frame rows : forall pid ps P x,
  ~ In x (map fst rows) -> abs_prev rows pid ps P x = P x.
Proof.
  induction rows as [|[id s] rows IH]; intros pid ps P x Hin; simpl; [reflexivity|].
  simpl in Hin. rewrite IH by (intros Hr; apply Hin; by right).
  destruct (_ && _); [|reflexivity]. unfold upd.
  destruct (Z.eqb_spec x id); [|reflexivity]. subst. exfalso. apply Hin. by left.
Qed.

Lemma abs_next_link l1 : forall pid ps N a sa b sb l2,
  List.NoDup (map fst (l1 ++ (a, sa) :: (b, sb) :: l2)) -> a <> pid -> 0 < a ->
  abs_next (l1 ++ (a, sa) :: (b, sb) :: l2) pid ps N a = if sb =? sa then Some b else N a.
Proof.
  induction l1 as [|[c sc] l1 IH]; intros pid ps N a sa b sb l2 Hnd Ha Hpos.
  - simpl in Hnd. apply (proj1 (List.NoDup_cons_iff _ _)) in Hnd as [Hab Hnd].
    cbn [app abs_next]. rewrite abs_next_frame.
    + assert (E : (0 <? a) = true) by (apply Z.ltb_lt; lia). rewrite E, andb_true_r.
      destruct (sb =? sa); unfold upd.
      * by rewrite Z.eqb_refl.
      * destruct (_ && _); [|reflexivity].
        destruct (Z.eqb_spec a pid); [contradiction | reflexivity].
    + intros ->. apply Hab. by left.
    + intros Hin. apply Hab. by right.
  - simpl in Hnd. apply (proj1 (List.NoDup_cons_iff _ _)) in Hnd as [Hc Hnd].
    cbn [app abs_next]. rewrite IH; [|exact Hnd| |exact Hpos].
    + destruct (sb =? sa); [reflexivity|].
      destruct (_ && _); [|reflexivity]. unfold upd.
      destruct (Z.eqb_spec a pid); [contradiction | reflexivity].
    + intros ->. apply Hc. rewrite map_app, in_app_iff. right. by left.
Qed.

Lemma abs_next_last l1 : forall pid ps N z sz,
  List.NoDup (map fst (l1 ++ [(z, sz)])) -> z <> pid ->
  abs_next (l1 ++ [(z, sz)]) pid ps N z = N z.
Proof.
  induction l1 as [|[c sc] l1 IH]; intros pid ps N z sz Hnd Hz.
  - simpl. destruct (_ && _); [|reflexivity]. unfold upd.
    destruct (Z.eqb_spec z pid); [contradiction | reflexivity].
  - simpl in Hnd. apply (proj1 (List.NoDup_cons_iff _ _)) in Hnd as [Hc Hnd].
    cbn [app abs_next]. rewrite IH; [|exact Hnd|].
    + destruct (_ && _); [|reflexivity]. unfold upd.
      destruct (Z.eqb_spec z pid); [contradiction | reflexivity].
    + intros ->. apply Hc. rewrite map_app, in_app_iff. right. by left.
Qed.

Lemma abs_prev_link l1 : forall pid ps P a sa b sb l2,
  List.NoDup (map fst (l1 ++ (a, sa) :: (b, sb) :: l2)) -> 0 < a ->
  abs_prev (l1 ++ (a, sa) :: (b, sb) :: l2) pid ps P b = if sb =? sa then Some a else P b.
Proof.
  induction l1 as [|[c sc] l1 IH]; intros pid ps P a sa b sb l2 Hnd Hpos.
  - simpl in Hnd. apply (proj1 (List.NoDup_cons_iff _ _)) in Hnd as [Hab Hnd].
    apply (proj1 (List.NoDup_cons_iff _ _)) in Hnd as [Hb Hnd].
    cbn [app abs_prev]. rewrite abs_prev_frame by exact Hb.
    assert (E : (0 <? a) = true) by (apply Z.ltb_lt; lia). rewrite E, andb_true_r.
    destruct (sb =? sa); unfold upd.
    + by rewrite Z.eqb_refl.
    + destruct (_ && _); [|reflexivity].
      destruct (Z.eqb_spec b a); [|reflexivity]. subst. exfalso. apply Hab. by left.
  - simpl in Hnd. apply (proj1 (List.NoDup_cons_iff _ _)) in Hnd as [Hc Hnd].
    cbn [app abs_prev]. rewrite IH; [|exact Hnd|exact Hpos].
    destruct (sb =? sa); [reflexivity|].
    destruct (_ && _); [|reflexivity]. unfold upd.
    destruct (Z.eqb_spec b c); [|reflexivity]. subst. exfalso. apply Hc.
    rewrite map_app, in_app_iff. right. right. by left.
Qed.

Lemma abs_prev_first a sa l2 ps P :
  List.NoDup (map fst ((a, sa) :: l2)) ->
  abs_prev ((a, sa) :: l2) 0 ps P a = P a.
Proof.
  intros Hnd. simpl in Hnd. apply (proj1 (List.NoDup_cons_iff _ _)) in Hnd as [Ha _].
  cbn [abs_prev]. rewrite abs_prev_frame by exact Ha.
  replace (0 <? 0) with false by reflexivity. by rewrite andb_false_r.
Qed.

(** ** Chains *)

Lemma linked_app_r N P l1 : forall before l2,
  linked N P before (l1 ++ l2) -> linked N P (if last l1 is Some z then Some z else before) l2.
Proof.
  induction l1 as [|x l1 IH]; intros before l2 H; [exact H|].
  destruct H as (_ & _ & H). apply IH in H.
  destruct l1 as [|y l1]; [exact H|]. rewrite last_cons_cons.
  destruct (last (y :: l1)) eqn:E; [exact H|]. by apply last_None in E.
Qed.

Lemma linked_back N P l1 : forall before x y l2,
  linked N P before (l1 ++ x :: y :: l2) -> P y = Some x.
Proof.
  intros before x y l2 H. apply linked_app_r in H. by destruct H as (_ & _ & -> & _).
Qed.

Lemma linked_front N P l1 : forall before x l2,
  linked N P before (l1 ++ x :: l2) -> P x = if last l1 is Some z then Some z else before.
Proof. intros before x l2 H. apply linked_app_r in H. by destruct H as (-> & _). Qed.

Lemma follow_next_linked db N P l : forall before x fuel,
  (forall y, In y (x :: l) -> is_Some (photo_by_id y db)) ->
  (forall y, next_of db y = N y) ->
  linked N P before (x :: l) ->
  (length (x :: l) <= fuel)%nat ->
  follow next_photo_id db fuel x = Some (x :: l).
Proof.
  induction l as [|y l IH]; intros before x fuel Hex HN (HP & Hx & Hl) Hfuel;
    (destruct fuel as [|fuel]; [simpl in Hfuel; lia|]); simpl.
  - destruct (Hex x) as [r Hr]; [by left|]. rewrite Hr.
    specialize (HN x). unfold next_of in HN. rewrite Hr in HN. simpl in HN.
    rewrite HN, Hx. reflexivity.
  - destruct (Hex x) as [r Hr]; [by left|]. rewrite Hr.
    specialize (HN x) as HNx. unfold next_of in HNx. rewrite Hr in HNx. simpl in HNx.
    rewrite HNx, Hx. simpl.
    rewrite (IH (Some x) y fuel); [reflexivity| |exact HN|exact Hl|simpl in *; lia].
    intros z Hz. apply Hex. by right.
Qed.

Lemma follow_prev_linked db N P l1 : forall x l2 fuel,
  (forall y, In y (l1 ++ [x]) -> is_Some (photo_by_id y db)) ->
  (forall y, prev_of db y = P y) ->
  linked N P None (l1 ++ x :: l2) ->
  (length (l1 ++ [x]) <= fuel)%nat ->
  follow prev_photo_id db fuel x = Some (x :: rev l1).
Proof.
  induction l1 as [|y l1 IH] using rev_ind; intros x l2 fuel Hex HP Hl Hfuel;
    (destruct fuel as [|fuel]; [rewrite length_app in Hfuel; simpl in Hfuel; lia|]);
    cbn [follow].
  - destruct (Hex x) as [r Hr]; [by left|]. rewrite Hr.
    specialize (HP x). unfold prev_of in HP. rewrite Hr in HP. simpl in HP.
    rewrite HP. by destruct Hl as (-> & _).
  - destruct (Hex x) as [r Hr]; [rewrite in_app_iff; right; by left|]. rewrite Hr.
    specialize (HP x) as HPx. unfold prev_of in HPx. rewrite Hr in HPx. simpl in HPx.
    rewrite HPx. rewrite <- app_assoc in Hl. simpl in Hl.
    rewrite (linked_back _ _ _ _ _ _ _ Hl).
    rewrite (IH y (x :: l2) fuel); [by rewrite rev_unit| |exact HP|exact Hl|].
    + intros z Hz. apply Hex. rewrite in_app_iff. by left.
    + rewrite !length_app in *. simpl in *. lia.
Qed.

End Chains.

Section Blocks.
Import Photos.

Lemma ascending_from_spec l : forall lo,
  ascending_from lo l = true ->
  List.Forall (fun x => lo < x) l /\ List.NoDup l /\ StronglySorted Z.lt l.
Proof.
  induction l as [|x l IH]; intros lo H; simpl in H.
  - repeat constructor.
  - apply andb_true_iff in H as [Hx%Z.ltb_lt Hl]. destruct (IH x Hl) as (F & ND & SS).
    split; [|split].
    + constructor; [exact Hx|]. eapply List.Forall_impl; [|exact F]. simpl. lia.
    + constructor; [|exact ND]. intros Hin.
      eapply List.Forall_forall in F; [|exact Hin]. lia.
    + constructor; [exact SS | exact F].
Qed.

Lemma block_linked rows k l3 : forall B l1,
  rows = l1 ++ B ++ l3 ->
  List.NoDup (map fst rows) ->
  (forall p, In p rows -> 0 < fst p) ->
  (forall p, In p B -> snd p = k) ->
  (if l3 is c :: _ then snd c <> k else True) ->
  linked (abs_next rows 0 0 (fun _ => None)) (abs_prev rows 0 0 (fun _ => None))
         (if last l1 is Some z then (if snd z =? k then Some (fst z) else None) else None)
         (map fst B).
Proof.
  induction B as [|[a sa] B IH]; intros l1 Hrows Hnd Hpos HB Hl3; [exact I|].
  assert (sa = k) as -> by (apply (HB (a, sa)); by left).
  assert (Ha : 0 < a).
  { apply (Hpos (a, k)). rewrite Hrows, in_app_iff. right. by left. }
  cbn [map fst linked]. split; [|split].
  - destruct (last l1) as [[z sz]|] eqn:El1.
    + apply last_Some in El1 as [l1' ->]. simpl.
      rewrite Hrows, <- app_assoc. simpl.
      rewrite abs_prev_link.
      * by rewrite (Z.eqb_sym k sz).
      * rewrite Hrows, <- app_assoc in Hnd. exact Hnd.
      * apply (Hpos (z, sz)). rewrite Hrows, !in_app_iff. left. right. by left.
    + apply last_None in El1 as ->. simpl in Hrows. rewrite Hrows.
      rewrite abs_prev_first; [reflexivity|]. by rewrite <- Hrows.
  - destruct B as [|[b sb] B].
    + destruct l3 as [|[c sc] l3]; simpl in Hrows |- *.
      * rewrite Hrows, abs_next_last; [reflexivity| |lia]. by rewrite <- Hrows.
      * rewrite Hrows, abs_next_link; [| |lia|lia].
        -- destruct (Z.eqb_spec sc k); [contradiction | reflexivity].
        -- by rewrite <- Hrows.
    + assert (sb = k) as -> by (apply (HB (b, sb)); right; by left).
      simpl in Hrows |- *. rewrite Hrows, abs_next_link; [| |lia|lia].
      * by rewrite Z.eqb_refl.
      * by rewrite <- Hrows.
  - specialize (IH (l1 ++ [(a, k)])). rewrite last_snoc in IH. simpl in IH.
    rewrite Z.eqb_refl in IH. apply IH; auto.
    + rewrite Hrows, <- app_assoc. reflexivity.
    + intros p Hp. apply HB. by right.
Qed.

(** Rows sorted by set come in one block per set. *)
Lemma sorted_block k rows :
  StronglySorted (le_prop siblings_le) rows ->
  exists l1 l3,
    rows = l1 ++ List.filter (in_set k) rows ++ l3
    /\ List.Forall (fun r => p_set_id r < k) l1
    /\ List.Forall (fun r => k < p_set_id r) l3.
Proof.
  induction 1 as [|a l Hl IH Ha].
  - exists [], []. repeat split; constructor.
  - destruct IH as (l1 & l3 & El & F1 & F3).
    assert (Hge : List.Forall (fun r => p_set_id a <= p_set_id r) l).
    { eapply List.Forall_impl; [|exact Ha]. intros r Hr.
      apply siblings_le_spec in Hr. lia. }
    simpl. unfold in_set at 1.
    destruct (Z.eqb_spec (p_set_id a) k) as [E|NE].
    + assert (l1 = []) as ->.
      { destruct l1 as [|r l1]; [reflexivity|]. exfalso.
        apply List.Forall_inv in F1.
        assert (Hin : In r l) by (rewrite El; by left).
        eapply List.Forall_forall in Hge; [|exact Hin]. lia. }
      exists [], l3. simpl in *. rewrite <- El. repeat split; auto.
    + destruct (Z.lt_ge_cases (p_set_id a) k) as [Hlt|Hgt].
      * exists (a :: l1), l3. simpl. rewrite <- El. repeat split; auto.
      * assert (Hall : List.Forall (fun r => k < p_set_id r) (a :: l)).
        { constructor; [lia|]. eapply List.Forall_impl; [|exact Hge]. simpl. lia. }
        assert (Hnone : List.filter (in_set k) l = []).
        { apply List.Forall_inv_tail in Hall.
          clear -Hall. induction l as [|r l IH]; [reflexivity|]. simpl.
          unfold in_set at 1.
          destruct (Z.eqb_spec (p_set_id r) k) as [E|_].
          - apply List.Forall_inv in Hall. lia.
          - apply IH. by apply List.Forall_inv_tail in Hall. }
        exists [], (a :: l). rewrite Hnone. repeat split; auto.
Qed.

Lemma filter_all {A : Type} (f : A -> bool) l :
  List.Forall (fun x => f x = true) l ->
  List.filter f l = l /\ List.filter (fun x => negb (f x)) l = [].
Proof.
  induction 1 as [|x l Hx _ [IH1 IH2]]; [by split|]. simpl. rewrite Hx. simpl.
  by rewrite IH1, IH2.
Qed.

(** Within a set the photos without a timestamp come first. *)
Lemma untimed_first l :
  StronglySorted (fun a b => taken_le (p_taken_at a) (p_taken_at b) = true) l ->
  l = List.filter (fun r => negb (has_taken_at r)) l ++ List.filter has_taken_at l.
Proof.
  induction 1 as [|a l Hl IH Ha]; [reflexivity|]. simpl.
  destruct (has_taken_at a) eqn:Et; simpl.
  - assert (Hall : List.Forall (fun r => has_taken_at r = true) l).
    { eapply List.Forall_impl; [|exact Ha]. intros r Hr. unfold has_taken_at in *.
      destruct (p_taken_at a); [|discriminate].
      destruct (p_taken_at r); [reflexivity | discriminate]. }
    destruct (filter_all _ _ Hall) as [-> ->]. reflexivity.
  - by rewrite <- IH.
Qed.

End Blocks.

Section SiblingChains.
Import Photos.

Lemma siblings_query_perm db : Permutation (siblings_query db) (photos db).
Proof. apply order_by_perm. Qed.

Lemma siblings_query_sorted db : StronglySorted (le_prop siblings_le) (siblings_query db).
Proof. apply order_by_sorted; [apply siblings_le_total | apply siblings_le_trans]. Qed.

Lemma siblings_rows_ids db : map fst (siblings_rows db) = map p_id (siblings_query db).
Proof. unfold siblings_rows. rewrite map_map. reflexivity. Qed.

Lemma no_links_spec db r :
  no_links db = true -> In r (photos db) ->
  prev_photo_id r = None /\ next_photo_id r = None.
Proof.
  unfold no_links. rewrite forallb_forall. intros H Hin. specialize (H r Hin).
  destruct (prev_photo_id r), (next_photo_id r); try discriminate. by split.
Qed.

Lemma no_links_of db x :
  no_links db = true -> prev_of db x = None /\ next_of db x = None.
Proof.
  intros H. unfold prev_of, next_of.
  destruct (photo_by_id x db) as [r|] eqn:E; [|by split]. simpl.
  apply photo_by_id_key in E as [_ Hin]. by apply (no_links_spec db).
Qed.

(** On a store with sound keys and no links yet, no UPDATE of the sibling
    phase fails and the links are the intended ones. *)
Lemma siblings_tx_free db :
  keys_ok db = true -> no_links db = true ->
  failures (siblings_tx db) = []
  /\ (forall x, is_Some (photo_by_id x (tx_db (siblings_tx db))) <-> is_Some (photo_by_id x db))
  /\ (forall x, prev_of (tx_db (siblings_tx db)) x
                = abs_prev (siblings_rows db) 0 0 (fun _ => None) x)
  /\ (forall x, next_of (tx_db (siblings_tx db)) x
                = abs_next (siblings_rows db) 0 0 (fun _ => None) x)
  /\ List.NoDup (map fst (siblings_rows db))
  /\ (forall p, In p (siblings_rows db) -> 0 < fst p).
Proof.
  intros [_ Hk]%andb_true_iff Hfresh.
  apply ascending_from_spec in Hk as (Hpos & Hnd & _).
  assert (Hperm : Permutation (map fst (siblings_rows db)) (map p_id (photos db))).
  { rewrite siblings_rows_ids. apply Permutation_map, siblings_query_perm. }
  assert (Hnd' : List.NoDup (map fst (siblings_rows db))).
  { eapply Permutation_NoDup; [symmetry; exact Hperm | exact Hnd]. }
  assert (Hpos' : forall x, In x (map fst (siblings_rows db)) -> 0 < x).
  { intros x Hx. eapply List.Forall_forall in Hpos; [exact Hpos|].
    eapply Permutation_in; [exact Hperm | exact Hx]. }
  destruct (siblings_loop_free (siblings_rows db) 0 0 (begin db)) as (F & _ & S & P & N).
  - intros x Hx. eapply Permutation_in in Hx; [|exact Hperm].
    apply in_map_iff in Hx as (r & <- & Hr). apply photo_by_id_in, Hr.
  - lia.
  - constructor; [|exact Hnd']. intros H0%Hpos'. lia.
  - intros r v Hr E. destruct (no_links_spec db r Hfresh Hr). simpl in *. congruence.
  - intros r v Hr E. destruct (no_links_spec db r Hfresh Hr). simpl in *. congruence.
  - split; [exact F|]. split; [exact S|]. split; [|split; [|split]].
    + intros x. rewrite P. apply abs_prev_ext. intros y. by apply no_links_of.
    + intros x. rewrite N. apply abs_next_ext. intros y. by apply no_links_of.
    + exact Hnd'.
    + intros p Hp. apply Hpos', in_map, Hp.
Qed.

Lemma filter_sorted {A : Type} (R : A -> A -> Prop) (f : A -> bool) l :
  StronglySorted R l -> StronglySorted R (List.filter f l).
Proof.
  induction 1 as [|a l Hl IH Ha]; simpl; [constructor|].
  destruct (f a); [|exact IH]. constructor; [exact IH|].
  apply List.Forall_forall. intros x [Hx _]%filter_In.
  eapply List.Forall_forall in Ha; eauto.
Qed.

Lemma sorted_on {A : Type} (R R' : A -> A -> Prop) (Q : A -> Prop) l :
  (forall a b, Q a -> Q b -> R a b -> R' a b) ->
  List.Forall Q l -> StronglySorted R l -> StronglySorted R' l.
Proof.
  intros HR HQ. induction 1 as [|a l Hl IH Ha]; [constructor|].
  assert (Qa := List.Forall_inv HQ). apply List.Forall_inv_tail in HQ.
  constructor; [by apply IH|].
  apply List.Forall_forall. intros x Hx.
  apply HR; [exact Qa| |].
  - eapply List.Forall_forall in HQ; eauto.
  - eapply List.Forall_forall in Ha; eauto.
Qed.

Lemma chain_sorted db k :
  StronglySorted (fun a b => taken_le (p_taken_at a) (p_taken_at b) = true)
                 (List.filter (in_set k) (siblings_query db)).
Proof.
  apply (sorted_on (le_prop siblings_le) _ (fun r => p_set_id r = k)).
  - intros a b Ha Hb [Hlt|[_ Hle]]%siblings_le_spec; [lia | exact Hle].
  - apply List.Forall_forall. intros r [_ Hr]%filter_In. unfold in_set in Hr. lia.
  - apply filter_sorted, siblings_query_sorted.
Qed.

Lemma linked_ext N P N' P' l : forall before,
  (forall x, N x = N' x) -> (forall x, P x = P' x) ->
  linked N P before l -> linked N' P' before l.
Proof.
  induction l as [|x l IH]; intros before HN HP H; [exact I|].
  destruct H as (H1 & H2 & H3). cbn [linked]. rewrite <- HN, <- HP. auto.
Qed.

Lemma chain_linked db k :
  keys_ok db = true -> no_links db = true ->
  linked (next_of (tx_db (siblings_tx db))) (prev_of (tx_db (siblings_tx db)))
         None (map p_id (chain_of k db)).
Proof.
  intros Hk Hf. destruct (siblings_tx_free db Hk Hf) as (_ & _ & P & N & Hnd & Hpos).
  destruct (sorted_block k _ (siblings_query_sorted db)) as (l1 & l3 & E & F1 & F3).
  fold (chain_of k db) in E.
  assert (L := block_linked (siblings_rows db) k (map row_key l3)
                 (map row_key (chain_of k db)) (map row_key l1)).
  rewrite map_map in L. simpl in L.
  assert (Hb : (if last (map row_key l1) is Some z
                then if snd z =? k then Some (fst z) else None else None) = None).
  { destruct (last (map row_key l1)) as [z|] eqn:El; [|reflexivity].
    apply last_Some in El as [l' El].
    assert (Hz : In z (map row_key l1)) by (rewrite El, in_app_iff; right; by left).
    apply in_map_iff in Hz as (r & <- & Hr). simpl.
    eapply List.Forall_forall in F1; [|exact Hr]. simpl in F1.
    destruct (Z.eqb_spec (p_set_id r) k); [lia | reflexivity]. }
  rewrite Hb in L.
  assert (L' : linked (abs_next (siblings_rows db) 0 0 (fun _ => None))
                      (abs_prev (siblings_rows db) 0 0 (fun _ => None))
                      None (map p_id (chain_of k db))).
  { apply L; [|exact Hnd|exact Hpos| |].
    - unfold siblings_rows. rewrite E at 1. by rewrite !map_app.
    - intros p (r & <- & [_ Hr]%filter_In)%in_map_iff. unfold in_set in Hr. simpl. lia.
    - destruct l3 as [|c l3]; [exact I|]. simpl. apply List.Forall_inv in F3. lia. }
  eapply linked_ext; [| |exact L']; intros x; simpl; by rewrite ?P, ?N.
Qed.

End SiblingChains.

Section Aggregates.
Import Photos.

(** ** MIN(taken_at) with its bare column *)

Lemma min_step_inv pre acc x :
  min_inv pre acc -> (forall r, In r pre -> p_id r < p_id x) ->
  min_inv (pre ++ [x]) (min_step acc x).
Proof.
  destruct acc as [m c]. intros (I3 & I1 & I2) Hlt. unfold min_step. simpl in *.
  assert (Hne : pre ++ [x] <> []) by (by destruct pre).
  destruct (p_taken_at x) as [t|] eqn:Ex; destruct m as [b|]; simpl.
  - assert (Hpre : pre <> []) by (intros ->; by specialize (I3 eq_refl)).
    destruct (I1 Hpre) as (r0 & Hr0 & Hc & Hm).
    rewrite string_ltb_leb. destruct (String.leb b t) eqn:Hbt; simpl.
    + split; [done|]. split.
      * intros _. exists r0. rewrite in_app_iff. auto.
      * intros r t' [Hr|[<-|[]]]%in_app_iff Ht'; [by apply (I2 r)|].
        rewrite Ex in Ht'. injection Ht' as <-. exists b. split; [done|]. split; [done|].
        intros _. specialize (Hlt r0 Hr0). simpl. lia.
    + assert (Htb : String.leb t b = true).
      { destruct (String.leb_total t b); congruence. }
      split; [done|]. split.
      * intros _. exists x. rewrite in_app_iff. simpl. auto.
      * intros r t' [Hr|[<-|[]]]%in_app_iff Ht'.
        -- destruct (I2 r t' Hr Ht') as (b' & [= <-] & Hle & _).
           exists t. split; [done|]. split; [eapply string_leb_trans; eauto|].
           intros ->. congruence.
        -- rewrite Ex in Ht'. injection Ht' as <-. exists t.
           split; [done|]. split; [apply string_leb_refl | simpl; lia].
  - split; [done|]. split.
    + intros _. exists x. rewrite in_app_iff. simpl. auto.
    + intros r t' [Hr|[<-|[]]]%in_app_iff Ht'.
      * by destruct (I2 r t' Hr Ht') as (b' & [=] & _).
      * rewrite Ex in Ht'. injection Ht' as <-. exists t.
        split; [done|]. split; [apply string_leb_refl | simpl; lia].
  - assert (Hpre : pre <> []) by (intros ->; by specialize (I3 eq_refl)).
    destruct (I1 Hpre) as (r0 & Hr0 & Hc & Hm).
    split; [done|]. split.
    + intros _. exists r0. rewrite in_app_iff. auto.
    + intros r t' [Hr|[<-|[]]]%in_app_iff Ht'; [by apply (I2 r)|]. congruence.
  - split; [done|]. split.
    + intros _. exists x. rewrite in_app_iff. simpl. auto.
    + intros r t' [Hr|[<-|[]]]%in_app_iff Ht'.
      * by destruct (I2 r t' Hr Ht') as (b' & [=] & _).
      * congruence.
Qed.

Lemma fold_min_inv l : forall pre acc,
  min_inv pre acc -> ids_ascend (pre ++ l) ->
  min_inv (pre ++ l) (fold_left min_step l acc).
Proof.
  induction l as [|x l IH]; intros pre acc Hinv Hasc; simpl.
  - by rewrite app_nil_r.
  - replace (pre ++ x :: l) with ((pre ++ [x]) ++ l) in * by (by rewrite <- app_assoc).
    apply IH; [|exact Hasc]. apply min_step_inv; [exact Hinv|].
    intros r Hr. clear -Hasc Hr. unfold ids_ascend in Hasc.
    induction pre as [|p pre IHp]; [destruct Hr|].
    simpl in Hasc. apply StronglySorted_inv in Hasc as [Hs Hf].
    destruct Hr as [->|Hr]; [|by apply IHp].
    eapply List.Forall_forall in Hf; [exact Hf|].
    rewrite !in_app_iff. left. right. by left.
Qed.

Lemma group_min_spec l :
  ids_ascend l -> l <> [] ->
  exists c, In c l /\ p_id c = snd (group_min l) /\ p_taken_at c = fst (group_min l)
    /\ forall r t, In r l -> p_taken_at r = Some t ->
         exists m, p_taken_at c = Some m /\ String.leb m t = true
                   /\ (t = m -> p_id c <= p_id r).
Proof.
  intros Hasc Hne.
  destruct (fold_min_inv l [] (None, 0)) as (_ & I1 & I2); [|exact Hasc|].
  { split; [done|]. split; [done|]. intros r t []. }
  simpl in *. fold (group_min l) in I1, I2.
  destruct (I1 Hne) as (c & Hc & Hid & Hm). exists c.
  split; [exact Hc|]. split; [exact Hid|]. split; [exact Hm|].
  intros r t Hr Ht. destruct (I2 r t Hr Ht) as (b & Hb & Hle & Htie).
  exists b. rewrite Hm, Hid. auto.
Qed.

End Aggregates.

Section SetsPhase.
Import Photos.

(** ** The groups of GROUP BY *)

Lemma insert_key_in k l x : In x (insert_key k l) <-> x = k \/ In x l.
Proof.
  induction l as [|y l IH]; simpl; [intuition|].
  destruct (Z.ltb_spec k y); simpl; [intuition|].
  destruct (Z.eqb_spec k y); simpl; [subst; intuition|].
  rewrite IH. intuition.
Qed.

Lemma insert_key_sorted k l :
  StronglySorted Z.lt l -> StronglySorted Z.lt (insert_key k l).
Proof.
  induction 1 as [|y l Hl IH Hy]; simpl; [repeat constructor|].
  destruct (Z.ltb_spec k y).
  - constructor; [by constructor|]. constructor; [exact H|].
    eapply List.Forall_impl; [|exact Hy]. simpl. lia.
  - destruct (Z.eqb_spec k y); [by constructor|].
    constructor; [exact IH|]. apply List.Forall_forall.
    intros x [->|Hx]%insert_key_in; [lia|].
    eapply List.Forall_forall in Hy; eauto.
Qed.

Lemma group_keys_in rows k :
  In k (group_keys rows) <-> exists r, In r rows /\ p_set_id r = k.
Proof.
  unfold group_keys. induction rows as [|r rows IH]; simpl.
  - split; [tauto | by intros (r & [] & _)].
  - rewrite insert_key_in, IH. split.
    + intros [->|(r' & Hr' & E)]; eauto.
    + intros (r' & [->|Hr'] & E); eauto.
Qed.

Lemma group_keys_sorted rows : StronglySorted Z.lt (group_keys rows).
Proof.
  unfold group_keys. induction rows as [|r rows IH]; simpl; [constructor|].
  by apply insert_key_sorted.
Qed.

Lemma sorted_lt_nodup l : StronglySorted Z.lt l -> List.NoDup l.
Proof.
  induction 1 as [|x l Hl IH Hx]; constructor; [|exact IH].
  intros Hin. eapply List.Forall_forall in Hx; [|exact Hin]. lia.
Qed.

(** ** The loop of [updateSets] *)

Lemma sets_rows_agg db : sets_rows db = map (agg_row db) (group_keys (photos db)).
Proof. reflexivity. Qed.

Lemma covers_ok_spec db s c :
  covers_ok db = true -> In s (sets db) -> thumb_photo_id s = Some c ->
  exists r, In r (photos db) /\ p_id r = c /\ p_set_id r = s_id s.
Proof.
  unfold covers_ok. rewrite forallb_forall. intros H Hs Hc.
  specialize (H s Hs). rewrite Hc in H.
  apply existsb_exists in H as (r & Hr & [E1 E2]%andb_true_iff).
  exists r. unfold in_set in E2. repeat split; [exact Hr|lia|lia].
Qed.

Lemma nodup_key_inj (l : list photo_row) a b :
  List.NoDup (map p_id l) -> In a l -> In b l -> p_id a = p_id b -> a = b.
Proof.
  induction l as [|x l IH]; simpl; [tauto|].
  intros [Hx Hnd]%List.NoDup_cons_iff [->|Ha] [->|Hb] E; auto.
  - exfalso. apply Hx. rewrite E. by apply in_map.
  - exfalso. apply Hx. rewrite <- E. by apply in_map.
Qed.

Lemma sets_loop_spec db keys : forall t,
  photos (tx_db t) = photos db ->
  List.NoDup keys ->
  List.NoDup (map p_id (photos db)) ->
  (forall k, In k keys -> exists c, In c (photos_of k db)
                                    /\ p_id c = snd (group_min (photos_of k db))) ->
  covers_ok (tx_db t) = true ->
  failures (sets_loop (map (agg_row db) keys) t) = failures t
  /\ photos (tx_db (sets_loop (map (agg_row db) keys) t)) = photos db
  /\ sets (tx_db (sets_loop (map (agg_row db) keys) t))
     = map (agg_keys db keys) (sets (tx_db t))
  /\ covers_ok (tx_db (sets_loop (map (agg_row db) keys) t)) = true.
Proof.
  induction keys as [|k keys IH]; intros t Hph Hnd Hids Hcov Hok.
  { simpl. repeat split; auto. unfold agg_keys. simpl. by rewrite map_id. }
  cbn [map sets_loop agg_row].
  apply (proj1 (List.NoDup_cons_iff _ _)) in Hnd as [Hk Hnd].
  destruct (Hcov k) as (c & Hc & Hcid); [by left|].
  apply filter_In in Hc as [Hc Hck]. unfold in_set in Hck.
  set (cover := snd (group_min (photos_of k db))) in *.
  set (mn := fst (group_min (photos_of k db))).
  set (cnt := photosCountStmt k (tx_db t)).
  assert (Hcnt : cnt = photosCountStmt k db).
  { unfold cnt, photosCountStmt. by rewrite Hph. }
  assert (Hfree : updateSetStmt cnt mn cover k (tx_db t)
                  = Ok (mkDB (map (fun s => if s_id s =? k
                                            then mkSetRow (s_id s) (Some cover) (s_name s)
                                                          (Some cnt) mn
                                            else s) (sets (tx_db t)))
                             (photos (tx_db t)))).
  { unfold updateSetStmt. rewrite unique_conflict_other; [reflexivity|].
    intros s Hs Hsk Hthumb.
    destruct (covers_ok_spec _ s cover Hok Hs Hthumb) as (r & Hr & Hrid & Hrs).
    rewrite Hph in Hr. assert (r = c) as -> by (apply (nodup_key_inj (photos db)); auto; lia).
    lia. }
  rewrite (exec_dropped_ok _ t _ Hfree).
  set (t1 := mkTx _ _).
  destruct (IH t1) as (I1 & I2 & I3 & I4); auto.
  - intros k' Hk'. apply Hcov. by right.
  - unfold t1, covers_ok. simpl. rewrite Hph. apply forallb_forall.
    intros s' (s & <- & Hs)%in_map_iff.
    destruct (Z.eqb_spec (s_id s) k) as [E|NE]; simpl.
    + apply existsb_exists. exists c. split; [exact Hc|].
      unfold in_set. apply andb_true_iff. split; lia.
    + unfold covers_ok in Hok. rewrite forallb_forall in Hok.
      specialize (Hok s Hs). by rewrite Hph in Hok.
  - split; [|split; [|split]]; auto.
    + rewrite I1. unfold t1. apply failures_ok.
    + rewrite I3. unfold t1. simpl. rewrite map_map. apply map_ext. intros s.
      unfold agg_keys. simpl.
      destruct (Z.eqb_spec (s_id s) k) as [E|NE]; simpl.
      * assert (Hno : existsb (Z.eqb (s_id s)) keys = false).
        { apply not_true_is_false. intros (k' & Hk' & Ek')%existsb_exists.
          apply Hk. assert (k' = k) as <- by lia. exact Hk'. }
        rewrite Hno. unfold agg_set. rewrite E, <- Hcnt. reflexivity.
      * reflexivity.
Qed.

End SetsPhase.

Section SetAggregates.
Import Photos.

Lemma ids_ascend_of l : StronglySorted Z.lt (map p_id l) -> ids_ascend l.
Proof.
  unfold ids_ascend. induction l as [|r l IH]; simpl; intros H; [constructor|].
  apply StronglySorted_inv in H as [Hs Hf]. constructor; [by apply IH|].
  apply List.Forall_forall. intros x Hx.
  eapply List.Forall_forall in Hf; [exact Hf|]. by apply in_map.
Qed.

Lemma store_ok_spec db :
  store_ok db = true ->
  List.NoDup (map p_id (photos db)) /\ ids_ascend (photos db)
  /\ covers_ok db = true
  /\ forall s, In s (sets db) -> exists r, In r (photos db) /\ p_set_id r = s_id s.
Proof.
  unfold store_ok, keys_ok.
  intros [[[_ Hk]%andb_true_iff Hc]%andb_true_iff Hi]%andb_true_iff.
  apply ascending_from_spec in Hk as (_ & Hnd & Hs).
  split; [exact Hnd|]. split; [by apply ids_ascend_of|]. split; [exact Hc|].
  intros s Hs'. unfold sets_inhabited in Hi. rewrite forallb_forall in Hi.
  apply Hi, existsb_exists in Hs' as (r & Hr & E). unfold in_set in E.
  exists r. split; [exact Hr | lia].
Qed.

Lemma photos_of_cover db k :
  ids_ascend (photos db) -> (exists r, In r (photos db) /\ p_set_id r = k) ->
  exists c, In c (photos_of k db) /\ p_id c = snd (group_min (photos_of k db))
    /\ p_taken_at c = fst (group_min (photos_of k db))
    /\ forall r t, In r (photos_of k db) -> p_taken_at r = Some t ->
         exists m, p_taken_at c = Some m /\ String.leb m t = true
                   /\ (t = m -> p_id c <= p_id r).
Proof.
  intros Hasc (r & Hr & Hk). apply group_min_spec.
  - by apply filter_sorted.
  - intros E. assert (Hin : In r (photos_of k db)).
    { apply filter_In. split; [exact Hr|]. unfold in_set. lia. }
    rewrite E in Hin. destruct Hin.
Qed.

(** The aggregate phase on a sound store: no UPDATE fails, the photos are
    untouched and every set row carries its aggregates. *)
Lemma sets_tx_spec db :
  store_ok db = true ->
  failures (sets_tx db) = []
  /\ photos (tx_db (sets_tx db)) = photos db
  /\ sets (tx_db (sets_tx db)) = map (agg_set db) (sets db)
  /\ covers_ok (tx_db (sets_tx db)) = true.
Proof.
  intros Hok. destruct (store_ok_spec db Hok) as (Hnd & Hasc & Hcov & Hinh).
  unfold sets_tx. rewrite sets_rows_agg.
  destruct (sets_loop_spec db (group_keys (photos db)) (begin db)) as (F & P & S & C); auto.
  - apply sorted_lt_nodup, group_keys_sorted.
  - intros k Hk%group_keys_in.
    destruct (photos_of_cover db k Hasc Hk) as (c & Hc & Hid & _). eauto.
  - split; [exact F|]. split; [exact P|]. split; [|exact C].
    rewrite S. simpl. apply map_ext_in. intros s Hs. unfold agg_keys.
    assert (Hin : existsb (Z.eqb (s_id s)) (group_keys (photos db)) = true).
    { apply existsb_exists. exists (s_id s). split; [|lia].
      apply group_keys_in. destruct (Hinh s Hs) as (r & Hr & E). eauto. }
    by rewrite Hin.
Qed.

(** C5.  After the aggregate phase on a sound store every set row holds
    the number of photos of the set and the least capture time among
    them, NULL exactly when no photo of the set has one. *)
Theorem sets_aggregates db s :
  store_ok db = true -> In s (sets (snd (updateSets db))) ->
  photos_count s
  = Some (Z.of_nat (length (photos_of (s_id s) (snd (updateSets db)))))
  /\ (s_taken_at s = None <->
      forall r, In r (photos_of (s_id s) (snd (updateSets db))) -> p_taken_at r = None)
  /\ (forall m, s_taken_at s = Some m ->
        (exists r, In r (photos_of (s_id s) (snd (updateSets db)))
                   /\ p_taken_at r = Some m)
        /\ forall r t, In r (photos_of (s_id s) (snd (updateSets db))) ->
             p_taken_at r = Some t -> String.leb m t = true).
Proof.
  intros Hok Hs. destruct (sets_tx_spec db Hok) as (_ & P & S & _).
  destruct (store_ok_spec db Hok) as (_ & Hasc & _ & Hinh).
  simpl in *. unfold photos_of. rewrite P. rewrite S in Hs.
  apply in_map_iff in Hs as (s0 & <- & Hs0). simpl.
  fold (photos_of (s_id s0) db).
  destruct (photos_of_cover db (s_id s0) Hasc (Hinh s0 Hs0)) as (c & Hc & _ & Hm & Hmin).
  split; [reflexivity|]. rewrite <- Hm. split; [split|].
  - intros Hnone r Hr. destruct (p_taken_at r) as [t|] eqn:Et; [|reflexivity].
    destruct (Hmin r t Hr Et) as (m & Hcm & _). congruence.
  - intros Hall. by apply Hall.
  - intros m Hcm. split; [eauto|]. intros r t Hr Et.
    destruct (Hmin r t Hr Et) as (m' & Hcm' & Hle & _). congruence.
Qed.

(** C6.  After the aggregate phase on a sound store the cover of every
    set is a photo of that set; it holds the least capture time of the
    set, and among the photos that share that time it is the one with
    the smallest id. *)
Theorem sets_cover db s :
  store_ok db = true -> In s (sets (snd (updateSets db))) ->
  exists c,
    thumb_photo_id s = Some (p_id c)
    /\ In c (photos_of (s_id s) (snd (updateSets db)))
    /\ forall r t, In r (photos_of (s_id s) (snd (updateSets db))) ->
         p_taken_at r = Some t ->
         exists m, p_taken_at c = Some m /\ String.leb m t = true
                   /\ (t = m -> p_id c <= p_id r).
Proof.
  intros Hok Hs. destruct (sets_tx_spec db Hok) as (_ & P & S & _).
  destruct (store_ok_spec db Hok) as (_ & Hasc & _ & Hinh).
  simpl in *. unfold photos_of. rewrite P. rewrite S in Hs.
  apply in_map_iff in Hs as (s0 & <- & Hs0). simpl.
  fold (photos_of (s_id s0) db).
  destruct (photos_of_cover db (s_id s0) Hasc (Hinh s0 Hs0)) as (c & Hc & Hid & _ & Hmin).
  exists c. split; [by rewrite Hid|]. split; [exact Hc | exact Hmin].
Qed.

End SetAggregates.

Section Invariants.
Import Photos.
Context `{ScanEnv}.

Lemma next_rowid_above l : List.Forall (fun x => x < next_rowid l) l.
Proof.
  destruct l as [|i l]; [constructor|]. unfold next_rowid.
  assert (Hmax : forall x, In x (i :: l) -> x <= fold_right Z.max i l).
  { induction l as [|y l IH]; simpl.
    - intros x [->|[]]. lia.
    - intros x [->|[->|Hx]]; [| lia |].
      + specialize (IH x (or_introl eq_refl)). lia.
      + specialize (IH x (or_intror Hx)). lia. }
  apply List.Forall_forall. intros x Hx. specialize (Hmax x Hx). lia.
Qed.

Lemma ascending_from_snoc l : forall lo x,
  ascending_from lo l = true -> lo < x -> List.Forall (fun y => y < x) l ->
  ascending_from lo (l ++ [x]) = true.
Proof.
  induction l as [|y l IH]; intros lo x Hl Hlo Hx; simpl in *.
  - apply andb_true_iff. split; [lia | reflexivity].
  - apply andb_true_iff in Hl as [Hy Hl]. rewrite Hy. simpl.
    apply IH; [exact Hl | by apply List.Forall_inv in Hx | by apply List.Forall_inv_tail in Hx].
Qed.

Lemma ascending_next l :
  ascending_from 0 l = true -> ascending_from 0 (l ++ [next_rowid l]) = true.
Proof.
  intros Hl. apply ascending_from_snoc; [exact Hl| |apply next_rowid_above].
  destruct l as [|i l]; [simpl; lia|].
  simpl in Hl. apply andb_true_iff in Hl as [Hi%Z.ltb_lt _].
  assert (Hf := next_rowid_above (i :: l)). apply List.Forall_inv in Hf. lia.
Qed.

(** ** Soundness of the store is kept by every step of [Scan] *)

Lemma existsb_app_l {A : Type} (f : A -> bool) l l' :
  existsb f l = true -> existsb f (l ++ l') = true.
Proof. intros Hl. by rewrite existsb_app, Hl. Qed.

Lemma selectSet_found name db i :
  selectSetStmt name db = Some i ->
  exists s, In s (sets db) /\ s_id s = i /\ s_name s = name.
Proof.
  unfold selectSetStmt. destruct (List.find _ _) as [s|] eqn:E; [|discriminate].
  intros [= <-]. apply List.find_some in E as [Hin Hn%String.eqb_eq]. eauto.
Qed.

Lemma names_ok_spec db r :
  names_ok db = true -> In r (photos db) ->
  exists s, In s (sets db) /\ s_id s = p_set_id r /\ s_name s = set_name_of (p_cols r).
Proof.
  unfold names_ok. rewrite forallb_forall. intros Hn Hr.
  apply Hn, existsb_exists in Hr as (s & Hs & [E1 E2%String.eqb_eq]%andb_true_iff).
  exists s. repeat split; [exact Hs | lia | exact E2].
Qed.

Lemma known_photo_known_set p db :
  names_ok db = true -> has_photo (Path p) db = true -> has_set (set_name_of p) db = true.
Proof.
  intros Hn (r & Hr & E%String.eqb_eq)%existsb_exists.
  destruct (names_ok_spec db r Hn Hr) as (s & Hs & _ & Hname).
  apply existsb_exists. exists s. split; [exact Hs|]. apply String.eqb_eq.
  rewrite Hname. unfold set_name_of. unfold p_path in E. by rewrite E.
Qed.

Lemma store_sound p db : sound db -> sound (snd (store p db)).
Proof.
  intros [Hok Hn]. rewrite store_eq. simpl.
  unfold store_ok in Hok.
  apply andb_true_iff in Hok as [[Hk Hc]%andb_true_iff Hi].
  apply andb_true_iff in Hk as [Hks Hkp].
  set (n := set_name_of p) in *.
  set (new_set := mkSetRow (next_rowid (map s_id (sets db))) None n None None).
  set (new_photo := mkPhotoRow _ _ None None (stored p)).
  assert (Hsid : exists s, In s (if has_set n db then sets db else sets db ++ [new_set])
                           /\ s_id s = set_id_for n db /\ s_name s = n).
  { unfold set_id_for. destruct (has_set n db) eqn:Hs.
    - destruct (selectSet_some _ _ Hs) as [i Hi']. rewrite Hi'.
      by apply selectSet_found.
    - rewrite (proj2 (selectSet_none _ _) Hs). exists new_set.
      rewrite in_app_iff. simpl. auto. }
  assert (Hnew : has_set n db = false -> has_photo (Path p) db = false).
  { intros Hs. apply not_true_is_false. intros Hp.
    pose proof (known_photo_known_set p db Hn Hp) as K.
    change (has_set n db = true) in K. congruence. }
  split.
  - unfold store_ok, keys_ok, covers_ok, sets_inhabited. simpl.
    repeat (apply andb_true_iff; split).
    + destruct (has_set n db); [exact Hks|]. rewrite map_app. simpl.
      by apply ascending_next.
    + destruct (has_photo (Path p) db); [exact Hkp|]. rewrite map_app. simpl.
      by apply ascending_next.
    + unfold covers_ok in Hc. rewrite forallb_forall in Hc. apply forallb_forall.
      intros s Hs.
      assert (Hold : In s (sets db) ->
                match thumb_photo_id s with
                | Some c => existsb (fun r => (p_id r =? c) && in_set (s_id s) r)
                                    (if has_photo (Path p) db then photos db
                                     else photos db ++ [new_photo])
                | None => true
                end = true).
      { intros Hin. specialize (Hc s Hin). destruct (thumb_photo_id s); [|reflexivity].
        destruct (has_photo (Path p) db); [exact Hc | by apply existsb_app_l]. }
      destruct (has_set n db); [by apply Hold|].
      apply in_app_iff in Hs as [Hs|[<-|[]]]; [by apply Hold | reflexivity].
    + unfold sets_inhabited in Hi. rewrite forallb_forall in Hi. apply forallb_forall.
      intros s Hs.
      assert (Hold : In s (sets db) ->
                existsb (in_set (s_id s))
                        (if has_photo (Path p) db then photos db
                         else photos db ++ [new_photo]) = true).
      { intros Hin. specialize (Hi s Hin).
        destruct (has_photo (Path p) db); [exact Hi | by apply existsb_app_l]. }
      destruct (has_set n db) eqn:Hhs; [by apply Hold|].
      apply in_app_iff in Hs as [Hs|[<-|[]]]; [by apply Hold|].
      rewrite (Hnew eq_refl), existsb_app. simpl.
      unfold in_set, new_photo, set_id_for. simpl.
      rewrite (proj2 (selectSet_none _ _) Hhs), Z.eqb_refl. by rewrite orb_true_r.
  - unfold names_ok in *. simpl. rewrite forallb_forall in Hn. apply forallb_forall.
    intros r Hr.
    assert (Hold : In r (photos db) ->
              existsb (fun s => (s_id s =? p_set_id r)
                                && String.eqb (s_name s) (set_name_of (p_cols r)))
                      (if has_set n db then sets db else sets db ++ [new_set]) = true).
    { intros Hin. specialize (Hn r Hin).
      destruct (has_set n db); [exact Hn | by apply existsb_app_l]. }
    destruct (has_photo (Path p) db); [by apply Hold|].
    apply in_app_iff in Hr as [Hr|[<-|[]]]; [by apply Hold|].
    destruct Hsid as (s & Hs & Hid & Hname). apply existsb_exists. exists s.
    split; [exact Hs|]. simpl. rewrite Hid, Z.eqb_refl. simpl. by apply String.eqb_eq.
Qed.

Lemma forallb_eq {A : Type} (f g : A -> bool) l :
  (forall x, f x = g x) -> forallb f l = forallb g l.
Proof. intros E. induction l as [|x l IH]; simpl; [reflexivity | by rewrite E, IH]. Qed.

Lemma forallb_of_map {A B : Type} (f : B -> bool) (g : A -> B) l :
  forallb f (map g l) = forallb (fun x => f (g x)) l.
Proof. induction l as [|x l IH]; simpl; [reflexivity | by rewrite IH]. Qed.

Lemma existsb_of_map {A B : Type} (f : B -> bool) (g : A -> B) l :
  existsb f (map g l) = existsb (fun x => f (g x)) l.
Proof. induction l as [|x l IH]; simpl; [reflexivity | by rewrite IH]. Qed.

Lemma existsb_kept ids (f : photo_row -> bool) l l' :
  (forall r r', row_kept ids r r' -> f r' = f r) ->
  Forall2 (row_kept ids) l l' -> existsb f l' = existsb f l.
Proof.
  intros Hf. induction 1 as [|r r' l l' Hr _ IH]; simpl; [reflexivity|].
  by rewrite (Hf r r' Hr), IH.
Qed.

Lemma forallb_kept ids (f : photo_row -> bool) l l' :
  (forall r r', row_kept ids r r' -> f r' = f r) ->
  Forall2 (row_kept ids) l l' -> forallb f l' = forallb f l.
Proof.
  intros Hf. induction 1 as [|r r' l l' Hr _ IH]; simpl; [reflexivity|].
  by rewrite (Hf r r' Hr), IH.
Qed.

Lemma map_kept {B : Type} ids (f : photo_row -> B) l l' :
  (forall r r', row_kept ids r r' -> f r' = f r) ->
  Forall2 (row_kept ids) l l' -> map f l' = map f l.
Proof.
  intros Hf. induction 1 as [|r r' l l' Hr _ IH]; simpl; [reflexivity|].
  by rewrite (Hf r r' Hr), IH.
Qed.

Lemma db_kept_sound ids db db' : db_kept ids db db' -> sound db -> sound db'.
Proof.
  intros [Hs Hp] [Hok Hn]. split.
  - unfold store_ok, keys_ok, covers_ok, sets_inhabited in *. rewrite Hs.
    rewrite (map_kept ids p_id _ _ (fun r r' K => proj1 K) Hp).
    assert (E1 : forall s, existsb (in_set (s_id s)) (photos db')
                           = existsb (in_set (s_id s)) (photos db)).
    { intros s. apply (existsb_kept ids); [|exact Hp].
      intros r r' (_ & K & _). unfold in_set. by rewrite K. }
    assert (E2 : forall s c, existsb (fun r => (p_id r =? c) && in_set (s_id s) r) (photos db')
                             = existsb (fun r => (p_id r =? c) && in_set (s_id s) r) (photos db)).
    { intros s c. apply (existsb_kept ids); [|exact Hp].
      intros r r' (K1 & K2 & _). unfold in_set. by rewrite K1, K2. }
    etransitivity; [|exact Hok]. f_equal; [f_equal|].
    + apply forallb_eq. intros s. destruct (thumb_photo_id s); [apply E2 | reflexivity].
    + apply forallb_eq. intros s. apply E1.
  - unfold names_ok in *. rewrite Hs. etransitivity; [|exact Hn].
    apply (forallb_kept ids); [|exact Hp].
    intros r r' (_ & K2 & K3 & _). by rewrite K2, K3.
Qed.

Lemma updatePhotoSiblings_kept db :
  db_kept (map p_id (photos db)) db (snd (updatePhotoSiblings db)).
Proof.
  simpl. unfold siblings_tx.
  apply (siblings_loop_kept (map p_id (photos db)) (siblings_rows db) 0 0 (begin db)).
  - lia.
  - intros x Hx. apply (in_map fst) in Hx. rewrite siblings_rows_ids in Hx.
    eapply Permutation_in; [|exact Hx]. apply Permutation_map, siblings_query_perm.
Qed.

Lemma updatePhotoSiblings_sound db : sound db -> sound (snd (updatePhotoSiblings db)).
Proof. apply db_kept_sound with (ids := map p_id (photos db)), updatePhotoSiblings_kept. Qed.

Lemma updateSets_sound db : sound db -> sound (snd (updateSets db)).
Proof.
  intros [Hok Hn]. destruct (sets_tx_spec db Hok) as (_ & P & S & C).
  unfold store_ok in Hok. apply andb_true_iff in Hok as [[Hk _]%andb_true_iff Hi].
  split; simpl.
  - unfold store_ok. rewrite C. unfold keys_ok, sets_inhabited in *.
    assert (E : map s_id (map (agg_set db) (sets db)) = map s_id (sets db)).
    { rewrite map_map. by apply map_ext. }
    rewrite P, S, E, Hk. simpl. rewrite forallb_of_map. exact Hi.
  - unfold names_ok in *. rewrite P, S. etransitivity; [|exact Hn].
    apply forallb_eq. intros r. by rewrite existsb_of_map.
Qed.

Lemma link_sound db : sound db -> sound (link db).
Proof. intros Hs. by apply updateSets_sound, updatePhotoSiblings_sound. Qed.

Lemma walkPath_keeps_inv (Q : DB -> Prop) e db :
  (forall p d, Q d -> Q (snd (store p d))) -> Q db -> Q (walkPath e db).
Proof.
  intros Hstore HQ. unfold walkPath. destruct (w_err e); [exact HQ|].
  destruct (negb _); [exact HQ|]. destruct (decode _); [by apply Hstore | exact HQ].
Qed.

Lemma walk_all_keeps_inv (Q : DB -> Prop) paths db :
  (forall p d, Q d -> Q (snd (store p d))) -> Q db -> Q (walk_all paths db).
Proof.
  intros Hstore. unfold walk_all. revert db.
  induction paths as [|root paths IH]; intros db HQ; simpl; [exact HQ|].
  apply IH. generalize (filepath_Walk root). intros es. revert db HQ.
  induction es as [|e es IHe]; intros db HQ; simpl; [exact HQ|].
  by apply IHe, walkPath_keeps_inv.
Qed.

Lemma empty_sound : sound empty_db.
Proof. by split. Qed.

(** Every run of [Scan] leaves a sound store behind. *)
Lemma Scan_sound paths db : sound db -> sound (Scan paths db).
Proof. intros Hs. apply link_sound, walk_all_keeps_inv; [apply store_sound | exact Hs]. Qed.

Lemma store_no_links p db : no_links db = true -> no_links (snd (store p db)) = true.
Proof.
  intros Hl. rewrite store_eq. unfold no_links in *. simpl.
  destruct (has_photo (Path p) db); [exact Hl|].
  rewrite forallb_app, Hl. reflexivity.
Qed.

(** The first walk over an empty store leaves it sound and without links. *)
Lemma first_walk paths :
  keys_ok (walk_all paths empty_db) = true /\ no_links (walk_all paths empty_db) = true.
Proof.
  split.
  - assert (Hs : sound (walk_all paths empty_db)).
    { apply walk_all_keeps_inv; [apply store_sound | apply empty_sound]. }
    destruct Hs as [Hok _]. unfold store_ok in Hok.
    by apply andb_true_iff in Hok as [[Hk _]%andb_true_iff _].
  - by apply (walk_all_keeps_inv (fun d => no_links d = true)); [apply store_no_links|].
Qed.

End Invariants.

(** * The thumbnail cache and the worker *)

Section ThumbFacts.
Import Thumbs.
Context `{ThumbEnv}.

Lemma generateThumb_present photoPath thumbPath thumbSize crop w :
  is_Some (files w !! thumbPath) ->
  generateThumb photoPath thumbPath thumbSize crop w = (None, w).
Proof. intros [c Hc]. unfold generateThumb. by rewrite Hc. Qed.

Lemma generateThumb_absent photoPath thumbPath thumbSize crop w :
  files w !! thumbPath = None ->
  generateThumb photoPath thumbPath thumbSize crop w =
  (fst (vipsthumbnail (cmdArgs photoPath thumbPath thumbSize crop) (files w)),
   mkWorld (snd (vipsthumbnail (cmdArgs photoPath thumbPath thumbSize crop) (files w)))
           (runs w ++ [cmdArgs photoPath thumbPath thumbSize crop]) (log w) (bar w)).
Proof. intros Hc. unfold generateThumb. by rewrite Hc. Qed.

(** The tool runs that one call adds. *)
Lemma generateThumb_runs photoPath thumbPath thumbSize crop w :
  runs (snd (generateThumb photoPath thumbPath thumbSize crop w)) =
  runs w ++ (if files w !! thumbPath is Some _ then []
             else [cmdArgs photoPath thumbPath thumbSize crop]).
Proof.
  unfold generateThumb. destruct (files w !! thumbPath); simpl; [by rewrite app_nil_r | done].
Qed.

Lemma generateThumb_frame photoPath thumbPath thumbSize crop w :
  log (snd (generateThumb photoPath thumbPath thumbSize crop w)) = log w
  /\ bar (snd (generateThumb photoPath thumbPath thumbSize crop w)) = bar w.
Proof. unfold generateThumb. by destruct (files w !! thumbPath). Qed.

(** C4.  After a call that returned nil, the tool having left the thumb
    on disk if it ran, a second call for the same thumb finds the file,
    returns nil and changes nothing; the two calls together run the tool
    at most once. *)
Theorem generateThumb_memo photoPath thumbPath thumbSize crop w :
  fst (generateThumb photoPath thumbPath thumbSize crop w) = None ->
  (fst (vipsthumbnail (cmdArgs photoPath thumbPath thumbSize crop) (files w)) = None ->
   is_Some (snd (vipsthumbnail (cmdArgs photoPath thumbPath thumbSize crop) (files w))
            !! thumbPath)) ->
  generateThumb photoPath thumbPath thumbSize crop
                (snd (generateThumb photoPath thumbPath thumbSize crop w))
  = (None, snd (generateThumb photoPath thumbPath thumbSize crop w))
  /\ (length (runs (snd (generateThumb photoPath thumbPath thumbSize crop w)))
      <= S (length (runs w)))%nat.
Proof.
  intros Hok Htool. destruct (files w !! thumbPath) as [c|] eqn:Hc.
  - rewrite (generateThumb_present _ _ _ _ w) by eauto. simpl.
    split; [apply generateThumb_present; eauto | lia].
  - rewrite (generateThumb_absent _ _ _ _ w Hc) in Hok |- *. simpl in *.
    split; [|rewrite length_app; simpl; lia].
    apply generateThumb_present. simpl. by apply Htool.
Qed.

Lemma generateThumbs_steps thumbsPath photoPath w :
  generateThumbs thumbsPath photoPath w =
  let small := generateThumb (small_source thumbsPath photoPath w)
                             (smallThumbPathOf thumbsPath photoPath)
                             smallThumbSize true (after_big thumbsPath photoPath w) in
  match fst small with
  | None => (None, snd small)
  | Some err =>
      (Some err,
       println (failed_to_create (smallThumbPathOf thumbsPath photoPath) photoPath err)
               (snd small))
  end.
Proof. reflexivity. Qed.

Lemma after_big_disk thumbsPath photoPath w :
  files (after_big thumbsPath photoPath w)
  = files (snd (generateThumb photoPath (bigThumbPathOf thumbsPath photoPath)
                              bigThumbSize false w))
  /\ runs (after_big thumbsPath photoPath w)
     = runs (snd (generateThumb photoPath (bigThumbPathOf thumbsPath photoPath)
                                bigThumbSize false w)).
Proof. unfold after_big. cbv zeta. by destruct (fst (generateThumb _ _ _ _ _)). Qed.

Lemma cmdArgs_big photoPath thumbPath :
  cmdArgs photoPath thumbPath bigThumbSize false
  = [photoPath; "--rotate"; "--size"; "1000"; "--interpolator"; "bicubic";
     "--output"; thumbPath +:+ "[Q=97,no_subsample,strip]"].
Proof. reflexivity. Qed.

Lemma cmdArgs_small photoPath thumbPath :
  cmdArgs photoPath thumbPath smallThumbSize true
  = [photoPath; "--rotate"; "--size"; "200"; "--interpolator"; "bicubic";
     "--output"; thumbPath +:+ "[Q=97,no_subsample,strip]"; "--crop"].
Proof. reflexivity. Qed.

(** C8.  The small thumb is made from the big thumb when the big step
    returned nil and from the photo itself when it returned an error:
    after the runs of the big step, [generateThumbs] runs
    [vipsthumbnail] once more, unless the small thumb is already there,
    and the command line of that run starts with that source, followed
    by the options for a cropped thumb of 200 pixels written to the path
    of the small thumb; the result of [generateThumbs] and the files it
    leaves are those of that run. *)
Theorem generateThumbs_source thumbsPath photoPath w :
  let big := generateThumb photoPath (bigThumbPathOf thumbsPath photoPath)
                           bigThumbSize false w in
  let source := if fst big is None then bigThumbPathOf thumbsPath photoPath
                else photoPath in
  let args := [source; "--rotate"; "--size"; "200"; "--interpolator"; "bicubic";
               "--output";
               smallThumbPathOf thumbsPath photoPath +:+ "[Q=97,no_subsample,strip]";
               "--crop"] in
  let there := files (snd big) !! smallThumbPathOf thumbsPath photoPath in
  runs (snd (generateThumbs thumbsPath photoPath w))
  = runs (snd big) ++ (if there is Some _ then [] else [args])
  /\ fst (generateThumbs thumbsPath photoPath w)
     = (if there is Some _ then None else fst (vipsthumbnail args (files (snd big))))
  /\ files (snd (generateThumbs thumbsPath photoPath w))
     = (if there is Some _ then files (snd big)
        else snd (vipsthumbnail args (files (snd big)))).
Proof.
  cbv zeta. rewrite generateThumbs_steps. cbv zeta.
  destruct (after_big_disk thumbsPath photoPath w) as [Hf Hr].
  unfold small_source.
  set (big := generateThumb photoPath (bigThumbPathOf thumbsPath photoPath)
                            bigThumbSize false w) in *.
  set (source := match fst big with
                 | None => bigThumbPathOf thumbsPath photoPath
                 | Some _ => photoPath
                 end).
  rewrite <- (cmdArgs_small source (smallThumbPathOf thumbsPath photoPath)).
  unfold generateThumb. rewrite Hf.
  destruct (files (snd big) !! smallThumbPathOf thumbsPath photoPath) as [c|]; simpl.
  - by rewrite Hr, app_nil_r.
  - rewrite Hr. by destruct (fst (vipsthumbnail _ _)).
Qed.

(** ** Logging and progress *)

Lemma generateThumbs_bar thumbsPath photoPath w :
  bar (snd (generateThumbs thumbsPath photoPath w)) = bar w.
Proof.
  rewrite generateThumbs_steps. cbv zeta.
  destruct (generateThumb_frame (small_source thumbsPath photoPath w)
              (smallThumbPathOf thumbsPath photoPath) smallThumbSize true
              (after_big thumbsPath photoPath w)) as [_ Hb].
  assert (Ha : bar (after_big thumbsPath photoPath w) = bar w).
  { unfold after_big. cbv zeta.
    destruct (generateThumb_frame photoPath (bigThumbPathOf thumbsPath photoPath)
                bigThumbSize false w) as [_ Hb'].
    by destruct (fst (generateThumb photoPath _ _ _ w)). }
  destruct (fst (generateThumb (small_source _ _ _) _ _ _ _)); simpl; congruence.
Qed.

(** What a call returns, and the files and runs it leaves, depend on
    the files alone. *)
Lemma generateThumb_on_files photoPath thumbPath thumbSize crop w w' :
  files w = files w' ->
  fst (generateThumb photoPath thumbPath thumbSize crop w)
  = fst (generateThumb photoPath thumbPath thumbSize crop w')
  /\ files (snd (generateThumb photoPath thumbPath thumbSize crop w))
     = files (snd (generateThumb photoPath thumbPath thumbSize crop w')).
Proof.
  intros E. unfold generateThumb. rewrite E. by destruct (files w' !! thumbPath).
Qed.

Lemma small_step_fst thumbsPath photoPath w :
  fst (generateThumb (small_source thumbsPath photoPath w)
                     (smallThumbPathOf thumbsPath photoPath) smallThumbSize true
                     (after_big thumbsPath photoPath w))
  = fst (small_step thumbsPath photoPath w).
Proof.
  unfold small_step, big_step, small_source.
  apply generateThumb_on_files, after_big_disk.
Qed.

Lemma generateThumbs_log thumbsPath photoPath w :
  log (snd (generateThumbs thumbsPath photoPath w))
  = log w
    ++ (if fst (big_step thumbsPath photoPath w) is Some err
        then [failed_to_create (bigThumbPathOf thumbsPath photoPath) photoPath err] else [])
    ++ (if fst (small_step thumbsPath photoPath w) is Some err
        then [failed_to_create (smallThumbPathOf thumbsPath photoPath) photoPath err] else []).
Proof.
  rewrite <- small_step_fst. unfold big_step. rewrite generateThumbs_steps. cbv zeta.
  destruct (generateThumb_frame (small_source thumbsPath photoPath w)
              (smallThumbPathOf thumbsPath photoPath) smallThumbSize true
              (after_big thumbsPath photoPath w)) as [Hl _].
  assert (Ha : log (after_big thumbsPath photoPath w)
               = log w ++ (if fst (generateThumb photoPath (bigThumbPathOf thumbsPath photoPath)
                                                 bigThumbSize false w) is Some err
                           then [failed_to_create (bigThumbPathOf thumbsPath photoPath)
                                                  photoPath err] else [])).
  { unfold after_big. cbv zeta.
    destruct (generateThumb_frame photoPath (bigThumbPathOf thumbsPath photoPath)
                bigThumbSize false w) as [Hl' _].
    destruct (fst (generateThumb photoPath _ _ _ w)); simpl; rewrite Hl';
      [reflexivity | by rewrite app_nil_r]. }
  destruct (fst (generateThumb (small_source _ _ _) _ _ _ _)); simpl;
    rewrite Hl, Ha, <- ?app_assoc; [reflexivity | by rewrite app_nil_r].
Qed.

Lemma generateThumbs_runs thumbsPath photoPath w :
  runs (snd (generateThumbs thumbsPath photoPath w))
  = runs w
    ++ (if files w !! bigThumbPathOf thumbsPath photoPath is Some _ then []
        else [cmdArgs photoPath (bigThumbPathOf thumbsPath photoPath) bigThumbSize false])
    ++ (if files (snd (big_step thumbsPath photoPath w)) !! smallThumbPathOf thumbsPath photoPath
           is Some _ then []
        else [cmdArgs (if fst (big_step thumbsPath photoPath w) is None
                       then bigThumbPathOf thumbsPath photoPath else photoPath)
                      (smallThumbPathOf thumbsPath photoPath) smallThumbSize true]).
Proof.
  unfold big_step. rewrite generateThumbs_steps. cbv zeta.
  destruct (after_big_disk thumbsPath photoPath w) as [Hf Hr].
  set (small := generateThumb (small_source thumbsPath photoPath w)
                              (smallThumbPathOf thumbsPath photoPath) smallThumbSize true
                              (after_big thumbsPath photoPath w)).
  assert (E : runs (snd (match fst small with
                         | None => (None, snd small)
                         | Some err =>
                             (Some err,
                              println (failed_to_create (smallThumbPathOf thumbsPath photoPath)
                                                        photoPath err) (snd small))
                         end)) = runs (snd small)) by (by destruct (fst small)).
  rewrite E. unfold small. rewrite generateThumb_runs, Hf, Hr, generateThumb_runs.
  unfold small_source. by rewrite <- app_assoc.
Qed.

Lemma worker_app thumbsPath l1 l2 w :
  worker thumbsPath (l1 ++ l2) w = worker thumbsPath l2 (worker thumbsPath l1 w).
Proof. apply fold_left_app. Qed.

Lemma worker_bar thumbsPath paths : forall w,
  bar (worker thumbsPath paths w) = bar w + Z.of_nat (length paths).
Proof.
  induction paths as [|p paths IH]; intros w; [simpl; lia|].
  change (worker thumbsPath (p :: paths) w)
    with (worker thumbsPath paths (worker_step thumbsPath w p)).
  rewrite IH. unfold worker_step. simpl bar at 1. rewrite generateThumbs_bar.
  simpl length. lia.
Qed.

Lemma worker_log_grows thumbsPath paths : forall w,
  exists more, log (worker thumbsPath paths w) = log w ++ more.
Proof.
  induction paths as [|p paths IH]; intros w.
  - exists []. simpl. by rewrite app_nil_r.
  - change (worker thumbsPath (p :: paths) w)
      with (worker thumbsPath paths (worker_step thumbsPath w p)).
    destruct (IH (worker_step thumbsPath w p)) as [more Hm].
    rewrite Hm. unfold worker_step. simpl log at 1. rewrite generateThumbs_log.
    eexists. by rewrite <- !app_assoc.
Qed.

(** C9.  Whatever happened to the paths before it, a photo is worked
    off in full: [vipsthumbnail] is run for each of its two thumbs that
    is not on disk; for each of the two steps that returns an error the
    log receives the line
    [Failed to create <thumb path> for <photo path> with error: <error>]
    with that error; and the bar goes up by one, whether the steps
    failed or not.  The worker then goes on: the paths after the photo
    are worked off from the world the photo left, the log keeps its
    lines, and over the whole run the bar goes up by one per path. *)
Theorem worker_isolation thumbsPath before photoPath rest w :
  let w0 := worker thumbsPath before w in
  let bigPath := bigThumbPathOf thumbsPath photoPath in
  let smallPath := smallThumbPathOf thumbsPath photoPath in
  let big := generateThumb photoPath bigPath bigThumbSize false w0 in
  let source := if fst big is None then bigPath else photoPath in
  let small := generateThumb source smallPath smallThumbSize true (snd big) in
  let line := fun thumbPath err =>
    "Failed to create " +:+ thumbPath +:+ " for " +:+ photoPath
    +:+ " with error: " +:+ err in
  let lines :=
    (if fst big is Some err then [line bigPath err] else [])
    ++ (if fst small is Some err then [line smallPath err] else []) in
  let attempts :=
    (if files w0 !! bigPath is Some _ then []
     else [[photoPath; "--rotate"; "--size"; "1000"; "--interpolator"; "bicubic";
            "--output"; bigPath +:+ "[Q=97,no_subsample,strip]"]])
    ++ (if files (snd big) !! smallPath is Some _ then []
        else [[source; "--rotate"; "--size"; "200"; "--interpolator"; "bicubic";
               "--output"; smallPath +:+ "[Q=97,no_subsample,strip]"; "--crop"]]) in
  let w1 := worker thumbsPath (before ++ [photoPath]) w in
  runs w1 = runs w0 ++ attempts
  /\ log w1 = log w0 ++ lines
  /\ bar w1 = bar w0 + 1
  /\ worker thumbsPath (before ++ photoPath :: rest) w = worker thumbsPath rest w1
  /\ (exists more,
        log (worker thumbsPath (before ++ photoPath :: rest) w) = log w0 ++ lines ++ more)
  /\ bar (worker thumbsPath (before ++ photoPath :: rest) w)
     = bar w + Z.of_nat (length before) + 1 + Z.of_nat (length rest).
Proof.
  cbv zeta. rewrite !worker_app.
  change (worker thumbsPath [photoPath] (worker thumbsPath before w))
    with (worker_step thumbsPath (worker thumbsPath before w) photoPath).
  change (worker thumbsPath (photoPath :: rest) (worker thumbsPath before w))
    with (worker thumbsPath rest
            (worker_step thumbsPath (worker thumbsPath before w) photoPath)).
  set (w0 := worker thumbsPath before w).
  assert (Hr : runs (worker_step thumbsPath w0 photoPath)
               = runs (snd (generateThumbs thumbsPath photoPath w0))) by reflexivity.
  assert (Hl : log (worker_step thumbsPath w0 photoPath)
               = log (snd (generateThumbs thumbsPath photoPath w0))) by reflexivity.
  assert (Hb : bar (worker_step thumbsPath w0 photoPath) = bar w0 + 1).
  { unfold worker_step. simpl. by rewrite generateThumbs_bar. }
  rewrite generateThumbs_runs in Hr. rewrite generateThumbs_log in Hl.
  split; [exact Hr|]. split; [exact Hl|]. split; [exact Hb|]. split; [reflexivity|].
  split.
  - destruct (worker_log_grows thumbsPath rest (worker_step thumbsPath w0 photoPath))
      as [more Hm].
    exists more. rewrite Hm, Hl. by rewrite <- !app_assoc.
  - rewrite worker_bar, Hb. unfold w0. rewrite worker_bar. lia.
Qed.

End ThumbFacts.

Section ScanRuns.
Import Photos.
Context `{ScanEnv}.

(** ** The aggregate phase leaves photos, set keys and set names alone *)

Lemma updateSet_frame c t thumb id db db' :
  updateSetStmt c t thumb id db = Ok db' ->
  photos db' = photos db /\ map set_key (sets db') = map set_key (sets db).
Proof.
  unfold updateSetStmt. destruct (unique_conflict _ _ _ _ _); [discriminate|].
  intros [= <-]. simpl. split; [reflexivity|].
  rewrite map_map. apply map_ext. intros s. by destruct (s_id s =? id).
Qed.

Lemma sets_loop_frame rows : forall t,
  photos (tx_db (sets_loop rows t)) = photos (tx_db t)
  /\ map set_key (sets (tx_db (sets_loop rows t))) = map set_key (sets (tx_db t))
  /\ length (tx_results (sets_loop rows t)) = (length (tx_results t) + length rows)%nat.
Proof.
  induction rows as [|[[id setId] takenAt] rows IH]; intros t; simpl.
  - repeat split; lia.
  - destruct (IH (exec_dropped (updateSetStmt (photosCountStmt setId (tx_db t)) takenAt id setId) t))
      as (I1 & I2 & I3).
    rewrite I1, I2, I3. unfold exec_dropped.
    destruct (updateSetStmt _ _ _ _ _) as [db'|e] eqn:E; simpl.
    + destruct (updateSet_frame _ _ _ _ _ _ E) as [-> ->].
      rewrite length_app. simpl. repeat split; lia.
    + rewrite length_app. simpl. repeat split; lia.
Qed.

Lemma link_frame db :
  map p_cols (photos (link db)) = map p_cols (photos db)
  /\ map set_key (sets (link db)) = map set_key (sets db).
Proof.
  unfold link. simpl.
  destruct (sets_loop_frame (sets_rows (tx_db (siblings_tx db))) (begin (tx_db (siblings_tx db))))
    as (P & S & _).
  unfold sets_tx. rewrite P, S. simpl.
  destruct (updatePhotoSiblings_kept db) as [Hs Hp]. simpl in Hs, Hp.
  rewrite Hs. split; [|reflexivity].
  apply (map_kept (map p_id (photos db))); [|exact Hp]. by intros r r' (_ & _ & K & _).
Qed.

Lemma has_photo_cols x db db' :
  map p_cols (photos db') = map p_cols (photos db) -> has_photo x db' = has_photo x db.
Proof.
  intros E. unfold has_photo.
  assert (E1 : forall l, existsb (fun r => String.eqb (p_path r) x) l
                         = existsb (fun c => String.eqb (Path c) x) (map p_cols l)).
  { intros l. by rewrite existsb_of_map. }
  by rewrite !E1, E.
Qed.

Lemma has_set_keys n db db' :
  map set_key (sets db') = map set_key (sets db) -> has_set n db' = has_set n db.
Proof.
  intros E. unfold has_set.
  assert (E1 : forall l, existsb (fun s => String.eqb (s_name s) n) l
                         = existsb (fun k => String.eqb (snd k) n) (map set_key l)).
  { intros l. by rewrite existsb_of_map. }
  by rewrite !E1, E.
Qed.

Lemma entry_known_link e db : entry_known e (link db) = entry_known e db.
Proof.
  destruct (link_frame db) as [Hp Hs]. unfold entry_known.
  destruct (w_err e); [reflexivity|]. destruct (negb _); [reflexivity|].
  destruct (decode _) as [p|]; [|reflexivity].
  by rewrite (has_photo_cols _ _ _ Hp), (has_set_keys _ _ _ Hs).
Qed.

(** C1.  Running the scanner again over an unchanged tree adds and changes
    nothing: neither right after the first walk nor after the linker has
    run on its result. *)
Theorem scan_idempotent paths db :
  walk_all paths (walk_all paths db) = walk_all paths db
  /\ walk_all paths (Scan paths db) = Scan paths db.
Proof.
  assert (K : forallb (fun e => entry_known e (walk_all paths db))
                      (concat (map filepath_Walk paths)) = true).
  { rewrite walk_all_flat. apply walk_entries_known. }
  split.
  - rewrite (walk_all_flat paths (walk_all paths db)). by apply walk_entries_noop.
  - unfold Scan. rewrite (walk_all_flat paths (link _)). apply walk_entries_noop.
    etransitivity; [|exact K]. apply forallb_eq. intros e. apply entry_known_link.
Qed.

End ScanRuns.

Section LinkerFacts.
Import Photos.

Lemma run_all_app us vs db : run_all (us ++ vs) db = run_all vs (run_all us db).
Proof.
  revert db. induction us as [|u us IH]; intros db; simpl; [reflexivity|].
  destruct (run_update u db); apply IH.
Qed.

Lemma errors_of_app us vs db :
  errors_of (us ++ vs) db = errors_of us db ++ errors_of vs (run_all us db).
Proof.
  revert db. induction us as [|u us IH]; intros db; simpl; [reflexivity|].
  destruct (run_update u db); simpl; by rewrite IH.
Qed.

Lemma failures_snoc db l o :
  failures (mkTx db (l ++ [o])) = failures (mkTx db l) ++ (if o is Some e then [e] else []).
Proof.
  unfold failures. simpl. rewrite omap_app. by destruct o.
Qed.

(** One [Exec] whose result is thrown away is one step of [run_all]. *)
Lemma exec_dropped_run u t :
  tx_db (exec_dropped (run_update u) t) = run_all [u] (tx_db t)
  /\ failures (exec_dropped (run_update u) t) = failures t ++ errors_of [u] (tx_db t).
Proof.
  unfold exec_dropped. simpl. destruct (run_update u (tx_db t)) as [db'|e]; simpl.
  - split; [reflexivity|]. rewrite failures_snoc. by destruct t.
  - split; [reflexivity|]. rewrite failures_snoc. by destruct t.
Qed.

Lemma siblings_loop_run rows : forall prevId prevSetId t,
  tx_db (siblings_loop rows prevId prevSetId t)
  = run_all (siblings_updates rows prevId prevSetId) (tx_db t)
  /\ failures (siblings_loop rows prevId prevSetId t)
     = failures t ++ errors_of (siblings_updates rows prevId prevSetId) (tx_db t).
Proof.
  induction rows as [|[id setId] rows IH]; intros prevId prevSetId t.
  { simpl. by rewrite app_nil_r. }
  cbn [siblings_loop siblings_updates]. rewrite run_all_app, errors_of_app.
  destruct ((setId =? prevSetId) && (0 <? prevId)).
  - destruct (exec_dropped_run (SetPrev prevId id) t) as [D1 F1].
    destruct (exec_dropped_run (SetNext id prevId)
                (exec_dropped (run_update (SetPrev prevId id)) t)) as [D2 F2].
    cbn [run_update] in D1, F1, D2, F2.
    destruct (IH id setId (exec_dropped (updateNextPhotoStmt id prevId)
                             (exec_dropped (updatePrevPhotoStmt prevId id) t))) as [-> ->].
    rewrite D2, F2, D1, F1.
    change [SetPrev prevId id; SetNext id prevId]
      with ([SetPrev prevId id] ++ [SetNext id prevId]).
    rewrite run_all_app, errors_of_app, <- !app_assoc. by split.
  - destruct (IH id setId t) as [-> ->]. simpl. by split.
Qed.

Lemma updateSet_photos c t thumb id db :
  photos (run_all [SetAggregates c t thumb id] db) = photos db.
Proof.
  simpl. unfold updateSetStmt. by destruct (unique_conflict _ _ _ _ _).
Qed.

Lemma sets_loop_run db0 rows : forall t,
  photos (tx_db t) = photos db0 ->
  tx_db (sets_loop rows t)
  = run_all (map (fun row => SetAggregates (photosCountStmt (snd (fst row)) db0) (snd row)
                                           (fst (fst row)) (snd (fst row))) rows)
            (tx_db t)
  /\ failures (sets_loop rows t)
     = failures t
       ++ errors_of (map (fun row => SetAggregates (photosCountStmt (snd (fst row)) db0)
                                                   (snd row) (fst (fst row)) (snd (fst row)))
                         rows)
                    (tx_db t).
Proof.
  induction rows as [|[[id setId] takenAt] rows IH]; intros t Hp.
  { simpl. by rewrite app_nil_r. }
  cbn [sets_loop map fst snd].
  assert (Hc : photosCountStmt setId (tx_db t) = photosCountStmt setId db0).
  { unfold photosCountStmt. by rewrite Hp. }
  rewrite Hc.
  set (u := SetAggregates (photosCountStmt setId db0) takenAt id setId).
  destruct (exec_dropped_run u t) as [D F]. cbn [run_update u] in D, F.
  destruct (IH (exec_dropped (updateSetStmt (photosCountStmt setId db0) takenAt id setId) t))
    as [-> ->].
  { rewrite D. unfold u. by rewrite updateSet_photos. }
  rewrite D, F.
  change (u :: map ?f rows) with ([u] ++ map f rows).
  rewrite run_all_app, errors_of_app, <- app_assoc. by split.
Qed.

End LinkerFacts.

Section LinkerRuns.
Import Photos.
Context `{ScanEnv}.

(** C3, as the code has it.  Neither phase has an abort path.  The
    sibling phase returns nil and commits the store that its UPDATEs
    leave when they are run one after the other with their errors
    discarded; so does the aggregate phase; the errors are met and
    dropped.  For each UPDATE of a phase: whatever happened to the ones
    before it, it is executed on the store they left, it leaves that
    store as it is when it fails, and the ones after it run on what it
    leaves.  [Scan] looks at neither result and runs the aggregate phase
    on whatever the sibling phase committed. *)
Theorem linker_never_aborts db :
  let links := siblings_updates (siblings_rows db) 0 0 in
  let aggregates := sets_updates db in
  updatePhotoSiblings db = (None, run_all links db)
  /\ failures (siblings_tx db) = errors_of links db
  /\ updateSets db = (None, run_all aggregates db)
  /\ failures (sets_tx db) = errors_of aggregates db
  /\ (forall before u after, links = before ++ u :: after ->
        snd (updatePhotoSiblings db)
        = run_all after (match run_update u (run_all before db) with
                         | Ok db' => db'
                         | Err _ => run_all before db
                         end))
  /\ (forall before u after, aggregates = before ++ u :: after ->
        snd (updateSets db)
        = run_all after (match run_update u (run_all before db) with
                         | Ok db' => db'
                         | Err _ => run_all before db
                         end))
  /\ (forall paths,
        Scan paths db
        = let db0 := walk_all paths db in
          let db1 := run_all (siblings_updates (siblings_rows db0) 0 0) db0 in
          run_all (sets_updates db1) db1).
Proof.
  cbv zeta.
  assert (S1 : forall d, updatePhotoSiblings d
                         = (None, run_all (siblings_updates (siblings_rows d) 0 0) d)).
  { intros d. unfold updatePhotoSiblings, siblings_tx.
    by destruct (siblings_loop_run (siblings_rows d) 0 0 (begin d)) as [-> _]. }
  assert (S2 : forall d, updateSets d = (None, run_all (sets_updates d) d)).
  { intros d. unfold updateSets, sets_tx.
    by destruct (sets_loop_run d (sets_rows d) (begin d) eq_refl) as [-> _]. }
  assert (Step : forall before u after d,
            run_all (before ++ u :: after) d
            = run_all after (match run_update u (run_all before d) with
                             | Ok db' => db'
                             | Err _ => run_all before d
                             end)).
  { intros before u after d. rewrite run_all_app. simpl.
    by destruct (run_update u (run_all before d)). }
  split; [apply S1|]. split.
  { unfold siblings_tx.
    by destruct (siblings_loop_run (siblings_rows db) 0 0 (begin db)) as [_ ->]. }
  split; [apply S2|]. split.
  { unfold sets_tx.
    by destruct (sets_loop_run db (sets_rows db) (begin db) eq_refl) as [_ ->]. }
  split; [|split].
  - intros before u after E. rewrite S1, E. apply Step.
  - intros before u after E. rewrite S2, E. apply Step.
  - intros paths. unfold Scan, link. by rewrite S1, S2.
Qed.

End LinkerRuns.

Section ReadingOrder.
Import Photos.

(** C7, as the code has it.  The photos are read by set, then by capture
    time with the photos that have none first; photos with equal keys
    keep the order of the table. *)
Theorem siblings_query_order db :
  Permutation (siblings_query db) (photos db)
  /\ StronglySorted read_before (siblings_query db)
  /\ forall r, List.filter (same_key r) (siblings_query db)
               = List.filter (same_key r) (photos db).
Proof.
  split; [apply siblings_query_perm|]. split.
  - eapply (sorted_on (le_prop siblings_le) _ (fun _ => True));
      [| |apply siblings_query_sorted].
    + intros a b _ _ [Hlt|[He Hle]]%siblings_le_spec; [by left|]. right.
      split; [exact He|]. unfold taken_le in Hle.
      destruct (p_taken_at a), (p_taken_at b); try done.
    + apply List.Forall_forall. auto.
  - intros r. apply order_by_stable; [apply siblings_le_total|apply siblings_le_trans|].
    intros a b [_ Ha]%andb_true_iff [Hb _]%andb_true_iff.
    eapply siblings_le_trans; eauto.
Qed.

(** C10.  The sibling phase changes nothing but links, and a link it
    changes becomes the id of a photo of the table: none is set back to
    NULL. *)
Theorem siblings_only_links db :
  sets (snd (updatePhotoSiblings db)) = sets db
  /\ Forall2 (fun r r' =>
                p_id r' = p_id r /\ p_set_id r' = p_set_id r /\ p_cols r' = p_cols r
                /\ (prev_photo_id r' = prev_photo_id r
                    \/ exists q, In q (photos db) /\ prev_photo_id r' = Some (p_id q))
                /\ (next_photo_id r' = next_photo_id r
                    \/ exists q, In q (photos db) /\ next_photo_id r' = Some (p_id q))
                /\ (prev_photo_id r <> None -> prev_photo_id r' <> None)
                /\ (next_photo_id r <> None -> next_photo_id r' <> None))
             (photos db) (photos (snd (updatePhotoSiblings db))).
Proof.
  destruct (updatePhotoSiblings_kept db) as [Hs Hp]. split; [exact Hs|].
  eapply Forall2_impl; [exact Hp|]. intros r r' (K1 & K2 & K3 & K4 & K5).
  assert (L : forall o o', link_kept (map p_id (photos db)) o o' ->
                (o' = o \/ exists q, In q (photos db) /\ o' = Some (p_id q))
                /\ (o <> None -> o' <> None)).
  { intros o o' [->|(v & (q & <- & Hq)%in_map_iff & ->)]; split; eauto; congruence. }
  destruct (L _ _ K4) as [A1 A2]. destruct (L _ _ K5) as [B1 B2]. auto 10.
Qed.

End ReadingOrder.

Section WorkedStores.
Import Photos Examples.

Lemma last_in {A : Type} (l : list A) x : last l = Some x -> In x l.
Proof. intros [l' ->]%last_Some. rewrite in_app_iff. right. by left. Qed.

(** C2 fails as worded.  With an undated photo in the set, the walk back
    from the latest photo does not stop at the earliest: it runs on into
    the undated photo.  On a second run, after a photo taken between two
    linked ones was added, the new photo gets no previous link (the
    UPDATE hits the UNIQUE index on the stale link and its error is
    dropped), so the walk back from the latest stops early. *)
Lemma chain_claim_fails : ~ chain_claim db_untimed 1 /\ ~ chain_claim db_grown 1.
Proof.
  split.
  - intros C. destruct C as (seq & first & lst & fuel & Hperm & _ & _ & Hlast & _ & Hprev);
      [vm_compute; lia|].
    assert (Hlen : length (rev (map p_id seq)) = 2%nat).
    { by rewrite length_rev, List.length_map, (Permutation_length Hperm). }
    assert (Hids : forall x, In x (rev (map p_id seq)) -> x = 1 \/ x = 2).
    { intros x Hx%in_rev. eapply Permutation_in in Hx; [|apply Permutation_map, Hperm].
      vm_compute in Hx. intuition. }
    apply last_in in Hlast. eapply Permutation_in in Hlast; [|exact Hperm].
    revert Hprev Hlen Hids. generalize (rev (map p_id seq)). intros ids Hprev Hlen Hids.
    vm_compute in Hlast. destruct Hlast as [<-|[<-|[]]].
    + destruct fuel as [|[|fuel]]; vm_compute in Hprev; try discriminate.
      injection Hprev as <-. destruct (Hids 3); [simpl; auto|lia|lia].
    + destruct fuel as [|[|[|fuel]]]; vm_compute in Hprev; try discriminate.
      injection Hprev as <-. discriminate.
  - intros C. destruct C as (seq & first & lst & fuel & Hperm & _ & _ & Hlast & _ & Hprev);
      [vm_compute; lia|].
    assert (Hlen : length (rev (map p_id seq)) = 3%nat).
    { by rewrite length_rev, List.length_map, (Permutation_length Hperm). }
    apply last_in in Hlast. eapply Permutation_in in Hlast; [|exact Hperm].
    revert Hprev Hlen. generalize (rev (map p_id seq)). intros ids Hprev Hlen.
    vm_compute in Hlast. destruct Hlast as [<-|[<-|[<-|[]]]].
    + destruct fuel as [|fuel]; vm_compute in Hprev; try discriminate.
      injection Hprev as <-. discriminate.
    + destruct fuel as [|[|fuel]]; vm_compute in Hprev; try discriminate.
      injection Hprev as <-. discriminate.
    + destruct fuel as [|fuel]; vm_compute in Hprev; try discriminate.
      injection Hprev as <-. discriminate.
Qed.

(** C3 fails as worded.  On the second run a write of the sibling phase
    fails, yet the phase returns nil and the other writes stay. *)
Lemma abort_claim_fails : ~ abort_claim db_grown.
Proof.
  intros C. destruct C as [E _]; [vm_compute; discriminate|]. by apply E.
Qed.

(** C7 fails as worded.  The undated photo is read first, not last. *)
Lemma nulls_last_fails :
  ~ StronglySorted (le_prop claimed_le) (siblings_query db_untimed).
Proof.
  intros S. vm_compute in S. inversion S as [|? ? _ F]. inversion F as [|? ? Hna _].
  vm_compute in Hna. discriminate.
Qed.

(** C5 on that store: three photos, earliest capture time [T1]. *)
Lemma sets_aggregates_witness :
  store_ok db_untimed = true /\ In vacation (sets (snd (updateSets db_untimed)))
  /\ photos_count vacation = Some 3
  /\ forall r t, In r (photos_of 1 (snd (updateSets db_untimed))) ->
       p_taken_at r = Some t -> String.leb T1 t = true.
Proof.
  assert (Hin : In vacation (sets (snd (updateSets db_untimed)))) by (left; reflexivity).
  destruct (sets_aggregates db_untimed vacation eq_refl Hin) as (Hc & _ & Hm).
  split; [reflexivity|]. split; [exact Hin|]. split; [exact Hc|].
  exact (proj2 (Hm T1 eq_refl)).
Defined.

(** C6 on that store: the cover is a photo of the set. *)
Lemma sets_cover_witness :
  store_ok db_untimed = true /\ In vacation (sets (snd (updateSets db_untimed)))
  /\ exists c, thumb_photo_id vacation = Some (p_id c)
               /\ In c (photos_of 1 (snd (updateSets db_untimed))).
Proof.
  assert (Hin : In vacation (sets (snd (updateSets db_untimed)))) by (left; reflexivity).
  destruct (sets_cover db_untimed vacation eq_refl Hin) as (c & Hc & Hm & _).
  split; [reflexivity|]. split; [exact Hin|]. exists c. split; [exact Hc | exact Hm].
Defined.

End WorkedStores.

Section WorkedThumbs.
Import Thumbs ThumbExamples.

(** C4 with the copying tool: the second call finds the thumb. *)
Lemma generateThumb_memo_witness :
  fst (@generateThumb studio Examples.a_jpg "/t/big.jpg" 1000 false disk) = None
  /\ @generateThumb studio Examples.a_jpg "/t/big.jpg" 1000 false
       (snd (@generateThumb studio Examples.a_jpg "/t/big.jpg" 1000 false disk))
     = (None, snd (@generateThumb studio Examples.a_jpg "/t/big.jpg" 1000 false disk)).
Proof.
  split; [reflexivity|].
  apply (@generateThumb_memo studio Examples.a_jpg "/t/big.jpg" 1000 false disk).
  - reflexivity.
  - intros _. vm_compute. by eexists.
Defined.

End WorkedThumbs.

(** * The catalogue: what the scanner adds and what it keeps *)

Section Catalogue.
Import Photos.
Context `{ScanEnv}.

Lemma find_app_none {A : Type} (f : A -> bool) l x :
  existsb f l = false -> List.find f (l ++ [x]) = if f x then Some x else None.
Proof.
  induction l as [|y l IH]; simpl; [done|].
  destruct (f y); [discriminate|]. exact IH.
Qed.

Lemma next_rowid_fresh {R : Type} (key : R -> Z) (rows : list R) :
  existsb (fun r => key r =? next_rowid (map key rows)) rows = false.
Proof.
  apply not_true_is_false. intros (r & Hr & E)%existsb_exists.
  apply Z.eqb_eq in E.
  pose proof (next_rowid_above (map key rows)) as Ha.
  rewrite List.Forall_forall in Ha. specialize (Ha (key r) (in_map key _ _ Hr)). lia.
Qed.

Lemma numeric_plain v : plain_float v = true -> numeric v = v.
Proof. by destruct v as [[[]| | |]|]. Qed.

Lemma stored_plain p : plain p = true -> stored p = p.
Proof.
  unfold plain. rewrite !andb_true_iff. intros [[[[H1 H2] H3] H4] H5].
  unfold stored. rewrite !numeric_plain by done. by destruct p.
Qed.

(** X1.  A photo whose path is new is found again after [store]: the
    path lookup yields the key of a row that holds the columns given as
    the table stores them (the text and integer columns as they are, a
    [decimal] column with NULL for a NaN and the zero without its sign),
    so exactly the columns given when no float among them is a NaN or
    the negative zero; the row has no links yet, and is filed under the
    set that the lookup by the name of the photo's directory yields. *)
Theorem store_lookup p db :
  has_photo (Path p) db = false ->
  exists id r,
    selectPhotoStmt (Path p) (snd (store p db)) = Some id
    /\ photo_by_id id (snd (store p db)) = Some r
    /\ p_cols r = stored p
    /\ (plain p = true -> p_cols r = p)
    /\ prev_photo_id r = None /\ next_photo_id r = None
    /\ selectSetStmt (set_name_of p) (snd (store p db)) = Some (p_set_id r).
Proof.
  intros Hp. rewrite store_eq, Hp. simpl.
  set (row := mkPhotoRow _ _ None None (stored p)).
  exists (p_id row), row.
  split.
  { unfold selectPhotoStmt. simpl. rewrite (find_app_none _ _ _ Hp).
    unfold p_path at 1. simpl. by rewrite String.eqb_refl. }
  split.
  { unfold photo_by_id. simpl.
    by rewrite (find_app_none _ _ _ (next_rowid_fresh p_id (photos db))), Z.eqb_refl. }
  split; [reflexivity|]. split; [apply stored_plain|].
  do 2 (split; [reflexivity|]).
  simpl. unfold set_id_for.
  destruct (has_set (set_name_of p) db) eqn:Hs.
  - destruct (selectSet_some _ _ Hs) as [i Hi]. rewrite Hi. exact Hi.
  - rewrite (proj2 (selectSet_none _ _) Hs). unfold selectSetStmt. simpl.
    rewrite (find_app_none _ _ _ Hs). simpl. by rewrite String.eqb_refl.
Qed.

Lemma store_appends p db :
  exists ss ps,
    sets (snd (store p db)) = sets db ++ ss
    /\ photos (snd (store p db)) = photos db ++ ps
    /\ Forall (fun r => p_cols r = stored p
                         /\ prev_photo_id r = None /\ next_photo_id r = None) ps.
Proof.
  rewrite store_eq. simpl.
  destruct (has_set _ db), (has_photo _ db); eexists _, _;
    (split; [|split]); try reflexivity; try (symmetry; apply app_nil_r);
    repeat constructor.
Qed.

Lemma decode_path path p : decode path = Ok p -> Path p = path.
Proof.
  unfold decode. destruct (read_photo path); [|discriminate]. by intros [= <-].
Qed.

Lemma walkPath_appends e db :
  exists ss ps,
    sets (walkPath e db) = sets db ++ ss
    /\ photos (walkPath e db) = photos db ++ ps
    /\ Forall (from_entry [e]) ps.
Proof.
  assert (Same : exists ss ps, sets db = sets db ++ ss /\ photos db = photos db ++ ps
                               /\ Forall (from_entry [e]) ps).
  { exists [], []. by rewrite !app_nil_r. }
  unfold walkPath. destruct (w_err e) eqn:Ee; [exact Same|].
  destruct (isPhoto (w_path e) (w_is_dir e)) eqn:Ei; [|exact Same]. simpl.
  destruct (decode (w_path e)) as [photo|] eqn:Ed; [|exact Same].
  destruct (store_appends photo db) as (ss & ps & Hs & Hp & Hf).
  exists ss, ps. split; [exact Hs|]. split; [exact Hp|].
  eapply Forall_impl; [exact Hf|]. intros r (Hc & Hpr & Hnx).
  exists e. unfold isPhoto in Ei.
  destruct (w_is_dir e); [discriminate|].
  destruct (String.eqb _ "image/jpeg") eqn:Em; [|discriminate].
  apply String.eqb_eq in Em.
  split; [by left|]. do 3 (split; [done|]).
  split; [by exists photo|]. split; [|done].
  unfold p_path. rewrite Hc. simpl. by apply decode_path.
Qed.

Lemma from_entry_mono es es' r :
  (forall e, In e es -> In e es') -> from_entry es r -> from_entry es' r.
Proof. intros Hsub (e & Hin & Hrest). exists e. split; [by apply Hsub | exact Hrest]. Qed.

Lemma walk_entries_appends es : forall db,
  exists ss ps,
    sets (walk_entries es db) = sets db ++ ss
    /\ photos (walk_entries es db) = photos db ++ ps
    /\ Forall (from_entry es) ps.
Proof.
  induction es as [|e es IH]; intros db; simpl.
  - exists [], []. by rewrite !app_nil_r.
  - destruct (walkPath_appends e db) as (s1 & p1 & Hs1 & Hp1 & Hf1).
    destruct (IH (walkPath e db)) as (s2 & p2 & Hs2 & Hp2 & Hf2).
    exists (s1 ++ s2), (p1 ++ p2).
    unfold walk_entries in *. simpl. rewrite Hs2, Hp2, Hs1, Hp1, !app_assoc.
    do 2 (split; [reflexivity|]). apply Forall_app. split.
    + eapply Forall_impl; [exact Hf1|]. intros r. apply from_entry_mono.
      intros x [<-|[]]. by left.
    + eapply Forall_impl; [exact Hf2|]. intros r. apply from_entry_mono.
      intros x Hx. by right.
Qed.

(** X2.  The walk only appends, and only photos: every row it adds to
    [photos] stems from an entry of the walk of one of the roots that
    carries no error, is not a directory, has a JPEG extension and was
    decoded; the row holds what [decode] returned, as the table stores
    it, under the path of the entry, and has no links. *)
Theorem walk_adds_photos_only paths db :
  exists added,
    photos (walk_all paths db) = photos db ++ added
    /\ Forall (fun r =>
                 exists root e,
                   In root paths /\ In e (filepath_Walk root)
                   /\ w_err e = None /\ w_is_dir e = false
                   /\ mime_TypeByExtension (filepath_Ext (w_path e)) = "image/jpeg"
                   /\ (exists photo, decode (w_path e) = Ok photo
                                     /\ p_cols r = stored photo)
                   /\ p_path r = w_path e
                   /\ prev_photo_id r = None /\ next_photo_id r = None) added.
Proof.
  rewrite walk_all_flat.
  destruct (walk_entries_appends (concat (map filepath_Walk paths)) db)
    as (ss & ps & _ & Hp & Hf).
  exists ps. split; [exact Hp|].
  eapply Forall_impl; [exact Hf|]. intros r (e & Hin & Hrest).
  apply in_concat in Hin as (l & (root & <- & Hroot)%in_map_iff & He).
  exists root, e. auto.
Qed.

(** X3.  [Scan] never deletes and never re-files: the sets it leaves
    start with the sets it met, each with its key and name, and the
    photos it leaves start with the photos it met, each with its key, its
    set and the columns read from its file. *)
Theorem Scan_keeps_catalogue paths db :
  exists more_sets more_photos,
    map set_key (sets (Scan paths db)) = map set_key (sets db) ++ more_sets
    /\ map photo_key (photos (Scan paths db)) = map photo_key (photos db) ++ more_photos.
Proof.
  unfold Scan. set (db1 := walk_all paths db).
  assert (Hw : exists ss ps, sets db1 = sets db ++ ss /\ photos db1 = photos db ++ ps).
  { unfold db1. rewrite walk_all_flat.
    destruct (walk_entries_appends (concat (map filepath_Walk paths)) db)
      as (ss & ps & Hs & Hp & _). eauto. }
  destruct Hw as (ss & ps & Hs & Hp).
  exists (map set_key ss), (map photo_key ps).
  destruct (link_frame db1) as [_ Hk]. rewrite Hk, Hs, map_app. split; [reflexivity|].
  rewrite <- map_app, <- Hp.
  unfold link. simpl.
  destruct (sets_loop_frame (sets_rows (tx_db (siblings_tx db1))) (begin (tx_db (siblings_tx db1))))
    as (P & _ & _).
  unfold sets_tx. rewrite P. simpl.
  destruct (updatePhotoSiblings_kept db1) as [_ Hkept]. simpl in Hkept.
  apply (map_kept (map p_id (photos db1))); [|exact Hkept].
  intros r r' (K1 & K2 & K3 & _). unfold photo_key. by rewrite K1, K2, K3.
Qed.

(** X4.  Every entry of the walk that carries no error, passes [isPhoto]
    and decodes is in the catalogue when [Scan] returns: its path is
    found in [photos] and the name of its directory in [sets]. *)
Theorem Scan_catalogues paths db root e photo :
  In root paths -> In e (filepath_Walk root) ->
  w_err e = None -> isPhoto (w_path e) (w_is_dir e) = true ->
  decode (w_path e) = Ok photo ->
  is_Some (selectPhotoStmt (w_path e) (Scan paths db))
  /\ is_Some (selectSetStmt (filepath_Base (filepath_Dir (w_path e))) (Scan paths db)).
Proof.
  intros Hroot He Herr Hph Hdec.
  assert (Hin : In e (concat (map filepath_Walk paths))).
  { apply in_concat. exists (filepath_Walk root). split; [|exact He]. by apply in_map. }
  pose proof (walk_entries_known (concat (map filepath_Walk paths)) db) as K.
  rewrite forallb_forall in K. specialize (K e Hin).
  rewrite <- walk_all_flat in K.
  rewrite <- (entry_known_link e (walk_all paths db)) in K.
  change (link (walk_all paths db)) with (Scan paths db) in K.
  unfold entry_known in K. rewrite Herr, Hph, Hdec in K. simpl in K.
  apply andb_true_iff in K as [Ks Kp].
  rewrite (decode_path _ _ Hdec) in Kp.
  unfold set_name_of in Ks. rewrite (decode_path _ _ Hdec) in Ks.
  split.
  - destruct (selectPhoto_some _ _ Kp) as [i ->]. by eexists.
  - destruct (selectSet_some _ _ Ks) as [i ->]. by eexists.
Qed.

End Catalogue.

(** * Roots and directory names *)

Section Roots.
Import Photos.
Context `{ScanEnv}.

Lemma walk_all_app paths paths' db :
  walk_all (paths ++ paths') db = walk_all paths' (walk_all paths db).
Proof. unfold walk_all. by rewrite fold_left_app. Qed.

(** X5.  A root whose walk only meets entries that the walks of the
    other roots meet as well adds nothing: scanning it after them leaves
    the store that scanning them alone leaves. *)
Theorem Scan_overlapping_roots paths root db :
  (forall e, In e (filepath_Walk root) ->
     exists root', In root' paths /\ In e (filepath_Walk root')) ->
  Scan (paths ++ [root]) db = Scan paths db.
Proof.
  intros Hsub. unfold Scan. f_equal. rewrite walk_all_app.
  rewrite (walk_all_flat [root]). simpl. rewrite app_nil_r.
  apply walk_entries_noop. apply forallb_forall. intros e He.
  destruct (Hsub e He) as (root' & Hroot & He').
  pose proof (walk_entries_known (concat (map filepath_Walk paths)) db) as K.
  rewrite forallb_forall in K. rewrite walk_all_flat. apply K.
  apply in_concat. exists (filepath_Walk root'). split; [by apply in_map | exact He'].
Qed.

(** X6.  Sets go by the base name of the directory alone: two new
    photos whose directories have the same base name are filed under one
    set, whatever lies above those directories. *)
Theorem same_name_same_set p1 p2 db :
  set_name_of p1 = set_name_of p2 ->
  has_photo (Path p1) db = false ->
  has_photo (Path p2) (snd (store p1 db)) = false ->
  exists r1 r2,
    photos (snd (store p2 (snd (store p1 db)))) = photos db ++ [r1; r2]
    /\ p_cols r1 = stored p1 /\ p_cols r2 = stored p2
    /\ p_set_id r1 = p_set_id r2
    /\ selectSetStmt (set_name_of p1) (snd (store p2 (snd (store p1 db))))
       = Some (p_set_id r1).
Proof.
  intros Hn H1 H2.
  destruct (store_has p1 db) as [Hs1 _].
  set (db1 := snd (store p1 db)) in *.
  assert (E1 : photos db1 = photos db ++ [mkPhotoRow (next_rowid (map p_id (photos db)))
                                            (set_id_for (set_name_of p1) db) None None
                                            (stored p1)]).
  { unfold db1. rewrite store_eq. simpl. by rewrite H1. }
  assert (Eid : selectSetStmt (set_name_of p1) db1 = Some (set_id_for (set_name_of p1) db)).
  { unfold db1. rewrite store_eq. simpl. unfold set_id_for.
    destruct (has_set (set_name_of p1) db) eqn:Hs.
    - destruct (selectSet_some _ _ Hs) as [i Hi]. rewrite Hi. exact Hi.
    - rewrite (proj2 (selectSet_none _ _) Hs). unfold selectSetStmt. simpl.
      rewrite (find_app_none _ _ _ Hs). simpl. by rewrite String.eqb_refl. }
  eexists _, _. rewrite (store_eq p2 db1). simpl. rewrite H2, <- Hn, Hs1, E1.
  rewrite <- app_assoc. simpl.
  split; [reflexivity|]. do 2 (split; [reflexivity|]). simpl.
  unfold set_id_for at 2. rewrite Eid. split; [reflexivity|].
  unfold selectSetStmt in *. simpl. exact Eid.
Qed.

End Roots.

(** * Linking again *)

Section Relink.
Import Photos.

(** Previous and next links written by the loop are inverse to each
    other. *)
Lemma abs_inverse rows : forall pid ps P N,
  List.NoDup (pid :: map fst rows) ->
  (forall x v, P x = Some v <-> N v = Some x) ->
  (forall v x, N v = Some x -> ~ In x (map fst rows)) ->
  (forall x v, P x = Some v -> v <> pid /\ ~ In v (map fst rows)) ->
  forall x v, abs_prev rows pid ps P x = Some v <-> abs_next rows pid ps N v = Some x.
Proof.
  induction rows as [|[id s] rows IH]; intros pid ps P N Hnd I1 I2 I3 x v; simpl.
  { apply I1. }
  apply (proj1 (List.NoDup_cons_iff _ _)) in Hnd as [Hpn Hnd].
  pose proof Hnd as Hnd'.
  apply (proj1 (List.NoDup_cons_iff _ _)) in Hnd' as [Hidn _].
  assert (Hne : pid <> id) by (intros ->; apply Hpn; by left).
  assert (Hpr : ~ In pid (map fst rows)) by (intros Hin; apply Hpn; by right).
  destruct ((s =? ps) && (0 <? pid)).
  - apply IH; [exact Hnd| | |].
    + intros y w. unfold upd. split.
      * destruct (Z.eqb_spec y id) as [->|Hy].
        -- intros [= <-]. by rewrite Z.eqb_refl.
        -- intros Hp. destruct (I3 _ _ Hp) as [Hw _].
           destruct (Z.eqb_spec w pid); [done|]. by apply I1.
      * destruct (Z.eqb_spec w pid) as [->|Hw].
        -- intros [= <-]. by rewrite Z.eqb_refl.
        -- intros Hn. pose proof (I2 _ _ Hn) as Hy.
           destruct (Z.eqb_spec y id) as [->|]; [exfalso; apply Hy; by left|].
           by apply I1.
    + intros w y. unfold upd. destruct (Z.eqb_spec w pid) as [->|Hw].
      * by intros [= <-].
      * intros Hn Hin. apply (I2 _ _ Hn). by right.
    + intros y w. unfold upd. destruct (Z.eqb_spec y id) as [->|Hy].
      * intros [= <-]. split; [lia | exact Hpr].
      * intros Hp. destruct (I3 _ _ Hp) as [_ Hw]. split.
        -- intros ->. apply Hw. by left.
        -- intros Hin. apply Hw. by right.
  - apply IH; [exact Hnd | exact I1 | |].
    + intros w y Hn Hin. apply (I2 _ _ Hn). by right.
    + intros y w Hp. destruct (I3 _ _ Hp) as [_ Hw]. split.
      * intros ->. apply Hw. by left.
      * intros Hin. apply Hw. by right.
Qed.

Lemma abs_links_inverse rows x v :
  List.NoDup (map fst rows) -> (forall p, In p rows -> 0 < fst p) ->
  abs_prev rows 0 0 (fun _ => None) x = Some v <-> abs_next rows 0 0 (fun _ => None) v = Some x.
Proof.
  intros Hnd Hpos. apply abs_inverse; try done.
  apply List.NoDup_cons; [|exact Hnd].
  intros (p & Hp & Hin)%in_map_iff. specialize (Hpos p Hin). lia.
Qed.

Lemma written_suffix rest : forall l1 a sa P N,
  List.NoDup (map fst (l1 ++ (a, sa) :: rest)) ->
  (forall p, In p (l1 ++ (a, sa) :: rest) -> 0 < fst p) ->
  (forall x, P x = abs_prev (l1 ++ (a, sa) :: rest) 0 0 (fun _ => None) x) ->
  (forall x, N x = abs_next (l1 ++ (a, sa) :: rest) 0 0 (fun _ => None) x) ->
  written rest a sa P N.
Proof.
  induction rest as [|[b sb] rest IH]; intros l1 a sa P N Hnd Hpos HP HN; simpl; [done|].
  assert (Ha : 0 < a).
  { apply (Hpos (a, sa)). apply in_app_iff. right. by left. }
  split.
  - destruct (Z.eqb_spec sb sa) as [->|Hs]; simpl; [|done].
    destruct (Z.ltb_spec 0 a); [|lia]. split.
    + rewrite HP, (abs_prev_link l1 0 0 (fun _ => None) a sa b sa rest Hnd Ha). by rewrite Z.eqb_refl.
    + rewrite HN, (abs_next_link l1 0 0 (fun _ => None) a sa b sa rest Hnd); [|lia|exact Ha].
      by rewrite Z.eqb_refl.
  - apply (IH (l1 ++ [(a, sa)])); rewrite <- ?app_assoc; simpl; auto.
Qed.

Lemma written_rows rows P N :
  List.NoDup (map fst rows) -> (forall p, In p rows -> 0 < fst p) ->
  (forall x, P x = abs_prev rows 0 0 (fun _ => None) x) ->
  (forall x, N x = abs_next rows 0 0 (fun _ => None) x) ->
  written rows 0 0 P N.
Proof.
  intros Hnd Hpos HP HN. destruct rows as [|[a sa] rest]; simpl; [done|].
  split.
  - rewrite andb_false_r. done.
  - by apply (written_suffix rest [] a sa).
Qed.

Lemma photo_by_id_self r db :
  List.NoDup (map p_id (photos db)) -> In r (photos db) -> photo_by_id (p_id r) db = Some r.
Proof.
  intros Hnd Hin. destruct (photo_by_id_in r db Hin) as [r' E]. rewrite E. f_equal.
  apply photo_by_id_key in E as [Hk Hin'].
  by apply (nodup_key_inj (photos db)).
Qed.

Lemma map_id_on {A : Type} (f : A -> A) l : (forall x, In x l -> f x = x) -> map f l = l.
Proof.
  induction l as [|x l IH]; intros Hf; simpl; [done|].
  rewrite Hf by (by left). f_equal. apply IH. intros y Hy. apply Hf. by right.
Qed.

(** An UPDATE that writes the link a row holds already, where no other
    row holds it, succeeds and changes nothing. *)
Lemma updatePrevPhoto_same v id db :
  List.NoDup (map p_id (photos db)) ->
  prev_of db id = Some v ->
  (forall r, In r (photos db) -> prev_photo_id r = Some v -> p_id r = id) ->
  updatePrevPhotoStmt v id db = Ok db.
Proof.
  intros Hnd Hv Hinj. unfold updatePrevPhotoStmt.
  rewrite unique_conflict_other.
  2:{ intros r Hr Hk E. by apply Hk, Hinj. }
  f_equal. destruct db as [ss ps]. simpl in *. f_equal. apply map_id_on.
  intros r Hr. destruct (Z.eqb_spec (p_id r) id) as [E|]; [|done].
  unfold prev_of in Hv. subst id.
  rewrite (photo_by_id_self r (mkDB ss ps) Hnd Hr) in Hv. simpl in Hv.
  destruct r. simpl in *. by subst.
Qed.

Lemma updateNextPhoto_same v id db :
  List.NoDup (map p_id (photos db)) ->
  next_of db id = Some v ->
  (forall r, In r (photos db) -> next_photo_id r = Some v -> p_id r = id) ->
  updateNextPhotoStmt v id db = Ok db.
Proof.
  intros Hnd Hv Hinj. unfold updateNextPhotoStmt.
  rewrite unique_conflict_other.
  2:{ intros r Hr Hk E. by apply Hk, Hinj. }
  f_equal. destruct db as [ss ps]. simpl in *. f_equal. apply map_id_on.
  intros r Hr. destruct (Z.eqb_spec (p_id r) id) as [E|]; [|done].
  unfold next_of in Hv. subst id.
  rewrite (photo_by_id_self r (mkDB ss ps) Hnd Hr) in Hv. simpl in Hv.
  destruct r. simpl in *. by subst.
Qed.

(** The loop over a store that holds every link it is about to write,
    each in one row only: every UPDATE succeeds and the store stays as it
    is. *)
Lemma siblings_loop_fix db rows : forall pid ps t,
  tx_db t = db ->
  List.NoDup (map p_id (photos db)) ->
  written rows pid ps (prev_of db) (next_of db) ->
  (forall x y v, prev_of db x = Some v -> prev_of db y = Some v -> x = y) ->
  (forall x y v, next_of db x = Some v -> next_of db y = Some v -> x = y) ->
  tx_db (siblings_loop rows pid ps t) = db
  /\ failures (siblings_loop rows pid ps t) = failures t.
Proof.
  intros pid ps t Ht Hnd Hw Hpi Hni. revert pid ps t Ht Hw.
  assert (Hrow : forall r, In r (photos db) ->
            prev_of db (p_id r) = prev_photo_id r /\ next_of db (p_id r) = next_photo_id r).
  { intros r Hr. unfold prev_of, next_of. by rewrite (photo_by_id_self r db Hnd Hr). }
  induction rows as [|[id s] rows IH]; intros pid ps t Ht Hw; simpl; [done|].
  destruct Hw as [Hnow Hw].
  destruct ((s =? ps) && (0 <? pid)); [|by apply IH].
  destruct Hnow as [Hp Hn].
  assert (E1 : updatePrevPhotoStmt pid id (tx_db t) = Ok db).
  { rewrite Ht. apply updatePrevPhoto_same; [exact Hnd | exact Hp|].
    intros r Hr E. destruct (Hrow r Hr) as [Hr1 _]. rewrite <- Hr1 in E.
    by apply (Hpi _ _ _ E Hp). }
  rewrite (exec_dropped_ok _ t _ E1).
  set (t1 := mkTx db _).
  assert (E2 : updateNextPhotoStmt id pid (tx_db t1) = Ok db).
  { simpl. apply updateNextPhoto_same; [exact Hnd | exact Hn|].
    intros r Hr E. destruct (Hrow r Hr) as [_ Hr2]. rewrite <- Hr2 in E.
    by apply (Hni _ _ _ E Hn). }
  rewrite (exec_dropped_ok _ t1 _ E2).
  set (t2 := mkTx db _).
  destruct (IH id s t2 eq_refl Hw) as [I1 I2]. split; [exact I1|].
  rewrite I2. unfold t2. rewrite failures_ok. unfold t1. by rewrite failures_ok.
Qed.

(** Sorting rows that differ in their links only. *)
Lemma insert_row_kept ids x x' l l' :
  row_kept ids x x' -> Forall2 (row_kept ids) l l' ->
  Forall2 (row_kept ids) (insert_row siblings_le x l) (insert_row siblings_le x' l').
Proof.
  intros Hx Hl. induction Hl as [|y y' l l' Hy Hl IH]; simpl.
  - constructor; [exact Hx | constructor].
  - assert (E : siblings_le x' y' = siblings_le x y).
    { destruct Hx as (_ & X2 & X3 & _), Hy as (_ & Y2 & Y3 & _).
      unfold siblings_le, p_taken_at. by rewrite X2, X3, Y2, Y3. }
    rewrite E. destruct (siblings_le x y).
    + constructor; [exact Hx|]. by constructor.
    + by constructor.
Qed.

Lemma order_by_kept ids l l' :
  Forall2 (row_kept ids) l l' ->
  Forall2 (row_kept ids) (order_by siblings_le l) (order_by siblings_le l').
Proof.
  induction 1; simpl; [constructor|]. by apply insert_row_kept.
Qed.

Lemma siblings_rows_kept ids db db' :
  Forall2 (row_kept ids) (photos db) (photos db') -> siblings_rows db' = siblings_rows db.
Proof.
  intros Hk. unfold siblings_rows, siblings_query.
  apply (map_kept ids); [|by apply order_by_kept].
  intros r r' (K1 & K2 & _). by rewrite K1, K2.
Qed.

(** On the store that the sibling phase leaves when it met no links, the
    phase writes what is there: nothing fails, nothing changes. *)
Lemma siblings_again db db' :
  keys_ok db = true -> no_links db = true ->
  photos db' = photos (snd (updatePhotoSiblings db)) ->
  snd (updatePhotoSiblings db') = db' /\ failures (siblings_tx db') = [].
Proof.
  intros Hk Hl Hph.
  destruct (siblings_tx_free db Hk Hl) as (_ & Hsome & HP & HN & Hnd & Hpos).
  destruct (updatePhotoSiblings_kept db) as [_ Hkept]. simpl in Hkept, Hph.
  assert (Hrows : siblings_rows db' = siblings_rows db).
  { apply (siblings_rows_kept (map p_id (photos db))). by rewrite Hph. }
  assert (Hids : List.NoDup (map p_id (photos db'))).
  { rewrite Hph.
    rewrite (map_kept (map p_id (photos db)) p_id _ _ (fun r r' K => proj1 K) Hkept).
    unfold keys_ok in Hk. apply andb_true_iff in Hk as [_ Hk].
    by apply ascending_from_spec in Hk as (_ & Hn & _). }
  assert (HP' : forall x, prev_of db' x = abs_prev (siblings_rows db) 0 0 (fun _ => None) x).
  { intros x. rewrite <- HP. unfold prev_of, photo_by_id. by rewrite Hph. }
  assert (HN' : forall x, next_of db' x = abs_next (siblings_rows db) 0 0 (fun _ => None) x).
  { intros x. rewrite <- HN. unfold next_of, photo_by_id. by rewrite Hph. }
  destruct (siblings_loop_fix db' (siblings_rows db') 0 0 (begin db') eq_refl Hids) as [F1 F2].
  - rewrite Hrows. by apply written_rows.
  - intros x y v Hx Hy. rewrite HP' in Hx, Hy.
    apply (abs_links_inverse _ _ _ Hnd Hpos) in Hx, Hy. congruence.
  - intros x y v Hx Hy. rewrite HN' in Hx, Hy.
    apply (abs_links_inverse _ _ _ Hnd Hpos) in Hx, Hy. congruence.
  - split; [exact F1 | exact F2].
Qed.

End Relink.

(** * Runs of [Scan] *)

Section Reruns.
Import Photos.
Context `{ScanEnv}.

Lemma photos_of_same k db db' : photos db' = photos db -> photos_of k db' = photos_of k db.
Proof. intros E. unfold photos_of. by rewrite E. Qed.

Lemma agg_set_same db db' s :
  photos db' = photos db -> agg_set db' (agg_set db s) = agg_set db s.
Proof.
  intros E. unfold agg_set, photosCountStmt. simpl.
  rewrite (photos_of_same _ _ _ E). unfold photos_of. by rewrite E.
Qed.

(** The aggregate phase run again on what it left. *)
Lemma updateSets_again db :
  store_ok db = true -> snd (updateSets (snd (updateSets db))) = snd (updateSets db).
Proof.
  intros Hok.
  destruct (sets_tx_spec db Hok) as (_ & P & S & C).
  set (db1 := snd (updateSets db)).
  assert (Hok1 : store_ok db1 = true).
  { unfold db1. simpl. unfold store_ok in *.
    apply andb_true_iff in Hok as [[Hk _]%andb_true_iff Hi].
    rewrite C. unfold keys_ok, sets_inhabited in *.
    assert (E : map s_id (map (agg_set db) (sets db)) = map s_id (sets db)).
    { rewrite map_map. by apply map_ext. }
    rewrite P, S, E, Hk. simpl. rewrite forallb_of_map. exact Hi. }
  destruct (sets_tx_spec db1 Hok1) as (_ & P1 & S1 & _).
  simpl. change (tx_db (sets_tx db)) with db1.
  destruct (tx_db (sets_tx db1)) as [ss ps] eqn:E1. simpl in P1, S1. subst ss ps.
  assert (Pd : photos db1 = photos db) by exact P.
  assert (Sd : sets db1 = map (agg_set db) (sets db)) by exact S.
  destruct db1 as [ss1 ps1]. simpl in *. f_equal.
  rewrite Sd, map_map. apply map_ext. intros s. apply agg_set_same. simpl. exact Pd.
Qed.

(** Both phases run again on the result of a first run that met no
    links. *)
Lemma link_again db :
  sound db -> no_links db = true -> link (link db) = link db.
Proof.
  intros Hs Hl.
  assert (Hk : keys_ok db = true).
  { destruct Hs as [Hok _]. unfold store_ok in Hok.
    by apply andb_true_iff in Hok as [[Hk _]%andb_true_iff _]. }
  pose proof (updatePhotoSiblings_sound db Hs) as [Hok1 _].
  set (db1 := snd (updatePhotoSiblings db)) in *.
  destruct (sets_tx_spec db1 Hok1) as (_ & P & _).
  assert (Hfix : snd (updatePhotoSiblings (link db)) = link db).
  { apply (siblings_again db (link db) Hk Hl). exact P. }
  unfold link at 1. rewrite Hfix. unfold link. fold db1. by apply updateSets_again.
Qed.

Lemma walk_again paths db : walk_all paths (link (walk_all paths db)) = link (walk_all paths db).
Proof.
  rewrite (walk_all_flat paths (link _)). apply walk_entries_noop.
  etransitivity; [|apply (walk_entries_known (concat (map filepath_Walk paths)) db)].
  rewrite <- walk_all_flat. apply forallb_eq. intros e. apply entry_known_link.
Qed.

Lemma walked_sound paths : sound (walk_all paths empty_db).
Proof. apply walk_all_keeps_inv; [apply store_sound | apply empty_sound]. Qed.

(** X7.  A second [Scan] of an unchanged tree, after a first one that
    started from the empty store, leaves the whole store as it is: rows,
    sibling links and set aggregates. *)
Theorem Scan_twice paths :
  Scan paths (Scan paths empty_db) = Scan paths empty_db.
Proof.
  unfold Scan. rewrite walk_again. apply link_again.
  - apply walked_sound.
  - apply first_walk.
Qed.

(** X8.  The first [Scan] over an empty store meets no failing
    statement: none of the UPDATEs of the sibling phase and none of the
    UPDATEs of the aggregate phase trips a UNIQUE index. *)
Theorem first_Scan_clean paths :
  failures (siblings_tx (walk_all paths empty_db)) = []
  /\ failures (sets_tx (snd (updatePhotoSiblings (walk_all paths empty_db)))) = [].
Proof.
  destruct (first_walk paths) as [Hk Hl].
  split; [by apply siblings_tx_free|].
  pose proof (updatePhotoSiblings_sound _ (walked_sound paths)) as [Hok _].
  by apply sets_tx_spec.
Qed.

(** X9.  On a store whose keys ascend, whose covers lie in their sets
    and whose sets all have a photo, no UPDATE of the aggregate phase
    fails, whatever aggregates and covers the sets held before: one
    UPDATE is run for every set that has a photo, and each succeeds. *)
Theorem updateSets_clean db :
  store_ok db = true ->
  failures (sets_tx db) = []
  /\ length (tx_results (sets_tx db)) = length (group_keys (photos db)).
Proof.
  intros Hok. destruct (sets_tx_spec db Hok) as (F & _).
  split; [exact F|].
  unfold sets_tx.
  destruct (sets_loop_frame (sets_rows db) (begin db)) as (_ & _ & ->).
    simpl. unfold sets_rows. by rewrite List.length_map.
Qed.

(** The store invariant in words. *)
Lemma sound_spec db :
  sound db ->
  StronglySorted Z.lt (map s_id (sets db))
  /\ StronglySorted Z.lt (map p_id (photos db))
  /\ (forall r, In r (photos db) ->
        exists s, In s (sets db) /\ s_id s = p_set_id r
                  /\ s_name s = filepath_Base (filepath_Dir (p_path r)))
  /\ (forall s, In s (sets db) -> exists r, In r (photos db) /\ p_set_id r = s_id s).
Proof.
  intros [Hok Hn].
  pose proof (store_ok_spec db Hok) as (_ & _ & _ & Hinh).
  unfold store_ok in Hok. apply andb_true_iff in Hok as [[Hk _]%andb_true_iff _].
  unfold keys_ok in Hk. apply andb_true_iff in Hk as [Hks Hkp].
  apply ascending_from_spec in Hks as (_ & _ & Hks).
  apply ascending_from_spec in Hkp as (_ & _ & Hkp).
  split; [exact Hks|]. split; [exact Hkp|]. split; [|exact Hinh].
  intros r Hr. by apply names_ok_spec.
Qed.

(** X10.  [Scan] keeps the store sound: started on a store where keys
    ascend, covers lie in their sets, every set has a photo and every
    photo is filed under a set named after its directory, it leaves such
    a store; there every photo refers to exactly one existing set. *)
Theorem Scan_keeps_store_sound paths db :
  store_ok db = true -> names_ok db = true ->
  store_ok (Scan paths db) = true /\ names_ok (Scan paths db) = true
  /\ StronglySorted Z.lt (map s_id (sets (Scan paths db)))
  /\ StronglySorted Z.lt (map p_id (photos (Scan paths db)))
  /\ (forall r, In r (photos (Scan paths db)) ->
        exists s, In s (sets (Scan paths db)) /\ s_id s = p_set_id r
                  /\ s_name s = filepath_Base (filepath_Dir (p_path r)))
  /\ (forall s, In s (sets (Scan paths db)) ->
        exists r, In r (photos (Scan paths db)) /\ p_set_id r = s_id s).
Proof.
  intros Hok Hn.
  assert (Hs : sound (Scan paths db)) by (by apply Scan_sound).
  split; [apply Hs|]. split; [apply Hs|]. by apply sound_spec.
Qed.

(** Counting the rows of every group once counts every row whose group
    is among the keys. *)
Lemma count_groups (keys : list Z) (rows : list photo_row) :
  List.NoDup keys ->
  (forall r, In r rows -> In (p_set_id r) keys) ->
  fold_right Z.add 0 (map (fun k => Z.of_nat (length (List.filter (in_set k) rows))) keys)
  = Z.of_nat (length rows).
Proof.
  intros Hnd. induction rows as [|r rows IH]; intros Hin.
  - clear Hnd Hin. induction keys as [|k keys IHk]; simpl; [reflexivity|].
    simpl in IHk. by rewrite IHk.
  - specialize (IH (fun x Hx => Hin x (or_intror Hx))).
    specialize (Hin r (or_introl eq_refl)).
    assert (E : forall ks, List.NoDup ks ->
              fold_right Z.add 0
                (map (fun k => Z.of_nat (length (List.filter (in_set k) (r :: rows)))) ks)
              = fold_right Z.add 0
                  (map (fun k => Z.of_nat (length (List.filter (in_set k) rows))) ks)
                + (if existsb (Z.eqb (p_set_id r)) ks then 1 else 0)).
    { clear. induction ks as [|k ks IHk]; intros Hnd; [reflexivity|].
      apply (proj1 (List.NoDup_cons_iff _ _)) in Hnd as [Hk Hnd].
      cbn [map fold_right existsb]. rewrite (IHk Hnd). cbn [List.filter].
      unfold in_set at 1.
      destruct (Z.eqb_spec (p_set_id r) k) as [<-|Hne].
      - assert (Hno : existsb (Z.eqb (p_set_id r)) ks = false).
        { apply not_true_is_false. intros (x & Hx & E%Z.eqb_eq)%existsb_exists.
          by subst. }
        rewrite Hno. cbn [length orb]. lia.
      - cbn [orb]. destruct (existsb _ ks); lia. }
    rewrite (E keys Hnd), IH.
    assert (Hex : existsb (Z.eqb (p_set_id r)) keys = true).
    { apply existsb_exists. exists (p_set_id r). split; [exact Hin | apply Z.eqb_refl]. }
    rewrite Hex. simpl length. lia.
Qed.

(** X11.  After the aggregate phase on a sound store the photo counts of
    the sets add up to the number of photos: every photo is counted in
    one set and in one only. *)
Theorem photos_count_total db :
  store_ok db = true -> names_ok db = true ->
  counted (sets (snd (updateSets db))) = Z.of_nat (length (photos db)).
Proof.
  intros Hok Hn. destruct (sets_tx_spec db Hok) as (_ & _ & S & _).
  simpl. rewrite S. unfold counted. rewrite map_map. simpl.
  unfold photosCountStmt.
  rewrite <- (count_groups (map s_id (sets db)) (photos db)).
  - by rewrite map_map.
  - unfold store_ok in Hok. apply andb_true_iff in Hok as [[Hk _]%andb_true_iff _].
    unfold keys_ok in Hk. apply andb_true_iff in Hk as [Hks _].
    by apply ascending_from_spec in Hks as (_ & Hnd & _).
  - intros r Hr. destruct (names_ok_spec db r Hn Hr) as (s & Hs & <- & _).
    by apply in_map.
Qed.

(** Paths and names stay unique. *)
Lemma has_photo_in x db : has_photo x db = false -> ~ In x (map p_path (photos db)).
Proof.
  intros Hf (r & <- & Hr)%in_map_iff.
  assert (has_photo (p_path r) db = true); [|congruence].
  apply existsb_exists. exists r. split; [exact Hr | apply String.eqb_refl].
Qed.

Lemma has_set_in n db : has_set n db = false -> ~ In n (map s_name (sets db)).
Proof.
  intros Hf (s & <- & Hs)%in_map_iff.
  assert (has_set (s_name s) db = true); [|congruence].
  apply existsb_exists. exists s. split; [exact Hs | apply String.eqb_refl].
Qed.

Lemma nodup_snoc {A : Type} (l : list A) x :
  List.NoDup l -> ~ In x l -> List.NoDup (l ++ [x]).
Proof.
  intros Hnd Hx. induction l as [|y l IH]; simpl.
  - constructor; [by intros []|constructor].
  - apply (proj1 (List.NoDup_cons_iff _ _)) in Hnd as [Hy Hnd].
    constructor.
    + rewrite in_app_iff. intros [Hin|[->|[]]]; [by apply Hy|]. apply Hx. by left.
    + apply IH; [exact Hnd|]. intros Hin. apply Hx. by right.
Qed.

Lemma store_unique p db : unique_names db -> unique_names (snd (store p db)).
Proof.
  intros [Hs Hp]. rewrite store_eq. unfold unique_names. simpl. split.
  - destruct (has_set _ db) eqn:E; [exact Hs|]. rewrite map_app. simpl.
    by apply nodup_snoc, has_set_in.
  - destruct (has_photo _ db) eqn:E; [exact Hp|]. rewrite map_app. simpl.
    by apply nodup_snoc, has_photo_in.
Qed.

(** X12.  [Scan] keeps set names and photo paths unique: no directory
    name gets a second set and no file a second row. *)
Theorem Scan_keeps_names_unique paths db :
  List.NoDup (map s_name (sets db)) -> List.NoDup (map p_path (photos db)) ->
  List.NoDup (map s_name (sets (Scan paths db)))
  /\ List.NoDup (map p_path (photos (Scan paths db))).
Proof.
  intros Hs Hp.
  assert (Hw : unique_names (walk_all paths db)).
  { apply (walk_all_keeps_inv unique_names); [apply store_unique | by split]. }
  destruct Hw as [Hws Hwp]. destruct (link_frame (walk_all paths db)) as [Lp Ls].
  unfold Scan. split.
  - assert (E : forall l, map s_name l = map snd (map set_key l)).
    { intros l. rewrite map_map. by apply map_ext. }
    by rewrite E, Ls, <- E.
  - assert (E : forall l, map p_path l = map Path (map p_cols l)).
    { intros l. rewrite map_map. by apply map_ext. }
    by rewrite E, Lp, <- E.
Qed.

End Reruns.

(** * The links of a first run *)

Section FirstLinks.
Import Photos.

(** X13.  After the sibling phase on a store without links, previous and
    next links are inverse to each other: a photo names [v] as its
    predecessor exactly when [v] names it as its successor. *)
Theorem first_links_inverse db x v :
  keys_ok db = true -> no_links db = true ->
  prev_of (snd (updatePhotoSiblings db)) x = Some v
  <-> next_of (snd (updatePhotoSiblings db)) v = Some x.
Proof.
  intros Hk Hl. destruct (siblings_tx_free db Hk Hl) as (_ & _ & HP & HN & Hnd & Hpos).
  simpl. rewrite HP, HN. by apply abs_links_inverse.
Qed.

Lemma Forall2_in_l {A B : Type} (R : A -> B -> Prop) l l' x :
  Forall2 R l l' -> In x l -> exists y, In y l' /\ R x y.
Proof.
  induction 1 as [|a b l l' Hab Hl IH]; intros Hin; [done|].
  destruct Hin as [<-|Hin].
  - exists b. split; [by left | done].
  - destruct (IH Hin) as (y & Hy & Hr). exists y. split; [by right | done].
Qed.

Lemma Forall2_in_r {A B : Type} (R : A -> B -> Prop) l l' y :
  Forall2 R l l' -> In y l' -> exists x, In x l /\ R x y.
Proof.
  induction 1 as [|a b l l' Hab Hl IH]; intros Hin; [done|].
  destruct Hin as [<-|Hin].
  - exists a. split; [by left | done].
  - destruct (IH Hin) as (x & Hx & Hr). exists x. split; [by right | done].
Qed.

Lemma last_snoc_inv {A : Type} (l : list A) z : last l = Some z -> exists l', l = l' ++ [z].
Proof.
  induction l as [|a l IH]; [done|]. destruct l as [|b l].
  - intros [= <-]. by exists [].
  - intros Hl. destruct (IH Hl) as [l' ->]. by exists (a :: l').
Qed.

Lemma last_of_map {A B : Type} (f : A -> B) l : last (map f l) = f <$> last l.
Proof.
  induction l as [|a l IH]; [done|]. destruct l as [|b l]; [done|]. exact IH.
Qed.

Lemma sorted_app_r {A : Type} (R : A -> A -> Prop) l1 l2 :
  StronglySorted R (l1 ++ l2) -> StronglySorted R l2.
Proof.
  induction l1 as [|a l1 IH]; simpl; [done|]. intros Hs. apply IH.
  by apply StronglySorted_inv in Hs as [? _].
Qed.

(** X14.  After the sibling phase on a store without links, a previous
    link never leaves the set and never points forward in time: the
    photo it names is a photo of the same set whose capture time is not
    later (a photo without capture time counting as earliest). *)
Theorem first_links_inside_sets db r v :
  keys_ok db = true -> no_links db = true ->
  In r (photos (snd (updatePhotoSiblings db))) -> prev_photo_id r = Some v ->
  exists q,
    In q (photos (snd (updatePhotoSiblings db)))
    /\ p_id q = v /\ p_set_id q = p_set_id r
    /\ taken_le (p_taken_at q) (p_taken_at r) = true.
Proof.
  intros Hk Hl Hr Hv.
  destruct (updatePhotoSiblings_kept db) as [_ Hkept].
  set (db' := snd (updatePhotoSiblings db)) in *.
  destruct (Forall2_in_r _ _ _ _ Hkept Hr) as (r0 & Hr0 & K1 & K2 & K3 & _).
  set (k := p_set_id r0).
  assert (Hids : List.NoDup (map p_id (photos db'))).
  { rewrite (map_kept (map p_id (photos db)) p_id _ _ (fun a b K => proj1 K) Hkept).
    unfold keys_ok in Hk. apply andb_true_iff in Hk as [_ Hk].
    by apply ascending_from_spec in Hk as (_ & Hn & _). }
  assert (Hprev : prev_of db' (p_id r) = Some v).
  { unfold prev_of. by rewrite (photo_by_id_self r db' Hids Hr). }
  assert (Hin : In r0 (chain_of k db)).
  { unfold chain_of. apply filter_In. split.
    - eapply Permutation_in; [symmetry; apply siblings_query_perm | exact Hr0].
    - unfold in_set, k. apply Z.eqb_refl. }
  apply in_split in Hin as (c1 & c2 & Hc).
  pose proof (chain_linked db k Hk Hl) as Hlk.
  change (tx_db (siblings_tx db)) with db' in Hlk.
  rewrite Hc, map_app in Hlk. simpl in Hlk.
  apply linked_front in Hlk. rewrite <- K1, Hprev in Hlk.
  destruct (last (map p_id c1)) as [z|] eqn:Hz; [|discriminate].
  injection Hlk as ->.
  rewrite last_of_map in Hz.
  destruct (last c1) as [q0|] eqn:Hq0; [|discriminate]. injection Hz as <-.
  destruct (last_snoc_inv _ _ Hq0) as [c1' ->].
  assert (Hq0c : In q0 (chain_of k db)).
  { rewrite Hc. apply in_app_iff. left. apply in_app_iff. right. by left. }
  pose proof Hq0c as Hq0f. unfold chain_of in Hq0f.
  apply filter_In in Hq0f as [Hq0s Hq0k].
  assert (Hq0p : In q0 (photos db)).
  { eapply Permutation_in; [apply siblings_query_perm | exact Hq0s]. }
  destruct (Forall2_in_l _ _ _ _ Hkept Hq0p) as (q & Hq & Q1 & Q2 & Q3 & _).
  exists q. split; [exact Hq|]. split; [exact Q1|]. split.
  - rewrite Q2, K2. unfold in_set in Hq0k. fold k. lia.
  - unfold p_taken_at. rewrite Q3, K3.
    pose proof (chain_sorted db k) as Hs. fold (chain_of k db) in Hs.
    rewrite Hc, <- app_assoc in Hs. simpl in Hs.
    apply sorted_app_r in Hs. apply StronglySorted_inv in Hs as [_ Hall].
    rewrite List.Forall_forall in Hall. apply Hall. by left.
Qed.

End FirstLinks.

(** * Linking a store whose links are in reading order *)

Section RelinkInOrder.
Import Photos.

Lemma updatePrevPhoto_ok v id db :
  (forall r, In r (photos db) -> p_id r <> id -> prev_photo_id r <> Some v) ->
  updatePrevPhotoStmt v id db = Ok (with_photos db (put_prev v id)).
Proof.
  intros Hfree. unfold updatePrevPhotoStmt. by rewrite unique_conflict_other.
Qed.

Lemma updateNextPhoto_ok v id db :
  (forall r, In r (photos db) -> p_id r <> id -> next_photo_id r <> Some v) ->
  updateNextPhotoStmt v id db = Ok (with_photos db (put_next v id)).
Proof.
  intros Hfree. unfold updateNextPhotoStmt. by rewrite unique_conflict_other.
Qed.

Lemma with_photos_ids db f :
  (forall r, p_id (f r) = p_id r) ->
  map p_id (photos (with_photos db f)) = map p_id (photos db).
Proof. intros Hf. unfold with_photos. simpl. rewrite map_map. by apply map_ext. Qed.

Lemma row_links db r :
  List.NoDup (map p_id (photos db)) -> In r (photos db) ->
  prev_of db (p_id r) = prev_photo_id r /\ next_of db (p_id r) = next_photo_id r.
Proof.
  intros Hnd Hr. unfold prev_of, next_of. by rewrite (photo_by_id_self r db Hnd Hr).
Qed.

(** The loop on a store whose links are among the links it is going to
    write: no UPDATE fails. *)
Lemma siblings_loop_agree (PI NI : Z -> option Z) rows : forall pid ps t,
  (forall x, In x (map fst rows) -> is_Some (photo_by_id x (tx_db t))) ->
  (0 < pid -> is_Some (photo_by_id pid (tx_db t))) ->
  List.NoDup (map p_id (photos (tx_db t))) ->
  written rows pid ps PI NI ->
  (forall x y v, PI x = Some v -> PI y = Some v -> x = y) ->
  (forall x y v, NI x = Some v -> NI y = Some v -> x = y) ->
  (forall x v, prev_of (tx_db t) x = Some v -> PI x = Some v) ->
  (forall x v, next_of (tx_db t) x = Some v -> NI x = Some v) ->
  failures (siblings_loop rows pid ps t) = failures t
  /\ (forall x, is_Some (photo_by_id x (tx_db (siblings_loop rows pid ps t)))
                <-> is_Some (photo_by_id x (tx_db t)))
  /\ (forall x, prev_of (tx_db (siblings_loop rows pid ps t)) x
                = abs_prev rows pid ps (prev_of (tx_db t)) x)
  /\ (forall x, next_of (tx_db (siblings_loop rows pid ps t)) x
                = abs_next rows pid ps (next_of (tx_db t)) x).
Proof.
  induction rows as [|[id s] rows IH]; intros pid ps t Hex Hpid Hnd Hw Pinj Ninj HP HN.
  { simpl. repeat split; auto. }
  cbn [siblings_loop abs_prev abs_next]. destruct Hw as [Hnow Hw].
  destruct ((s =? ps) && (0 <? pid)) eqn:Hguard.
  - apply andb_true_iff in Hguard as [_ Hpos%Z.ltb_lt].
    destruct Hnow as [Hp Hn].
    assert (Hid : is_Some (photo_by_id id (tx_db t))) by (apply Hex; by left).
    assert (F1 : forall r, In r (photos (tx_db t)) -> p_id r <> id ->
                           prev_photo_id r <> Some pid).
    { intros r Hr Hne E. apply Hne. apply (Pinj _ _ pid); [|exact Hp].
      apply HP. by rewrite (proj1 (row_links _ r Hnd Hr)). }
    rewrite (exec_dropped_ok _ t _ (updatePrevPhoto_ok pid id (tx_db t) F1)).
    set (db1 := with_photos (tx_db t) (put_prev pid id)).
    set (t1 := mkTx db1 _).
    assert (Hnd1 : List.NoDup (map p_id (photos db1))).
    { unfold db1. by rewrite with_photos_ids by apply put_prev_id. }
    assert (HP1 : forall y, prev_of db1 y = upd (prev_of (tx_db t)) id pid y).
    { intros y. unfold db1. by destruct (put_prev_links pid id (tx_db t) y Hid) as [-> _]. }
    assert (HN1 : forall y, next_of db1 y = next_of (tx_db t) y).
    { intros y. unfold db1. by destruct (put_prev_links pid id (tx_db t) y Hid) as [_ ->]. }
    assert (F2 : forall r, In r (photos (tx_db t1)) -> p_id r <> pid ->
                           next_photo_id r <> Some id).
    { intros r Hr Hne E. apply Hne. apply (Ninj _ _ id); [|exact Hn].
      apply HN. rewrite <- HN1. by rewrite (proj2 (row_links db1 r Hnd1 Hr)). }
    rewrite (exec_dropped_ok _ t1 _ (updateNextPhoto_ok id pid (tx_db t1) F2)).
    change (tx_db t1) with db1.
    set (db2 := with_photos db1 (put_next id pid)).
    set (t2 := mkTx db2 _).
    assert (Hsome1 : forall x, is_Some (photo_by_id x db1) <->
                               is_Some (photo_by_id x (tx_db t))).
    { intros x. unfold db1.
      by rewrite with_photos_lookup, fmap_is_Some by apply put_prev_id. }
    assert (Hsome : forall x, is_Some (photo_by_id x db2) <->
                              is_Some (photo_by_id x (tx_db t))).
    { intros x. unfold db2.
      rewrite with_photos_lookup, fmap_is_Some by apply put_next_id. apply Hsome1. }
    assert (Hpid' : is_Some (photo_by_id pid db1)) by (apply Hsome1; auto).
    assert (HP2 : forall y, prev_of db2 y = upd (prev_of (tx_db t)) id pid y).
    { intros y. unfold db2.
      destruct (put_next_links id pid db1 y Hpid') as [_ ->]. apply HP1. }
    assert (HN2 : forall y, next_of db2 y = upd (next_of (tx_db t)) pid id y).
    { intros y. unfold db2.
      destruct (put_next_links id pid db1 y Hpid') as [-> _].
      unfold upd. destruct (y =? pid); [reflexivity | apply HN1]. }
    destruct (IH id s t2) as (I1 & I3 & I4 & I5);
      [ | | | exact Hw | exact Pinj | exact Ninj | | | ].
    + intros x Hx. apply Hsome, Hex. by right.
    + intros _. by apply Hsome.
    + change (tx_db t2) with db2. unfold db2.
      by rewrite with_photos_ids by apply put_next_id.
    + intros x v. change (tx_db t2) with db2. rewrite HP2. unfold upd.
      destruct (Z.eqb_spec x id) as [->|_]; [by intros [= <-] | apply HP].
    + intros x v. change (tx_db t2) with db2. rewrite HN2. unfold upd.
      destruct (Z.eqb_spec x pid) as [->|_]; [by intros [= <-] | apply HN].
    + split; [|split; [|split]].
      * rewrite I1. unfold t2. rewrite failures_ok. unfold t1. by rewrite failures_ok.
      * intros x. rewrite I3. apply Hsome.
      * intros x. rewrite I4. apply abs_prev_ext. intros y. apply HP2.
      * intros x. rewrite I5. apply abs_next_ext. intros y. apply HN2.
  - apply (IH id s t); [ | | exact Hnd | exact Hw | exact Pinj | exact Ninj
                        | exact HP | exact HN ].
    + intros x Hx. apply Hex. by right.
    + intros _. apply Hex. by left.
Qed.

(** What the loop writes overrides what was there. *)
Lemma abs_prev_over rows : forall pid ps P x,
  abs_prev rows pid ps P x
  = match abs_prev rows pid ps (fun _ => None) x with
    | Some v => Some v
    | None => P x
    end.
Proof.
  induction rows as [|[id s] rows IH]; intros pid ps P x; simpl; [reflexivity|].
  destruct ((s =? ps) && (0 <? pid)); [|apply IH].
  rewrite (IH id s (upd P id pid)), (IH id s (upd (fun _ => None) id pid)).
  destruct (abs_prev rows id s (fun _ => None) x); [reflexivity|].
  unfold upd. by destruct (x =? id).
Qed.

Lemma abs_next_over rows : forall pid ps N x,
  abs_next rows pid ps N x
  = match abs_next rows pid ps (fun _ => None) x with
    | Some v => Some v
    | None => N x
    end.
Proof.
  induction rows as [|[id s] rows IH]; intros pid ps N x; simpl; [reflexivity|].
  destruct ((s =? ps) && (0 <? pid)); [|apply IH].
  rewrite (IH id s (upd N pid id)), (IH id s (upd (fun _ => None) pid id)).
  destruct (abs_next rows id s (fun _ => None) x); [reflexivity|].
  unfold upd. by destruct (x =? pid).
Qed.

Lemma rows_facts db :
  keys_ok db = true ->
  List.NoDup (map p_id (photos db))
  /\ List.NoDup (map fst (siblings_rows db))
  /\ (forall p, In p (siblings_rows db) -> 0 < fst p)
  /\ (forall x, In x (map fst (siblings_rows db)) -> is_Some (photo_by_id x db)).
Proof.
  intros [_ Hk]%andb_true_iff.
  apply ascending_from_spec in Hk as (Hpos & Hnd & _).
  assert (Hperm : Permutation (map fst (siblings_rows db)) (map p_id (photos db))).
  { rewrite siblings_rows_ids. apply Permutation_map, siblings_query_perm. }
  split; [exact Hnd|]. split; [|split].
  - eapply Permutation_NoDup; [symmetry; exact Hperm | exact Hnd].
  - intros p Hp. eapply List.Forall_forall in Hpos; [exact Hpos|].
    eapply Permutation_in; [exact Hperm | by apply in_map].
  - intros x Hx. eapply Permutation_in in Hx; [|exact Hperm].
    apply in_map_iff in Hx as (r & <- & Hr). apply photo_by_id_in, Hr.
Qed.

Lemma neighbours_links rows a b :
  List.NoDup (map fst rows) -> (forall p, In p rows -> 0 < fst p) ->
  neighbours rows a b ->
  abs_prev rows 0 0 (fun _ => None) b = Some a
  /\ abs_next rows 0 0 (fun _ => None) a = Some b.
Proof.
  intros Hnd Hpos (l1 & s & l2 & ->).
  assert (Ha : 0 < a).
  { apply (Hpos (a, s)). apply in_app_iff. right. by left. }
  split.
  - rewrite (abs_prev_link l1 0 0 _ a s b s l2 Hnd Ha). by rewrite Z.eqb_refl.
  - rewrite (abs_next_link l1 0 0 _ a s b s l2 Hnd); [|lia|exact Ha].
    by rewrite Z.eqb_refl.
Qed.

(** On a store with sound keys whose links are in reading order, no
    UPDATE of the sibling phase fails and the links are the intended
    ones. *)
Lemma siblings_tx_agree db :
  keys_ok db = true -> links_in_order db ->
  failures (siblings_tx db) = []
  /\ (forall x, is_Some (photo_by_id x (tx_db (siblings_tx db))) <-> is_Some (photo_by_id x db))
  /\ (forall x, prev_of (tx_db (siblings_tx db)) x
                = abs_prev (siblings_rows db) 0 0 (fun _ => None) x)
  /\ (forall x, next_of (tx_db (siblings_tx db)) x
                = abs_next (siblings_rows db) 0 0 (fun _ => None) x).
Proof.
  intros Hk Hord. destruct (rows_facts db Hk) as (Hnd & Hndr & Hpos & Hex).
  set (rows := siblings_rows db) in *.
  set (PI := abs_prev rows 0 0 (fun _ => None)).
  set (NI := abs_next rows 0 0 (fun _ => None)).
  assert (Hinv : forall x v, PI x = Some v <-> NI v = Some x).
  { intros x v. by apply abs_links_inverse. }
  assert (HP : forall x v, prev_of db x = Some v -> PI x = Some v).
  { intros x v E. unfold prev_of in E.
    destruct (photo_by_id x db) as [r|] eqn:Er; [|discriminate]. simpl in E.
    apply photo_by_id_key in Er as [<- Hr].
    destruct (Hord r v Hr) as [Hpv _].
    by apply (neighbours_links rows v (p_id r) Hndr Hpos (Hpv E)). }
  assert (HN : forall x v, next_of db x = Some v -> NI x = Some v).
  { intros x v E. unfold next_of in E.
    destruct (photo_by_id x db) as [r|] eqn:Er; [|discriminate]. simpl in E.
    apply photo_by_id_key in Er as [<- Hr].
    destruct (Hord r v Hr) as [_ Hnx].
    by apply (neighbours_links rows (p_id r) v Hndr Hpos (Hnx E)). }
  destruct (siblings_loop_agree PI NI rows 0 0 (begin db)) as (F & S & P & N);
    [exact Hex | simpl; lia | exact Hnd | | | | exact HP | exact HN | ].
  - by apply written_rows.
  - intros x y v Hx%Hinv Hy%Hinv. congruence.
  - intros x y v Hx%Hinv Hy%Hinv. congruence.
  - split; [exact F|]. split; [exact S|]. split.
    + intros x. unfold siblings_tx. fold rows. rewrite P, abs_prev_over. simpl. fold PI.
      destruct (PI x) as [v|] eqn:E; [reflexivity|].
      destruct (prev_of db x) as [v|] eqn:E'; [|reflexivity].
      apply HP in E'. congruence.
    + intros x. unfold siblings_tx. fold rows. rewrite N, abs_next_over. simpl. fold NI.
      destruct (NI x) as [v|] eqn:E; [reflexivity|].
      destruct (next_of db x) as [v|] eqn:E'; [|reflexivity].
      apply HN in E'. congruence.
Qed.

Lemma chain_linked_agree db k :
  keys_ok db = true -> links_in_order db ->
  linked (next_of (tx_db (siblings_tx db))) (prev_of (tx_db (siblings_tx db)))
         None (map p_id (chain_of k db)).
Proof.
  intros Hk Hord. destruct (siblings_tx_agree db Hk Hord) as (_ & _ & P & N).
  destruct (rows_facts db Hk) as (_ & Hnd & Hpos & _).
  destruct (sorted_block k _ (siblings_query_sorted db)) as (l1 & l3 & E & F1 & F3).
  fold (chain_of k db) in E.
  assert (L := block_linked (siblings_rows db) k (map row_key l3)
                 (map row_key (chain_of k db)) (map row_key l1)).
  rewrite map_map in L. simpl in L.
  assert (Hb : (if last (map row_key l1) is Some z
                then if snd z =? k then Some (fst z) else None else None) = None).
  { destruct (last (map row_key l1)) as [z|] eqn:El; [|reflexivity].
    apply last_Some in El as [l' El].
    assert (Hz : In z (map row_key l1)) by (rewrite El, in_app_iff; right; by left).
    apply in_map_iff in Hz as (r & <- & Hr). simpl.
    eapply List.Forall_forall in F1; [|exact Hr]. simpl in F1.
    destruct (Z.eqb_spec (p_set_id r) k); [lia | reflexivity]. }
  rewrite Hb in L.
  assert (L' : linked (abs_next (siblings_rows db) 0 0 (fun _ => None))
                      (abs_prev (siblings_rows db) 0 0 (fun _ => None))
                      None (map p_id (chain_of k db))).
  { apply L; [|exact Hnd|exact Hpos| |].
    - unfold siblings_rows. rewrite E at 1. by rewrite !map_app.
    - intros p (r & <- & [_ Hr]%filter_In)%in_map_iff. unfold in_set in Hr. simpl. lia.
    - destruct l3 as [|c l3]; [exact I|]. simpl. apply List.Forall_inv in F3. lia. }
  eapply linked_ext; [| |exact L']; intros x; simpl; by rewrite ?P, ?N.
Qed.

(** X15.  The sibling phase links every set correctly whenever the
    links it meets are in reading order, that is, join photos that it
    reads one after the other in one set (no links at all, the links of
    an earlier run over the same photos, or those links after photos were
    added before or after the chains, but not between two linked
    photos): no UPDATE fails, and in every set following the next links
    from the first photo read visits the photos of the set in reading
    order, and following the previous links from the last visits them in
    reverse. *)
Theorem relink_in_order db k :
  keys_ok db = true -> links_in_order db ->
  failures (siblings_tx db) = []
  /\ (forall first fuel,
        head (chain_of k db) = Some first -> (length (chain_of k db) <= fuel)%nat ->
        follow next_photo_id (snd (updatePhotoSiblings db)) fuel (p_id first)
        = Some (map p_id (chain_of k db)))
  /\ (forall lst fuel,
        last (chain_of k db) = Some lst -> (length (chain_of k db) <= fuel)%nat ->
        follow prev_photo_id (snd (updatePhotoSiblings db)) fuel (p_id lst)
        = Some (rev (map p_id (chain_of k db)))).
Proof.
  intros Hk Hord.
  destruct (siblings_tx_agree db Hk Hord) as (F & S & _).
  assert (Hl := chain_linked_agree db k Hk Hord).
  assert (Hex : forall x, In x (map p_id (chain_of k db)) ->
                          is_Some (photo_by_id x (tx_db (siblings_tx db)))).
  { intros x (r & <- & [Hr _]%filter_In)%in_map_iff. apply S.
    apply photo_by_id_in. eapply Permutation_in; [apply siblings_query_perm | exact Hr]. }
  split; [exact F|]. split.
  - intros first fuel Hhd Hfuel. simpl.
    destruct (chain_of k db) as [|f rest] eqn:Et; [discriminate|].
    injection Hhd as ->.
    eapply (follow_next_linked _ _ _ (map p_id rest)); [| |exact Hl|].
    + exact Hex.
    + reflexivity.
    + simpl in *. rewrite List.length_map. lia.
  - intros lst fuel Hlast Hfuel. simpl.
    apply last_Some in Hlast as [T' Et].
    rewrite Et in Hl, Hex, Hfuel |- *.
    rewrite map_app in Hl, Hex |- *. simpl in Hl, Hex |- *. rewrite rev_unit.
    eapply (follow_prev_linked _ _ _ _ _ []); [| |exact Hl|].
    + exact Hex.
    + reflexivity.
    + rewrite length_app, List.length_map. rewrite length_app in Hfuel. exact Hfuel.
Qed.

End RelinkInOrder.

(** * The chain through the dated photos of a set *)

Section DatedChains.
Import Photos.

(** C2, as the code has it.  On a store with sound keys in which every
    link there is joins two photos that the phase reads one after the
    other in one set (a store without links, the links of an earlier
    run, also after photos were added before or after the linked ones),
    the sibling phase chains every set in reading order: the dated photos
    of set [k] are all there, in non-decreasing capture time; following
    [next_photo_id] from the earliest visits exactly them and stops at
    the latest; following [prev_photo_id] from the latest walks the whole
    chain backwards, the dated photos in reverse and then the photos
    without a capture time, which are read first. *)
Theorem siblings_chain db k :
  keys_ok db = true -> links_in_order db ->
  Permutation (timed_of k db) (List.filter has_taken_at (photos_of k db))
  /\ StronglySorted (fun a b => taken_le (p_taken_at a) (p_taken_at b) = true) (timed_of k db)
  /\ chain_of k db = List.filter (fun r => negb (has_taken_at r)) (chain_of k db) ++ timed_of k db
  /\ (forall first fuel,
        head (timed_of k db) = Some first -> (length (timed_of k db) <= fuel)%nat ->
        follow next_photo_id (snd (updatePhotoSiblings db)) fuel (p_id first)
        = Some (map p_id (timed_of k db)))
  /\ (forall lst fuel,
        last (timed_of k db) = Some lst -> (length (chain_of k db) <= fuel)%nat ->
        follow prev_photo_id (snd (updatePhotoSiblings db)) fuel (p_id lst)
        = Some (rev (map p_id (chain_of k db)))).
Proof.
  intros Hk Hord.
  assert (Hsplit := untimed_first _ (chain_sorted db k)).
  fold (chain_of k db) in Hsplit. fold (timed_of k db) in Hsplit.
  assert (Hl := chain_linked_agree db k Hk Hord).
  destruct (siblings_tx_agree db Hk Hord) as (_ & S & _).
  assert (Hex : forall x, In x (map p_id (chain_of k db)) ->
                          is_Some (photo_by_id x (tx_db (siblings_tx db)))).
  { intros x (r & <- & [Hr _]%filter_In)%in_map_iff. apply S.
    apply photo_by_id_in. eapply Permutation_in; [apply siblings_query_perm | exact Hr]. }
  split; [|split; [|split; [exact Hsplit|split]]].
  - unfold timed_of, chain_of, photos_of, siblings_query.
    rewrite !order_by_filter; try apply siblings_le_total; try apply siblings_le_trans.
    apply order_by_perm.
  - apply filter_sorted, chain_sorted.
  - intros first fuel Hhd Hfuel. simpl.
    destruct (timed_of k db) as [|f rest] eqn:Et; [discriminate|].
    injection Hhd as ->. rewrite Hsplit, map_app in Hl, Hex.
    apply linked_app_r in Hl.
    eapply (follow_next_linked _ _ _ (map p_id rest)); [| |exact Hl|].
    + intros y Hy. apply Hex. rewrite in_app_iff. by right.
    + reflexivity.
    + simpl in *. rewrite List.length_map. lia.
  - intros lst fuel Hlast Hfuel. simpl.
    apply last_Some in Hlast as [T' Et]. rewrite Et in Hsplit.
    revert Hsplit. generalize (List.filter (fun r => negb (has_taken_at r)) (chain_of k db)).
    intros U Hsplit. rewrite app_assoc in Hsplit.
    rewrite Hsplit in Hl, Hex, Hfuel |- *.
    rewrite map_app in Hl, Hex |- *. simpl in Hl, Hex |- *. rewrite rev_unit.
    eapply (follow_prev_linked _ _ _ _ _ []); [| |exact Hl|].
    + exact Hex.
    + reflexivity.
    + rewrite length_app, List.length_map. rewrite length_app in Hfuel. exact Hfuel.
Qed.

End DatedChains.

(** * No dangling links *)

Section ClosedLinks.
Import Photos.
Context `{ScanEnv}.

Lemma store_closed p db : links_closed db -> links_closed (snd (store p db)).
Proof.
  intros Hc r v Hr Hv.
  destruct (store_appends p db) as (ss & ps & _ & Hp & Hf).
  rewrite Hp in Hr |- *. apply in_app_iff in Hr as [Hold|Hnew].
  - destruct (Hc r v Hold Hv) as (q & Hq & E). exists q. split; [|exact E].
    apply in_app_iff. by left.
  - rewrite List.Forall_forall in Hf. destruct (Hf r Hnew) as (_ & Hp0 & Hn0).
    destruct Hv; congruence.
Qed.

Lemma kept_closed ids db db' :
  (forall v, In v ids -> exists q, In q (photos db) /\ p_id q = v) ->
  db_kept ids db db' -> links_closed db -> links_closed db'.
Proof.
  intros Hids [_ Hk] Hc r' v Hr' Hv.
  assert (Hup : forall q, In q (photos db) -> exists q', In q' (photos db') /\ p_id q' = p_id q).
  { intros q Hq. destruct (Forall2_in_l _ _ _ _ Hk Hq) as (q' & Hq' & K & _). eauto. }
  assert (Hfrom : forall w, (exists q, In q (photos db) /\ p_id q = w) ->
                            exists q', In q' (photos db') /\ p_id q' = w).
  { intros w (q & Hq & <-). by apply Hup. }
  destruct (Forall2_in_r _ _ _ _ Hk Hr') as (r & Hr & _ & _ & _ & Kp & Kn).
  apply Hfrom.
  destruct Hv as [Hv|Hv].
  - destruct Kp as [E|(w & Hw & E)].
    + apply (Hc r v Hr). left. congruence.
    + apply Hids. congruence.
  - destruct Kn as [E|(w & Hw & E)].
    + apply (Hc r v Hr). right. congruence.
    + apply Hids. congruence.
Qed.

Lemma link_closed db : links_closed db -> links_closed (link db).
Proof.
  intros Hc.
  assert (H1 : links_closed (snd (updatePhotoSiblings db))).
  { apply (kept_closed (map p_id (photos db)) db); [|apply updatePhotoSiblings_kept|exact Hc].
    intros v (q & <- & Hq)%in_map_iff. eauto. }
  unfold link. set (db1 := snd (updatePhotoSiblings db)) in *.
  destruct (sets_loop_frame (sets_rows db1) (begin db1)) as (P & _ & _).
  intros r v Hr Hv. simpl in Hr |- *. unfold sets_tx in *. rewrite P in Hr |- *.
  by apply (H1 r v).
Qed.

(** X16.  [Scan] leaves no dangling link: when every link of the store
    names a photo of the catalogue, the same holds after [Scan]. *)
Theorem Scan_keeps_links_closed paths db :
  links_closed db -> links_closed (Scan paths db).
Proof.
  intros Hc. apply link_closed.
  by apply (walk_all_keeps_inv links_closed); [apply store_closed|].
Qed.

End ClosedLinks.

(** * The feed of [Generate] *)

Section FeedFacts.
Import Photos Feed.






Lemma join_photos db :
  map snd (photos_join_sets db) = List.filter (has_set_row db) (photos db).
Proof.
  unfold photos_join_sets, has_set_row.
  induction (photos db) as [|r l IH]; simpl; [reflexivity|].
  destruct (set_by_id (p_set_id r) db); simpl; [f_equal|]; exact IH.
Qed.


Lemma filter_all_true {A : Type} (f : A -> bool) l :
  (forall x, In x l -> f x = true) -> List.filter f l = l.
Proof.
  induction l as [|x l IH]; intros Hf; simpl; [reflexivity|].
  rewrite Hf by (by left). f_equal. apply IH. intros y Hy. apply Hf. by right.
Qed.

Section Sound.
Context `{ScanEnv}.

Lemma feed_rows_perm db :
  names_ok db = true -> Permutation (feed_rows db) (map p_path (photos db)).
Proof.
  intros Hn.
  assert (Hall : List.filter (has_set_row db) (photos db) = photos db).
  { apply filter_all_true. intros r Hr.
    destruct (names_ok_spec db r Hn Hr) as (s & Hs & Hid & _).
    unfold has_set_row, set_by_id.
    destruct (List.find _ (sets db)) eqn:E; [reflexivity|].
    eapply List.find_none in E; [|exact Hs]. simpl in E. lia. }
  unfold feed_rows, feed_query.
  assert (E : map p_path (photos db)
              = map (fun x => p_path (snd x)) (photos_join_sets db)).
  { rewrite <- Hall, <- join_photos, map_map. reflexivity. }
  rewrite E. apply Permutation_map, order_by_perm.
Qed.

(** X18.  On a store where every photo is filed under an existing set
    (as on every store [Scan] leaves) [Generate] feeds every photo of
    the catalogue exactly once, and as many paths as the total it gives
    to the progress bar. *)
Theorem feed_complete db :
  names_ok db = true ->
  Permutation (feed_rows db) (map p_path (photos db))
  /\ Z.of_nat (length (feed_rows db)) = photosCount db.
Proof.
  intros Hn. pose proof (feed_rows_perm db Hn) as Hp.
  split; [exact Hp|].
  unfold photosCount. by rewrite (Permutation_length Hp), List.length_map.
Qed.

End Sound.

End FeedFacts.

(** * Thumbs on disk *)

Section CacheFacts.
Import Thumbs.
Context `{ThumbEnv}.

Lemma string_app_inj_l (a b c : string) : a +:+ b = a +:+ c -> b = c.
Proof.
  induction a as [|x a IH]; [done|]. intros E.
  change (String x (a +:+ b) = String x (a +:+ c)) in E. injection E as E. by apply IH.
Qed.

Lemma string_app_length (a b : string) :
  String.length (a +:+ b) = (String.length a + String.length b)%nat.
Proof.
  induction a as [|x a IH]; [done|].
  change (S (String.length (a +:+ b)) = S (String.length a + String.length b)). by rewrite IH.
Qed.

Lemma string_app_inj_r (a b c : string) : a +:+ c = b +:+ c -> a = b.
Proof.
  revert b. induction a as [|x a IH]; intros [|y b]; [done| | |].
  - intros E. apply (f_equal String.length) in E.
    rewrite !string_app_length in E. simpl in E. lia.
  - intros E. apply (f_equal String.length) in E.
    rewrite !string_app_length in E. simpl in E. lia.
  - intros E. change (String x (a +:+ c) = String y (b +:+ c)) in E.
    injection E as -> E. f_equal. by apply IH.
Qed.

(** X19.  [Basename] keeps the thumbs of one photo apart: two suffixes
    give the same name only when they are equal, so the big and the
    small thumb of a photo never share a file name. *)
Theorem Basename_suffix_inj photoPath s1 s2 :
  (Basename photoPath s1 = Basename photoPath s2 -> s1 = s2)
  /\ Basename photoPath "big" <> Basename photoPath "small".
Proof.
  assert (Inj : forall a b, Basename photoPath a = Basename photoPath b -> a = b).
  { intros a b E. unfold Basename in E.
    apply string_app_inj_l, string_app_inj_l in E. by apply string_app_inj_r in E. }
  split; [apply Inj|]. intros E. apply Inj in E. discriminate.
Qed.

Lemma generateThumbs_cached thumbsPath photoPath w :
  is_Some (files w !! bigThumbPathOf thumbsPath photoPath) ->
  is_Some (files w !! smallThumbPathOf thumbsPath photoPath) ->
  generateThumbs thumbsPath photoPath w = (None, w).
Proof.
  intros Hb Hs. unfold generateThumbs.
  rewrite (generateThumb_present _ _ _ _ _ Hb). simpl.
  by rewrite (generateThumb_present _ _ _ _ _ Hs).
Qed.

(** X20.  A worker that is fed photos whose two thumbs are on disk
    already runs the tool for none of them and logs nothing: it leaves
    the files, the runs and the log as they are and only advances the
    progress bar, once for every photo. *)
Theorem worker_cached thumbsPath photoPaths w :
  (forall p, In p photoPaths ->
     is_Some (files w !! bigThumbPathOf thumbsPath p)
     /\ is_Some (files w !! smallThumbPathOf thumbsPath p)) ->
  worker thumbsPath photoPaths w
  = mkWorld (files w) (runs w) (log w) (bar w + Z.of_nat (length photoPaths)).
Proof.
  revert w. induction photoPaths as [|p l IH]; intros w Hall.
  - simpl. destruct w. simpl. f_equal. lia.
  - cbn [worker fold_left]. unfold worker_step at 2.
    destruct (Hall p (or_introl eq_refl)) as [Hb Hs].
    rewrite (generateThumbs_cached _ _ _ Hb Hs). simpl.
    change (fold_left (worker_step thumbsPath) l (increment w))
      with (worker thumbsPath l (increment w)).
    rewrite IH.
    + simpl. f_equal. lia.
    + intros q Hq. simpl. apply Hall. by right.
Qed.

(** X21.  After a failure only the file system decides whether
    [generateThumb] tries again: when the failed run left no file at the
    thumb's path the next call runs the tool once more with the same
    arguments, and when it left one the next call returns nil without
    running anything. *)
Theorem generateThumb_after_failure photoPath thumbPath thumbSize crop w e :
  fst (generateThumb photoPath thumbPath thumbSize crop w) = Some e ->
  let w1 := snd (generateThumb photoPath thumbPath thumbSize crop w) in
  runs w1 = runs w ++ [cmdArgs photoPath thumbPath thumbSize crop]
  /\ (files w1 !! thumbPath = None ->
      runs (snd (generateThumb photoPath thumbPath thumbSize crop w1))
      = runs w ++ [cmdArgs photoPath thumbPath thumbSize crop;
                   cmdArgs photoPath thumbPath thumbSize crop])
  /\ (is_Some (files w1 !! thumbPath) ->
      generateThumb photoPath thumbPath thumbSize crop w1 = (None, w1)).
Proof.
  intros He w1.
  assert (Habs : files w !! thumbPath = None).
  { destruct (files w !! thumbPath) eqn:E; [|reflexivity].
    rewrite generateThumb_present in He by (by eexists). discriminate. }
  assert (Hr : runs w1 = runs w ++ [cmdArgs photoPath thumbPath thumbSize crop]).
  { unfold w1. by rewrite generateThumb_runs, Habs. }
  split; [exact Hr|]. split.
  - intros Hno. rewrite generateThumb_runs, Hno, Hr, <- app_assoc. reflexivity.
  - intros Hyes. by apply generateThumb_present.
Qed.

End CacheFacts.

(** * The progress bar *)

Section BarFacts.
Import Photos Thumbs Feed.
Context `{ScanEnv} `{ThumbEnv}.

(** X22.  On a store where every photo is filed under an existing set,
    the progress bar of [Generate] ends at its total: in whatever order
    the workers take the paths of the feed, each path being worked off
    in one piece, the bar has advanced by the number of photos counted
    for its total when the last path is done. *)
Theorem bar_reaches_total db thumbsPath order w :
  names_ok db = true ->
  Permutation order (feed_rows db) ->
  bar (worker thumbsPath order w) = bar w + photosCount db.
Proof.
  intros Hn Hp. rewrite worker_bar. f_equal. unfold photosCount. f_equal.
  rewrite (Permutation_length Hp), (Permutation_length (feed_rows_perm db Hn)).
  apply List.length_map.
Qed.

End BarFacts.

(** * Decoding *)

Section DecodeFacts.
Import Photos Files.
Context `{FileEnv}.

Lemma when_ok_proj {A B : Type} (g : Photo -> B) (o : option A) f p :
  (forall v q, g (f v q) = g q) -> g (when_ok o f p) = g p.
Proof. intros Hf. destruct o; simpl; [apply Hf | reflexivity]. Qed.

(** The blocks of [decodeExif] that leave a projection of the photo
    alone. *)
Ltac skip g :=
  repeat first
    [ rewrite (when_ok_proj g) by (intros; try destruct (rotated _); reflexivity)
    | match goal with
      | |- context [g (?st ?v ?q)] => progress change (g (st v q)) with (g q)
      end ].

(** [decodeExif] panics on broken EXIF data and on no other; when it
    returns, path and size are as before, the dimensions are exchanged
    for a rotated image, and a position replaces the coordinates. *)
Lemma decodeExif_spec x p :
  if exif_broken x then decodeExif x p = Panics
  else exists q,
    decodeExif x p = Returns q
    /\ Path q = Path p /\ Size q = Size p
    /\ dims q = (if (if x_Orientation x is Some orient then rotated orient else false)
                 then (Height p, Width p) else dims p)
    /\ coords q = (if x_LatLong x is Some ll then (Some (fst ll), Some (snd ll))
                   else coords p).
Proof.
  unfold exif_broken, decodeExif. cbv zeta.
  destruct (x_FocalLength x) as [[f|]|]; [| reflexivity |];
    (destruct (x_FNumber x) as [[a|]|]; [| reflexivity |]);
    (destruct (x_ExposureTime x) as [[t|]|]; [| reflexivity |]);
    cbn [no_rational orb when_rat mbind outcome_bind mret outcome_ret];
    (eexists; split; [reflexivity|]);
    (split; [by skip Path|]); (split; [by skip Size|]);
    (split;
      [ skip dims;
        destruct (x_Orientation x) as [o|]; cbn [when_ok];
          [destruct (rotated o)|];
          [ unfold dims; cbn [Width Height set_WidthHeight]; skip Height; by skip Width
          | by skip dims | by skip dims ]
      | skip coords; destruct (x_LatLong x) as [ll|]; cbn [when_ok]; by skip coords ]).
Qed.

Lemma decodeExif_panics x p : decodeExif x p = Panics <-> exif_broken x = true.
Proof.
  pose proof (decodeExif_spec x p) as S. destruct (exif_broken x).
  - by rewrite S.
  - destruct S as (q & -> & _). split; discriminate.
Qed.

Lemma decode_spec path p :
  decode path p
  = match os_Open path with
    | Some err => Returns (Some err, set_Path path p)
    | None =>
        match f_Stat path with
        | Err err => Returns (Some err, set_Path path p)
        | Ok size =>
            match image_DecodeConfig path with
            | Err err => Returns (Some err, set_Size size (set_Path path p))
            | Ok (w, h) =>
                match exif_Decode path with
                | Ok x =>
                    q ← decodeExif x (set_WidthHeight w h (set_Size size (set_Path path p)));
                    Returns (None, q)
                | Err _ =>
                    Returns (None, set_WidthHeight w h (set_Size size (set_Path path p)))
                end
            end
        end
    end.
Proof. reflexivity. Qed.

(** X23.  [decode] returns an error exactly when the file cannot be
    opened, has no size to report or has no image header that decodes;
    it panics exactly when the file is readable, its EXIF data decode
    and one of the tags read with [Rat(0)] (focal length, F-number,
    exposure time) is no rational; it returns nil exactly when the file
    is readable and its EXIF data, if there are any, are not broken in
    that way, so missing EXIF data are no error.  Whenever it returns,
    the photo carries the path it was asked to decode. *)
Theorem decode_errors path p :
  (decode path p = Panics
   <-> readable path /\ exists x, exif_Decode path = Ok x /\ exif_broken x = true)
  /\ ((exists e q, decode path p = Returns (Some e, q))
      <-> is_Some (os_Open path)
          \/ (exists e, f_Stat path = Err e)
          \/ (exists e, image_DecodeConfig path = Err e))
  /\ ((exists q, decode path p = Returns (None, q))
      <-> readable path /\ forall x, exif_Decode path = Ok x -> exif_broken x = false)
  /\ (forall o q, decode path p = Returns (o, q) -> Path q = path).
Proof.
  rewrite decode_spec. unfold readable.
  destruct (os_Open path) as [e1|] eqn:E1.
  { split; [|split; [|split]].
    - split; [discriminate | by intros [[[=] _] _]].
    - split; eauto.
    - split; [by intros [q [=]] | by intros [[[=] _] _]].
    - by intros o q [= <- <-]. }
  destruct (f_Stat path) as [size|e2] eqn:E2.
  2:{ split; [|split; [|split]].
      - split; [discriminate | by intros [(_ & [? [=]] & _) _]].
      - split; eauto.
      - split; [by intros [q [=]] | by intros [(_ & [? [=]] & _) _]].
      - by intros o q [= <- <-]. }
  destruct (image_DecodeConfig path) as [[w h]|e3] eqn:E3.
  2:{ split; [|split; [|split]].
      - split; [discriminate | by intros [(_ & _ & [? [=]]) _]].
      - split; eauto 6.
      - split; [by intros [q [=]] | by intros [(_ & _ & [? [=]]) _]].
      - by intros o q [= <- <-]. }
  assert (Hr : @None error = None /\ (exists s, Ok size = @Ok Z s)
               /\ (exists wh, Ok (w, h) = @Ok (Z * Z) wh)) by eauto.
  assert (No : ~ (is_Some (@None error) \/ (exists e, @Ok Z size = Err e)
                  \/ (exists e, @Ok (Z * Z) (w, h) = Err e))).
  { intros [[? [=]]|[[? [=]]|[? [=]]]]. }
  destruct (exif_Decode path) as [x|e4].
  - pose proof (decodeExif_spec x (set_WidthHeight w h (set_Size size (set_Path path p)))) as S.
    destruct (exif_broken x) eqn:Eb.
    + rewrite S. split; [|split; [|split]].
      * split; [eauto | reflexivity].
      * split; [by intros (? & ? & [=]) | by intros ?%No].
      * split; [by intros [q [=]] | intros [_ Hx]; specialize (Hx x eq_refl); congruence].
      * discriminate.
    + destruct S as (q & -> & Hq & _). split; [|split; [|split]].
      * split; [discriminate | intros (_ & y & [= <-] & Hy); congruence].
      * split; [by intros (? & ? & [=]) | by intros ?%No].
      * split; [intros _; split; [exact Hr | by intros y [= <-]] | eauto].
      * intros o q' [= <- <-]. exact Hq.
  - split; [|split; [|split]].
    + split; [discriminate | by intros (_ & y & [=] & _)].
    + split; [by intros (? & ? & [=]) | by intros ?%No].
    + split; [intros _; split; [exact Hr | by intros y [=]] | eauto].
    + by intros o q [= <- <-].
Qed.

(** X24.  A readable file whose EXIF data, if any, are not broken
    decodes without an error into a photo that has the size the file
    reports and the dimensions of its image header, exchanged exactly
    when the EXIF data give an orientation of 5, 6, 7 or 8; without EXIF
    data every EXIF column stays NULL. *)
Theorem decode_dimensions path size w h :
  os_Open path = None -> f_Stat path = Ok size -> image_DecodeConfig path = Ok (w, h) ->
  (forall x, exif_Decode path = Ok x -> exif_broken x = false) ->
  exists p,
    decode path new_Photo = Returns (None, p)
    /\ Size p = size
    /\ (Width p, Height p)
       = (if (if exif_Decode path is Ok x
              then (if x_Orientation x is Some orient then rotated orient else false)
              else false)
          then (h, w) else (w, h))
    /\ ((exists e, exif_Decode path = Err e) ->
        p = mkPhoto None None None None None None None h None None None None path size None w).
Proof.
  intros E1 E2 E3 Hx. rewrite decode_spec, E1, E2, E3.
  destruct (exif_Decode path) as [x|e4].
  - pose proof (decodeExif_spec x (set_WidthHeight w h (set_Size size (set_Path path new_Photo))))
      as S.
    rewrite (Hx x eq_refl) in S. destruct S as (q & -> & _ & Hs & Hd & _).
    exists q. split; [reflexivity|]. split; [exact Hs|].
    split; [exact Hd | by intros [? [=]]].
  - eexists. split; [reflexivity|]. by repeat split.
Qed.

End DecodeFacts.

Section StoredCoordinates.
Import Photos Files.
Context `{FileEnv}.
Context (never_panics : forall path, decode path new_Photo <> Panics).

Lemma numeric_some v : v <> S754_nan -> is_Some (numeric (Some v)).
Proof. destruct v; simpl; eauto. congruence. Qed.

Lemma decoded_coords path p :
  (forall x, exif_Decode path = Ok x -> forall ll, x_LatLong x = Some ll -> no_nan ll) ->
  decoded never_panics path = Ok p -> coords_paired (stored p).
Proof.
  intros Hll. unfold decoded.
  pose proof (decode_spec path new_Photo) as D.
  assert (P0 : coords_paired (stored new_Photo)) by done.
  generalize (never_panics path). revert D.
  destruct (decode path new_Photo) as [[[e|] q]|]; intros D no; try discriminate.
  2:{ by destruct (no eq_refl). }
  intros [= <-].
  destruct (os_Open path); [discriminate|].
  destruct (f_Stat path) as [size|]; [|discriminate].
  destruct (image_DecodeConfig path) as [[w h]|]; [|discriminate].
  destruct (exif_Decode path) as [x|].
  - pose proof (decodeExif_spec x (set_WidthHeight w h (set_Size size (set_Path path new_Photo))))
      as S.
    destruct (exif_broken x); [rewrite S in D; discriminate|].
    destruct S as (q' & E & _ & _ & _ & Hco). rewrite E in D.
    injection D as ->.
    unfold coords_paired, stored. cbn [Lat Lng]. unfold coords in Hco.
    destruct (x_LatLong x) as [ll|] eqn:Ex; injection Hco as -> ->; [|done].
    destruct (Hll x eq_refl ll Ex) as [Ha Hb].
    split; intros _; by apply numeric_some.
  - by injection D as ->.
Qed.

(** X25.  The scanner stores no half position as long as the EXIF
    decoder reports none with a NaN in it: over files none of which
    makes [decode] panic and whose positions have no NaN coordinate,
    when every photo of the catalogue has its latitude and its longitude
    both NULL or both set, the same holds after [Scan]. *)
Theorem Scan_keeps_coordinates_paired paths db :
  (forall path x ll, exif_Decode path = Ok x -> x_LatLong x = Some ll -> no_nan ll) ->
  (forall r, In r (photos db) -> coords_paired (p_cols r)) ->
  forall r, In r (photos (@Scan (scanner never_panics) paths db)) -> coords_paired (p_cols r).
Proof.
  intros Hll Hdb r Hr. set (env := scanner never_panics) in *.
  destruct (@link_frame (@walk_all env paths db)) as [Hc _].
  apply (in_map p_cols) in Hr. unfold Scan in Hr. rewrite Hc in Hr.
  apply in_map_iff in Hr as (r1 & <- & Hr1).
  assert (Hw : exists ss ps,
            sets (@walk_all env paths db) = sets db ++ ss
            /\ photos (@walk_all env paths db) = photos db ++ ps
            /\ Forall (@from_entry env (concat (map fs_Walk paths))) ps).
  { rewrite (@walk_all_flat env). apply (@walk_entries_appends env). }
  destruct Hw as (ss & ps & _ & Hp & Hf).
  rewrite Hp in Hr1. apply in_app_iff in Hr1 as [Hold|Hnew]; [by apply Hdb|].
  rewrite List.Forall_forall in Hf.
  destruct (Hf r1 Hnew) as (e & _ & _ & _ & _ & (photo & Hd & ->) & _).
  unfold Photos.decode in Hd. simpl in Hd.
  destruct (decoded never_panics (w_path e)) as [q|] eqn:Eq; [|discriminate].
  injection Hd as <-.
  pose proof (decoded_coords (w_path e) q (fun x Hx ll => Hll _ x ll Hx) Eq) as Hq.
  exact Hq.
Qed.

End StoredCoordinates.

(** * The server on a scanned store *)

Section ServerFacts.
Import Photos Server.
Context `{ScanEnv} `{HttpEnv}.

Lemma filter_key {R : Type} (key : R -> Z) (l : list R) x :
  List.NoDup (map key l) -> In x l -> List.filter (fun y => key y =? key x) l = [x].
Proof.
  induction l as [|y l IH]; intros Hnd Hin; [done|].
  simpl in Hnd. apply (proj1 (List.NoDup_cons_iff _ _)) in Hnd as [Hy Hnd].
  assert (Hnone : forall z, ~ In (key z) (map key l) ->
            List.filter (fun y => key y =? key z) l = []).
  { intros z Hz. clear -Hz. induction l as [|a l IH]; simpl; [done|].
    destruct (Z.eqb_spec (key a) (key z)) as [E|_].
    - exfalso. apply Hz. left. done.
    - apply IH. intros Hin. apply Hz. by right. }
  simpl. destruct Hin as [->|Hin].
  - rewrite Z.eqb_refl. f_equal. by apply Hnone.
  - destruct (Z.eqb_spec (key y) (key x)) as [E|_].
    + exfalso. apply Hy. rewrite E. by apply in_map.
    + by apply IH.
Qed.

(** What [getSetById] answers on a store with unique keys. *)
Lemma getSetById_found db s c n :
  List.NoDup (map s_id (sets db)) -> List.NoDup (map p_id (photos db)) ->
  In s (sets db) -> In c (photos db) ->
  thumb_photo_id s = Some (p_id c) -> photos_count s = Some n ->
  getSetById (s_id s) db
  = Row (mkPhotoSet (s_id s) (s_name s) n (s_taken_at s) (p_id c) (p_path c)).
Proof.
  intros Hns Hnp Hs Hc Ht Hn. unfold getSetById, getSetStmt.
  rewrite (filter_key s_id _ s Hns Hs). simpl. rewrite Ht. simpl.
  rewrite (List.filter_ext _ (fun y => p_id y =? p_id c)) by (intros y; apply Z.eqb_sym).
  rewrite (filter_key p_id _ c Hnp Hc). simpl.
  unfold scanSet. simpl. by rewrite Hn, Ht.
Qed.

Lemma sound_keys db :
  store_ok db = true ->
  List.NoDup (map s_id (sets db)) /\ List.NoDup (map p_id (photos db)).
Proof.
  intros Hok. unfold store_ok in Hok. apply andb_true_iff in Hok as [[Hk _]%andb_true_iff _].
  unfold keys_ok in Hk. apply andb_true_iff in Hk as [Hks Hkp].
  apply ascending_from_spec in Hks as (_ & Hs & _).
  apply ascending_from_spec in Hkp as (_ & Hp & _). by split.
Qed.

(** X26.  After [Scan] on a sound store the server finds every set of
    the catalogue: asked for the key of a set, [getSetHandler] answers
    with that set, its number of photos, and as its cover a photo of the
    set with that photo's path; it never answers with an error. *)
Theorem sets_served_after_Scan paths db s query v more :
  store_ok db = true -> names_ok db = true ->
  In s (sets (Scan paths db)) ->
  query "id" = v :: more -> strconv_Atoi v = Some (s_id s) ->
  exists c,
    In c (photos_of (s_id s) (Scan paths db))
    /\ getSetHandler query (Scan paths db)
       = OkSet (mkPhotoSet (s_id s) (s_name s)
                  (Z.of_nat (length (photos_of (s_id s) (Scan paths db))))
                  (s_taken_at s) (p_id c) (p_path c)).
Proof.
  intros Hok Hn Hs Hq Hv.
  assert (Hs1 : sound (snd (updatePhotoSiblings (walk_all paths db)))).
  { apply updatePhotoSiblings_sound, walk_all_keeps_inv; [apply store_sound | by split]. }
  set (db1 := snd (updatePhotoSiblings (walk_all paths db))) in *.
  assert (HD : Scan paths db = snd (updateSets db1)) by reflexivity.
  destruct Hs1 as [Hok1 Hn1].
  destruct (sets_tx_spec db1 Hok1) as (_ & P & S & _).
  pose proof (updateSets_sound db1 (conj Hok1 Hn1)) as [HokD _].
  rewrite <- HD in HokD. destruct (sound_keys _ HokD) as [Hks Hkp].
  assert (HP : photos (Scan paths db) = photos db1) by (rewrite HD; exact P).
  assert (HS : sets (Scan paths db) = map (agg_set db1) (sets db1)) by (rewrite HD; exact S).
  pose proof Hs as Hs'. rewrite HS in Hs'. apply in_map_iff in Hs' as (s0 & Es & Hs0).
  destruct (store_ok_spec db1 Hok1) as (_ & Hasc & _ & Hinh).
  destruct (photos_of_cover db1 (s_id s0) Hasc (Hinh s0 Hs0)) as (c & Hc & Hcid & _).
  assert (Eid : s_id s = s_id s0) by (by rewrite <- Es).
  assert (Eof : photos_of (s_id s) (Scan paths db) = photos_of (s_id s0) db1).
  { unfold photos_of. by rewrite HP, Eid. }
  exists c. split; [by rewrite Eof|].
  unfold getSetHandler, requireParam. rewrite Hq. simpl. rewrite Hv.
  assert (Hcin : In c (photos (Scan paths db))).
  { rewrite HP. unfold photos_of in Hc. by apply filter_In in Hc as [? _]. }
  rewrite (getSetById_found (Scan paths db) s c
             (Z.of_nat (length (photos_of (s_id s) (Scan paths db)))) Hks Hkp Hs Hcin).
  - reflexivity.
  - rewrite <- Es. simpl. by rewrite Hcid.
  - rewrite <- Es. simpl. unfold photosCountStmt. f_equal. f_equal. f_equal.
    unfold photos_of. by rewrite HP.
Qed.

(** X27.  The server sees no set that has no cover: for a key that no
    set has, and for the key of a set whose [thumb_photo_id] is still
    NULL (as between the walk and the aggregate phase), [getSetById]
    finds no row and [getSetHandler] answers Not Found. *)
Theorem sets_not_served db query v more setId :
  (forall s, In s (sets db) -> s_id s = setId -> thumb_photo_id s = None) ->
  query "id" = v :: more -> strconv_Atoi v = Some setId ->
  getSetById setId db = ErrNoRows /\ getSetHandler query db = NotFound.
Proof.
  intros Hnull Hq Hv.
  assert (Hno : getSetById setId db = ErrNoRows).
  { unfold getSetById, getSetStmt.
    assert (E : forall l, (forall s, In s l -> thumb_photo_id s = None) ->
              flat_map (fun s => map (fun r => (s, r))
                          (List.filter (fun r => is_val (thumb_photo_id s) (p_id r))
                                       (photos db))) l = []).
    { induction l as [|s l IH]; intros Hl; simpl; [done|].
      rewrite (Hl s (or_introl eq_refl)). simpl.
      assert (F : List.filter (fun _ : photo_row => false) (photos db) = []).
      { generalize (photos db). intros l0. induction l0 as [|a l0 IHl]; [done | exact IHl]. }
      rewrite F. simpl. apply IH. intros s' Hs'. apply Hl. by right. }
    rewrite E; [done|]. intros s [Hs Hk]%filter_In. apply Hnull; [exact Hs | lia]. }
  split; [exact Hno|].
  unfold getSetHandler, requireParam. rewrite Hq. simpl. by rewrite Hv, Hno.
Qed.

End ServerFacts.

Section UrlFacts.
Import Thumbs Server.
Context `{ThumbEnv}.

(** X28.  The server and the thumbnail generator agree on file names:
    the URL of a thumb is [/thumbs/] followed by the name [Basename]
    gives the generator for the same photo and suffix; the cover URL of
    a set is that of the small thumb of its cover photo; and the URLs of
    the big and of the small thumb of a photo differ. *)
Theorem thumbURL_Basename photoPath suffix s :
  thumbURL photoPath suffix = "/thumbs/" +:+ Basename photoPath suffix
  /\ ThumbURL s = "/thumbs/" +:+ Basename (ThumbPhotoPath s) "small"
  /\ thumbURL photoPath "big" <> thumbURL photoPath "small".
Proof.
  split; [reflexivity|]. split; [reflexivity|]. unfold thumbURL. intros E.
  apply string_app_inj_l, string_app_inj_l, string_app_inj_l in E.
  by apply string_app_inj_r in E.
Qed.

End UrlFacts.

Section RatioFacts.
Import Server.

(** X29.  For a photo with positive dimensions [AspectRatio] is the
    ratio of width to height in lowest terms. *)
Theorem AspectRatio_lowest_terms p :
  0 < Width p -> 0 < Height p ->
  exists a b,
    AspectRatio p = Some (a, b)
    /\ 0 < a /\ 0 < b /\ Z.gcd a b = 1
    /\ a * Height p = b * Width p.
Proof.
  intros Hw Hh. unfold AspectRatio.
  set (g := Z.gcd (Width p) (Height p)).
  assert (Hg : 0 < g).
  { pose proof (Z.gcd_nonneg (Width p) (Height p)).
    destruct (Z.eq_dec g 0) as [E|]; [|unfold g in *; lia].
    apply Z.gcd_eq_0_l in E. lia. }
  destruct (Z.eqb_spec g 0); [lia|].
  destruct (Z.gcd_divide_l (Width p) (Height p)) as [a Ha].
  destruct (Z.gcd_divide_r (Width p) (Height p)) as [b Hb]. fold g in Ha, Hb.
  exists (Z.quot (Width p) g), (Z.quot (Height p) g).
  rewrite !Z.quot_div_nonneg by lia.
  assert (Ea : Width p / g = a) by (rewrite Ha; apply Z.div_mul; lia).
  assert (Eb : Height p / g = b) by (rewrite Hb; apply Z.div_mul; lia).
  split; [reflexivity|]. rewrite Ea, Eb.
  split; [nia|]. split; [nia|]. split.
  - rewrite <- Ea, <- Eb. apply Z.gcd_div_gcd; [lia | reflexivity].
  - nia.
Qed.

End RatioFacts.

(** * Links as the server reports them *)

Section ServedLinks.
Import Photos Server.
Context `{HttpEnv}.

Lemma getPhotoById_row db x p :
  getPhotoById x db = Row p -> exists r, In r (photos db) /\ p_id r = x /\ p = scanPhoto r.
Proof.
  unfold getPhotoById, getPhotoStmt.
  destruct (List.filter _ (photos db)) as [|r l] eqn:E; [discriminate|].
  intros [= <-]. exists r.
  assert (Hin : In r (List.filter (fun r => p_id r =? x) (photos db))) by (rewrite E; by left).
  apply filter_In in Hin as [Hr Hk]. split; [exact Hr|]. split; [lia | reflexivity].
Qed.

Lemma getPhotoById_some db q :
  In q (photos db) -> exists p, getPhotoById (p_id q) db = Row p /\ PhotoId p = p_id q.
Proof.
  intros Hq. unfold getPhotoById, getPhotoStmt.
  destruct (List.filter _ (photos db)) as [|r l] eqn:E.
  - assert (Hin : In q (List.filter (fun r => p_id r =? p_id q) (photos db))).
    { apply filter_In. split; [exact Hq | apply Z.eqb_refl]. }
    rewrite E in Hin. destruct Hin.
  - exists (scanPhoto r). split; [reflexivity|]. simpl.
    assert (Hin : In r (List.filter (fun r => p_id r =? p_id q) (photos db))).
    { rewrite E. by left. }
    apply filter_In in Hin as [_ Hk]. lia.
Qed.

(** X30.  On a store without dangling links every link that the server
    reports resolves: when [getPhotoById] answers with a photo whose
    [NextPhotoId] or [PrevPhotoId] is set, asking [getPhotoHandler] for
    that key is answered with a photo of that key, not with Not Found. *)
Theorem served_links_resolve db x p y query v more :
  links_closed db ->
  getPhotoById x db = Row p ->
  NextPhotoId p = Some y \/ PrevPhotoId p = Some y ->
  query "id" = v :: more -> strconv_Atoi v = Some y ->
  exists q, getPhotoHandler query db = OkPhoto q /\ PhotoId q = y.
Proof.
  intros Hc Hp Hy Hq Hv.
  destruct (getPhotoById_row db x p Hp) as (r & Hr & _ & ->). simpl in Hy.
  destruct (Hc r y Hr) as (q & Hqin & <-); [tauto|].
  destruct (getPhotoById_some db q Hqin) as (sp & Hsp & Hid).
  exists sp. split; [|exact Hid].
  unfold getPhotoHandler, requireParam. rewrite Hq. simpl. by rewrite Hv, Hsp.
Qed.

End ServedLinks.

(** * Worked runs of the scanner, the generator and the server *)

Section WorkedCatalogue.
Import Photos Examples Albums Positions.

(** X1 on a photo without floats, found again as it is, and on one whose
    latitude is a NaN, found again without its latitude. *)
Lemma store_lookup_witness :
  has_photo a_jpg empty_db = false
  /\ (exists id r,
         selectPhotoStmt a_jpg (snd (@store album (shot a_jpg (Some T1)) empty_db)) = Some id
         /\ photo_by_id id (snd (@store album (shot a_jpg (Some T1)) empty_db)) = Some r
         /\ p_cols r = shot a_jpg (Some T1)
         /\ selectSetStmt "vacation" (snd (@store album (shot a_jpg (Some T1)) empty_db))
            = Some (p_set_id r))
  /\ (exists id r,
         selectPhotoStmt a_jpg (snd (@store album adrift empty_db)) = Some id
         /\ photo_by_id id (snd (@store album adrift empty_db)) = Some r
         /\ Lat (p_cols r) = None /\ Lng (p_cols r) = Some (S754_zero false)).
Proof.
  split; [reflexivity|]. split.
  - destruct (@store_lookup album (shot a_jpg (Some T1)) empty_db eq_refl)
      as (id & r & A & B & _ & C & _ & _ & D).
    exists id, r. split; [exact A|]. split; [exact B|]. split; [exact (C eq_refl) | exact D].
  - destruct (@store_lookup album adrift empty_db eq_refl)
      as (id & r & A & B & C & _).
    exists id, r. split; [exact A|]. split; [exact B|]. by rewrite C.
Defined.

Lemma Scan_catalogues_witness :
  is_Some (selectPhotoStmt a_jpg (@Scan album ["/pics"] empty_db))
  /\ is_Some (selectSetStmt "vacation" (@Scan album ["/pics"] empty_db)).
Proof.
  apply (@Scan_catalogues album ["/pics"] empty_db "/pics" (mkWalkEntry a_jpg false None)
                          (shot a_jpg (Some T1))).
  - simpl. auto.
  - simpl. auto.
  - reflexivity.
  - reflexivity.
  - reflexivity.
Defined.

Lemma Scan_keeps_names_unique_witness :
  List.NoDup (map s_name (sets (@Scan album ["/pics"] empty_db)))
  /\ List.NoDup (map p_path (photos (@Scan album ["/pics"] empty_db))).
Proof.
  apply (@Scan_keeps_names_unique album ["/pics"] empty_db); simpl; constructor.
Defined.

Lemma Scan_keeps_store_sound_witness :
  store_ok empty_db = true
  /\ store_ok (@Scan album ["/pics"] empty_db) = true
  /\ @names_ok album (@Scan album ["/pics"] empty_db) = true.
Proof.
  split; [reflexivity|].
  destruct (@Scan_keeps_store_sound album ["/pics"] empty_db eq_refl eq_refl) as (A & B & _).
  exact (conj A B).
Defined.

Lemma updateSets_clean_witness :
  store_ok db_untimed = true
  /\ failures (sets_tx db_untimed) = []
  /\ length (tx_results (sets_tx db_untimed)) = length (group_keys (photos db_untimed)).
Proof.
  split; [vm_compute; reflexivity|].
  apply (updateSets_clean db_untimed). vm_compute. reflexivity.
Defined.

Lemma photos_count_total_witness :
  @names_ok album db_untimed = true
  /\ counted (sets (snd (updateSets db_untimed))) = 3.
Proof.
  split; [vm_compute; reflexivity|].
  apply (@photos_count_total album db_untimed); vm_compute; reflexivity.
Defined.

Lemma first_links_inverse_witness :
  prev_of (snd (updatePhotoSiblings db_untimed)) 2 = Some 1
  <-> next_of (snd (updatePhotoSiblings db_untimed)) 1 = Some 2.
Proof.
  apply (first_links_inverse db_untimed 2 1); vm_compute; reflexivity.
Defined.

Lemma first_links_inside_sets_witness :
  In linked_c (photos (snd (updatePhotoSiblings db_untimed)))
  /\ exists q,
       In q (photos (snd (updatePhotoSiblings db_untimed)))
       /\ p_id q = 1 /\ p_set_id q = p_set_id linked_c
       /\ taken_le (p_taken_at q) (p_taken_at linked_c) = true.
Proof.
  assert (Hin : In linked_c (photos (snd (updatePhotoSiblings db_untimed)))).
  { vm_compute. right. left. reflexivity. }
  split; [exact Hin|].
  apply (first_links_inside_sets db_untimed linked_c 1);
    [vm_compute; reflexivity | vm_compute; reflexivity | exact Hin | reflexivity].
Defined.

Lemma feed_complete_witness :
  Permutation (Feed.feed_rows db_untimed) (map p_path (photos db_untimed))
  /\ Z.of_nat (length (Feed.feed_rows db_untimed)) = Feed.photosCount db_untimed.
Proof.
  apply (@feed_complete album db_untimed). vm_compute. reflexivity.
Defined.

End WorkedCatalogue.

Section WorkedCaches.
Import Thumbs ThumbExamples Caches.

Lemma worker_cached_witness :
  @worker studio "/t" [Examples.a_jpg] cached
  = mkWorld (files cached) (runs cached) (log cached) (bar cached + 1).
Proof.
  apply (@worker_cached studio "/t" [Examples.a_jpg] cached).
  intros p [<-|[]]. split; vm_compute; by eexists.
Defined.

Lemma generateThumb_after_failure_witness :
  fst (@generateThumb studio "/pics/none.jpg" "/t/x.jpg" 200 true disk) = Some "exit status 1"
  /\ runs (snd (@generateThumb studio "/pics/none.jpg" "/t/x.jpg" 200 true
                  (snd (@generateThumb studio "/pics/none.jpg" "/t/x.jpg" 200 true disk))))
     = [@cmdArgs "/pics/none.jpg" "/t/x.jpg" 200 true;
        @cmdArgs "/pics/none.jpg" "/t/x.jpg" 200 true].
Proof.
  split; [reflexivity|].
  destruct (@generateThumb_after_failure studio "/pics/none.jpg" "/t/x.jpg" 200 true disk
              "exit status 1" eq_refl) as (_ & Hretry & _).
  apply Hretry. reflexivity.
Defined.

End WorkedCaches.

Section WorkedFiles.
Import Photos Files FileExamples Examples.

(** X24 on the card: [a.jpg] is held upright, [b.jpg] has no EXIF
    data. *)
Lemma decode_dimensions_witness :
  (exists p, @decode camera_card a_jpg new_Photo = Returns (None, p)
             /\ (Width p, Height p) = (3000, 4000))
  /\ (exists p, @decode camera_card b_jpg new_Photo = Returns (None, p)
                /\ (Width p, Height p) = (4000, 3000)).
Proof.
  split.
  - destruct (@decode_dimensions camera_card a_jpg 2048 4000 3000 eq_refl eq_refl eq_refl)
      as (p & A & _ & B & _).
    + by intros x [= <-].
    + exists p. split; [exact A | exact B].
  - destruct (@decode_dimensions camera_card b_jpg 2048 4000 3000 eq_refl eq_refl eq_refl)
      as (p & A & _ & B & _).
    + by intros x [=].
    + exists p. split; [exact A | exact B].
Defined.

Lemma camera_card_sound path : @decode camera_card path new_Photo <> Panics.
Proof.
  rewrite (@decode_spec camera_card). simpl.
  destruct (String.eqb path a_jpg); discriminate.
Qed.

Lemma Scan_keeps_coordinates_paired_witness :
  Forall (fun r => coords_paired (p_cols r))
         (photos (@Scan (@scanner camera_card camera_card_sound) ["/card"] empty_db)).
Proof.
  apply List.Forall_forall.
  apply (@Scan_keeps_coordinates_paired camera_card camera_card_sound ["/card"] empty_db).
  - intros path x ll Hx Hll. simpl in Hx.
    destruct (String.eqb path a_jpg); [|discriminate].
    injection Hx as <-. injection Hll as <-. by split.
  - intros r [].
Defined.

End WorkedFiles.

Section WorkedServer.
Import Photos Examples Albums Server ServerExamples.

Lemma sets_served_after_Scan_witness :
  exists c,
    In c (photos_of 1 (@Scan album ["/pics"] empty_db))
    /\ @getSetHandler digits (ask "1") (@Scan album ["/pics"] empty_db)
       = OkSet (mkPhotoSet 1 "vacation" 3 (Some T1) (p_id c) (p_path c)).
Proof.
  apply (@sets_served_after_Scan album digits ["/pics"] empty_db vacation (ask "1") "1" []).
  - reflexivity.
  - reflexivity.
  - vm_compute. left. reflexivity.
  - reflexivity.
  - reflexivity.
Defined.

Lemma sets_not_served_witness :
  getSetById 1 db_untimed = ErrNoRows
  /\ @getSetHandler digits (ask "1") db_untimed = NotFound.
Proof.
  apply (@sets_not_served digits db_untimed (ask "1") "1" [] 1).
  - intros s [<-|[]] _. reflexivity.
  - reflexivity.
  - reflexivity.
Defined.

Lemma AspectRatio_lowest_terms_witness :
  exists a b,
    AspectRatio served_a = Some (a, b)
    /\ 0 < a /\ 0 < b /\ Z.gcd a b = 1
    /\ a * 3000 = b * 4000.
Proof.
  apply (AspectRatio_lowest_terms served_a); simpl; lia.
Defined.

End WorkedServer.

Section WorkedRoots.
Import Photos Examples Albums Twins.

Lemma Scan_overlapping_roots_witness :
  @Scan album (["/pics"] ++ ["/pics"]) empty_db = @Scan album ["/pics"] empty_db.
Proof.
  apply (@Scan_overlapping_roots album ["/pics"] "/pics" empty_db).
  intros e He. exists "/pics". split; [by left | exact He].
Defined.

Lemma same_name_same_set_witness :
  exists r1 r2,
    photos (snd (@store album (shot south None) (snd (@store album (shot north None) empty_db))))
    = photos empty_db ++ [r1; r2]
    /\ p_cols r1 = shot north None /\ p_cols r2 = shot south None
    /\ p_set_id r1 = p_set_id r2
    /\ selectSetStmt "vacation"
         (snd (@store album (shot south None) (snd (@store album (shot north None) empty_db))))
       = Some (p_set_id r1).
Proof.
  apply (@same_name_same_set album (shot north None) (shot south None) empty_db);
    reflexivity.
Defined.

End WorkedRoots.

Section WorkedRelink.
Import Photos Examples GrownAlbums.

Lemma relink_in_order_witness :
  keys_ok db_later = true
  /\ failures (siblings_tx db_later) = []
  /\ follow next_photo_id (snd (updatePhotoSiblings db_later)) 3 1 = Some [1; 2; 3]
  /\ follow prev_photo_id (snd (updatePhotoSiblings db_later)) 3 3 = Some [3; 2; 1].
Proof.
  assert (Hord : links_in_order db_later).
  { intros r v Hr. vm_compute in Hr.
    destruct Hr as [<-|[<-|[<-|[]]]]; split; intros E; vm_compute in E;
      try discriminate; injection E as <-.
    - exists [], 1, [(3, 1)]. vm_compute. reflexivity.
    - exists [], 1, [(3, 1)]. vm_compute. reflexivity. }
  destruct (relink_in_order db_later 1 eq_refl Hord) as (F & Hn & Hp).
  split; [reflexivity|]. split; [exact F|]. split.
  - apply (Hn (mkPhotoRow 1 1 None (Some 2) (shot a_jpg (Some T1)))); [reflexivity|].
    vm_compute. lia.
  - apply (Hp (mkPhotoRow 3 1 None None (shot d_jpg (Some T4)))); [reflexivity|].
    vm_compute. lia.
Defined.

End WorkedRelink.

Section WorkedLinker.
Import Photos Examples Albums.

(** C3 on the second run over the grown tree: the first UPDATE fails on
    the UNIQUE index, its error is dropped, and the three UPDATEs after
    it are committed, so that photo 3 is linked forward and from both
    sides but has no previous link. *)
Lemma linker_never_aborts_witness :
  errors_of (siblings_updates (siblings_rows db_grown) 0 0) db_grown
  = ["UNIQUE constraint failed: photos.prev_photo_id"]
  /\ fst (updatePhotoSiblings db_grown) = None
  /\ snd (updatePhotoSiblings db_grown)
     = run_all [SetNext 3 1; SetPrev 3 2; SetNext 2 3] db_grown
  /\ map (fun r => (p_id r, prev_photo_id r, next_photo_id r))
         (photos (snd (updatePhotoSiblings db_grown)))
     = [(1, None, Some 3); (2, Some 3, None); (3, None, Some 2)].
Proof.
  destruct (@linker_never_aborts album db_grown) as (R & _ & _ & _ & Step & _).
  split; [reflexivity|]. split; [by rewrite R|]. split; [|reflexivity].
  exact (Step [] (SetPrev 1 3) [SetNext 3 1; SetPrev 3 2; SetNext 2 3] eq_refl).
Defined.

End WorkedLinker.

Section WorkedChains.
Import Photos Examples GrownAlbums.

(** C2 on a store that has links already: photos 1 and 2 are linked by
    the first run, photo 3 was taken after them and photo 4 has no
    capture time.  Forward from photo 1 through the dated photos,
    backward from photo 3 through all four. *)
Lemma siblings_chain_witness :
  keys_ok db_mixed = true /\ links_in_order db_mixed /\ no_links db_mixed = false
  /\ follow next_photo_id (snd (updatePhotoSiblings db_mixed)) 3 1 = Some [1; 2; 3]
  /\ follow prev_photo_id (snd (updatePhotoSiblings db_mixed)) 4 3 = Some [3; 2; 1; 4].
Proof.
  assert (Hord : links_in_order db_mixed).
  { intros r v Hr. vm_compute in Hr.
    destruct Hr as [<-|[<-|[<-|[<-|[]]]]]; split; intros E; vm_compute in E;
      try discriminate; injection E as <-.
    - exists [(4, 1)], 1, [(3, 1)]. vm_compute. reflexivity.
    - exists [(4, 1)], 1, [(3, 1)]. vm_compute. reflexivity. }
  destruct (siblings_chain db_mixed 1 eq_refl Hord) as (_ & _ & _ & Hn & Hp).
  split; [reflexivity|]. split; [exact Hord|]. split; [reflexivity|]. split.
  - apply (Hn (mkPhotoRow 1 1 None (Some 2) (shot a_jpg (Some T1)))); [reflexivity|].
    vm_compute. lia.
  - apply (Hp (mkPhotoRow 3 1 None None (shot d_jpg (Some T4)))); [reflexivity|].
    vm_compute. lia.
Defined.

End WorkedChains.

Section WorkedLinks.
Import Photos Examples Albums Server ServerExamples.

Lemma Scan_keeps_links_closed_witness :
  links_closed empty_db /\ links_closed (@Scan album ["/pics"] empty_db).
Proof.
  assert (H0 : links_closed empty_db) by (intros r v []).
  split; [exact H0|]. apply (@Scan_keeps_links_closed album ["/pics"] empty_db H0).
Defined.

Lemma served_links_resolve_witness :
  exists q,
    @getPhotoHandler digits (ask "2") (@Scan album ["/pics"] empty_db) = OkPhoto q
    /\ PhotoId q = 2.
Proof.
  apply (@served_links_resolve digits (@Scan album ["/pics"] empty_db) 1
           (scanPhoto (mkPhotoRow 1 1 (Some 3) (Some 2) (shot a_jpg (Some T1))))
           2 (ask "2") "2" []).
  - intros r v Hr. vm_compute in Hr.
    destruct Hr as [<-|[<-|[<-|[]]]]; intros [E|E]; vm_compute in E;
      try discriminate; injection E as <-; eexists;
      (split; [vm_compute; ((left; reflexivity) + (right; left; reflexivity)
                            + (right; right; left; reflexivity))
              | reflexivity]).
  - reflexivity.
  - left. reflexivity.
  - reflexivity.
  - reflexivity.
Defined.

End WorkedLinks.

Section WorkedBar.
Import Photos Examples Albums Thumbs ThumbExamples Feed.

Lemma bar_reaches_total_witness :
  bar (@worker studio "/t" (rev (feed_rows db_untimed)) disk) = bar disk + 3.
Proof.
  apply (@bar_reaches_total album studio db_untimed "/t" (rev (feed_rows db_untimed)) disk).
  - vm_compute. reflexivity.
  - symmetry. apply Permutation_rev.
Defined.

End WorkedBar.
